(** * memory-splat-visualiser: job polling and the photo store

    A shallow embedding of [src/sharpService.ts] (submission and polling of
    remote splat-generation jobs), [src/photoService.ts] (the photo and album
    store), of [generateSplatsForPhotos] and [loadExistingSplats] in
    [src/main.ts], of [src/splatViewer.ts] (the modal viewer) and of
    [api/sharp/result.js] (the result endpoint), followed by the properties
    of the specification that these functions decide and by further
    properties of the same code.

    Asynchronous functions are embedded as state transformers over an explicit
    world: one call runs from its first statement to the settlement of its
    promise, every [await] being a point where the environment (clock, network,
    IndexedDB) makes its move. The environment's moves are inputs of the
    model. Other event handlers that the browser may run while a call is
    suspended are outside the model, and arrays are values: the identity of
    the array objects themselves is not tracked, that of the [Photo] objects
    is. *)

From Stdlib Require Import ZArith Lia.
From stdpp Require Import base option list strings gmap pretty.

(** ** JavaScript values shared by the modules *)

(** A thrown value. [new Error(m)] is [Error m]; a rejected [fetch] throws a
    [TypeError], a body that is not JSON a [SyntaxError]. *)
Record Exn := { exnName : string; message : string }.

Definition Error (m : string) : Exn := {| exnName := "Error"; message := m |}.
Definition TypeError (m : string) : Exn := {| exnName := "TypeError"; message := m |}.
Definition SyntaxError (m : string) : Exn := {| exnName := "SyntaxError"; message := m |}.

(** How a call ends: [return a] or [throw e] (for an async function: a
    fulfilled or a rejected promise). *)
Inductive Outcome (A : Type) : Type :=
| Return (a : A)
| Throw (e : Exn).
Arguments Return {A} a.
Arguments Throw {A} e.

(** Computations over a world [W]. *)
Definition M (W A : Type) : Type := W -> Outcome A * W.

Definition ret {W A} (a : A) : M W A := fun w => (Return a, w).
Definition throw {W A} (e : Exn) : M W A := fun w => (Throw e, w).
Definition bind {W A B} (c : M W A) (k : A -> M W B) : M W B :=
  fun w => match c w with
           | (Return a, w') => k a w'
           | (Throw e, w') => (Throw e, w')
           end.

(** [try { body } catch (err) { handler err }] *)
Definition tryCatch {W A} (body : M W A) (handler : Exn -> M W A) : M W A :=
  fun w => match body w with
           | (Return a, w') => (Return a, w')
           | (Throw e, w') => handler e w'
           end.

Definition gets {W A} (f : W -> A) : M W A := fun w => (Return (f w), w).
Definition modify {W} (f : W -> W) : M W unit := fun w => (Return tt, f w).

Declare Scope js_scope.
Delimit Scope js_scope with js.
Notation "x <- c ;; k" := (bind c (fun x => k))
  (at level 100, c at next level, right associativity) : js_scope.
Notation "c ;;; k" := (bind c (fun _ => k))
  (at level 100, right associativity) : js_scope.

(** [a || d] on an optional string: [undefined] and the empty string are
    falsy. *)
Definition js_or (a : option string) (d : string) : string :=
  match a with
  | Some (String c s) => String c s
  | Some EmptyString | None => d
  end.

(** Truthiness of an optional string, as in [if (splatUrl)]. *)
Definition truthy (a : option string) : bool :=
  match a with
  | Some (String _ _) => true
  | Some EmptyString | None => false
  end.

(** [Math.round(d / 1000)] for an integer [d]: the nearest integer, ties
    towards plus infinity. *)
Definition round_div1000 (d : Z) : Z := ((d + 500) / 1000)%Z.

(** The double nearest to the integer [z], ties to the even significand:
    what an exact integer result becomes when it is stored in a number.
    Integers up to 2^53 in absolute value are doubles; beyond, the doubles
    are the multiples of the spacing [ulp], a power of two. *)
Definition nearestDouble (z : Z) : Z :=
  let a := Z.abs z in
  if (a <=? 2 ^ 53)%Z then z
  else
    let ulp := (2 ^ (Z.log2 a - 52))%Z in
    let q := (a / ulp)%Z in
    let r := (a mod ulp)%Z in
    let q' := if (2 * r <? ulp)%Z then q
              else if (ulp <? 2 * r)%Z then (q + 1)%Z
              else if Z.even q then q else (q + 1)%Z in
    (Z.sgn z * (q' * ulp))%Z.

(** [x + n] for a number [x] that holds an integer and a length [n]: adding
    0 leaves [x] as it is, and any other sum is rounded to a double. *)
Definition js_plus (x n : Z) : Z :=
  if (n =? 0)%Z then x else nearestDouble (x + n).

(** ** sharpService.ts *)
Module SharpService.

(** An entry of the [activeGenerations] map. *)
Record Generation := {
  requestId : string;
  imageUrl : string;
  startTime : Z;
  photoId : option string;
}.

Record SharpResult := {
  plyUrl : string;
  filename : string;
  sizeBytes : Z;
}.

(** What [fetch] resolves to: the [ok] flag and the body as [json()] parses
    it ([None]: the body is not JSON and [json()] rejects). *)
Record Response (B : Type) := { ok : bool; json : option B }.
Arguments ok {B} r.
Arguments json {B} r.

(** What the runtime rejects with when a request fails on its way: [fetch]
    with a [TypeError]; [json()] with a [SyntaxError] for a body that is not
    JSON; [text()] and [json()] with a [TypeError] for a body that cannot be
    read. The message is the runtime's own. *)
Inductive RuntimeError :=
| NetworkError (message : string)
| ParseError (message : string).

Definition thrown (e : RuntimeError) : Exn :=
  match e with
  | NetworkError m => TypeError m
  | ParseError m => SyntaxError m
  end.

(** Body of [/api/sharp/submit]. *)
Record SubmitBody := { request_id : string }.

(** Body of [/api/sharp/status]. *)
Record StatusBody := { status : string; error : option string }.

(** Body of [/api/sharp/result]. *)
Record ResultBody := { ply_url : string; result_filename : string; size_bytes : Z }.

(** The environment's part in one round of the poll loop: the reply to the
    status query and how long it took, the reply to the result fetch should
    one be issued, by how much the timer overshoots the requested delay,
    and what the step of the round that rejects, if one does, rejects with.
    A reply of [None] is a [fetch] that rejects. *)
Record Tick := {
  statusDelay : N;
  statusReply : option (Response StatusBody);
  resultDelay : N;
  resultReply : option (Response ResultBody);
  sleepLag : N;
  failure : RuntimeError;
}.

(** The environment's part in a submission: the reply, the text of a reply
    that is not ok as [response.text()] reads it ([None]: [text()] rejects),
    and what the step that rejects, if one does, rejects with. *)
Record SubmitTick := {
  submitDelay : N;
  submitReply : option (Response SubmitBody);
  submitText : option string;
  submitFailure : RuntimeError;
}.

(** What the service does to the outside, in order. *)
Inductive Event :=
| Submit (imageUrl : string)
| SubmitFile (filename : string)
| StatusQuery (requestId : string)
| ResultFetch (requestId : string)
| Progress (msg : string)
| Warn (msg : string)
| Log (msg : string)
| Sleep (ms : Z).

Record World := {
  now : Z;                                       (* [Date.now()] *)
  activeGenerations : gmap string Generation;
  trace : list Event;
}.

Definition emit (e : Event) : M World unit :=
  modify (fun w => {| now := now w; activeGenerations := activeGenerations w;
                      trace := trace w ++ [e] |}).

Definition elapse (d : Z) : M World unit :=
  modify (fun w => {| now := (now w + d)%Z; activeGenerations := activeGenerations w;
                      trace := trace w |}).

Definition setGenerations (f : gmap string Generation -> gmap string Generation)
  : M World unit :=
  modify (fun w => {| now := now w; activeGenerations := f (activeGenerations w);
                      trace := trace w |}).

Definition dateNow : M World Z := gets now.

(** [await fetch(...)]: the request goes out, time passes, and the reply
    comes in or the promise rejects with [rejection]. *)
Definition fetch {B} (request : Event) (delay : N) (reply : option (Response B))
    (rejection : RuntimeError) : M World (Response B) :=
  (emit request ;;;
   elapse (Z.of_N delay) ;;;
   match reply with
   | Some r => ret r
   | None => throw (thrown rejection)
   end)%js.

(** [await response.json()] *)
Definition jsonOf {B} (r : Response B) (rejection : RuntimeError) : M World B :=
  match json r with
  | Some b => ret b
  | None => throw (thrown rejection)
  end.

(** [await response.text()] *)
Definition textOf (text : option string) (rejection : RuntimeError) : M World string :=
  match text with
  | Some t => ret t
  | None => throw (thrown rejection)
  end.

(** [await sleep(ms)]: the timer fires no earlier than asked. *)
Definition sleep (lag : N) (ms : Z) : M World unit :=
  (emit (Sleep ms) ;;; elapse (ms + Z.of_N lag))%js.

(** [submit(imageUrl)] *)
Definition submit (tk : SubmitTick) (imageUrl : string) : M World string :=
  (response <- fetch (Submit imageUrl) (submitDelay tk) (submitReply tk) (submitFailure tk) ;;
   (if negb (ok response)
    then text <- textOf (submitText tk) (submitFailure tk) ;;
         throw (Error ("Sharp submit failed: " +:+ text))
    else ret tt) ;;;
   body <- jsonOf response (submitFailure tk) ;;
   let requestId := request_id body in
   t <- dateNow ;;
   setGenerations (insert requestId
     {| requestId := requestId; imageUrl := imageUrl; startTime := t; photoId := None |}) ;;;
   emit (Log ("[sharpService] Submitted: " +:+ requestId)) ;;;
   ret requestId)%js.

(** [submitBlob(blob, filename)] *)
Definition submitBlob (tk : SubmitTick) (filename : string) : M World string :=
  (response <- fetch (SubmitFile filename) (submitDelay tk) (submitReply tk)
                 (submitFailure tk) ;;
   (if negb (ok response)
    then text <- textOf (submitText tk) (submitFailure tk) ;;
         throw (Error ("Sharp submit failed: " +:+ text))
    else ret tt) ;;;
   body <- jsonOf response (submitFailure tk) ;;
   let requestId := request_id body in
   t <- dateNow ;;
   setGenerations (insert requestId
     {| requestId := requestId; imageUrl := "blob:" +:+ filename; startTime := t;
        photoId := None |}) ;;;
   emit (Log ("[sharpService] Submitted blob: " +:+ requestId)) ;;;
   ret requestId)%js.

(** [setPhotoId(requestId, photoId)] *)
Definition setPhotoId (requestId photoId : string) : M World unit :=
  setGenerations (fun gens =>
    match gens !! requestId with
    | Some gen => <[requestId := {| requestId := SharpService.requestId gen;
                                    imageUrl := imageUrl gen;
                                    startTime := startTime gen;
                                    photoId := Some photoId |}]> gens
    | None => gens
    end).

(** [getPhotoId(requestId)] *)
Definition getPhotoId (requestId : string) : M World (option string) :=
  gets (fun w => activeGenerations w !! requestId ≫= photoId).

(** [Math.min(5000, 1000 + attempt * 200)] *)
Definition backoff (attempt : nat) : Z :=
  Z.min 5000 (1000 + Z.of_nat attempt * 200).

(** The progress callback: [Some e] when the call throws [e]. *)
Definition Callback := string -> option Exn.

Definition callProgress (cb : Callback) (msg : string) : M World unit :=
  (emit (Progress msg) ;;;
   match cb msg with
   | Some e => throw e
   | None => ret tt
   end)%js.

(** The [try] block in the loop of [waitForResult]: [Some r] when it
    executes [return r]. *)
Definition tryBlock (tk : Tick) (requestId : string)
    (onProgress : option Callback) (elapsed : Z) : M World (option SharpResult) :=
  (statusRes <- fetch (StatusQuery requestId) (statusDelay tk) (statusReply tk) (failure tk) ;;
   if ok statusRes then
     status <- jsonOf statusRes (failure tk) ;;
     match onProgress with
     | Some cb =>
         if bool_decide (status.(SharpService.status) = "pending")
            || bool_decide (status.(SharpService.status) = "processing")
         then callProgress cb ("Generating splat... (" +:+ pretty elapsed +:+ "s)")
         else ret tt
     | None => ret tt
     end ;;;
     if bool_decide (status.(SharpService.status) = "completed") then
       resultRes <- fetch (ResultFetch requestId) (resultDelay tk) (resultReply tk)
                      (failure tk) ;;
       (if negb (ok resultRes)
        then throw (Error "Failed to get result")
        else ret tt) ;;;
       result <- jsonOf resultRes (failure tk) ;;
       setGenerations (delete requestId) ;;;
       ret (Some {| plyUrl := ply_url result;
                    filename := result_filename result;
                    sizeBytes := size_bytes result |})
     else if bool_decide (status.(SharpService.status) = "failed") then
       setGenerations (delete requestId) ;;;
       throw (Error (js_or (error status) "Generation failed"))
     else ret None
   else ret None)%js.

(** One round of the [while] loop of [waitForResult], up to and excluding
    the backoff: [Some r] when the round executes [return r]. *)
Definition pollAttempt (tk : Tick) (requestId : string)
    (onProgress : option Callback) (start : Z) (attempt : nat)
  : M World (option SharpResult) :=
  (t <- dateNow ;;
   let elapsed := round_div1000 (t - start) in
   tryCatch
     (tryBlock tk requestId onProgress elapsed)
     (fun err =>
        emit (Warn ("[sharpService] Poll " +:+ pretty attempt +:+ " failed, retrying...")) ;;;
        ret None))%js.

(** The [while] loop of [waitForResult] and the [throw] after it. [attempt]
    is the number of rounds made so far; [env n] is the environment's part
    in round [n]. The result is [None] when [fuel] rounds were not enough
    to reach the end of the loop. *)
Fixpoint pollLoop (fuel : nat) (env : nat -> Tick) (requestId : string)
    (timeoutMs : Z) (onProgress : option Callback) (start : Z) (attempt : nat)
    (w : World) : option (Outcome SharpResult * World) :=
  if (now w - start <? timeoutMs)%Z then
    match fuel with
    | O => None
    | S fuel' =>
        let attempt := S attempt in
        match pollAttempt (env attempt) requestId onProgress start attempt w with
        | (Return (Some r), w1) => Some (Return r, w1)
        | (Return None, w1) =>
            match sleep (sleepLag (env attempt)) (backoff attempt) w1 with
            | (Return _, w2) =>
                pollLoop fuel' env requestId timeoutMs onProgress start attempt w2
            | (Throw e, w2) => Some (Throw e, w2)
            end
        | (Throw e, w1) => Some (Throw e, w1)
        end
    end
  else Some (Throw (Error "sharp_timeout"), w).

(** [waitForResult(requestId, timeoutMs = 3 * 60 * 1000, onProgress?)] *)
Definition waitForResult (fuel : nat) (env : nat -> Tick) (requestId : string)
    (timeoutMs : option Z) (onProgress : option Callback)
    (w : World) : option (Outcome SharpResult * World) :=
  let timeoutMs := default (3 * 60 * 1000)%Z timeoutMs in
  let start := now w in
  pollLoop fuel env requestId timeoutMs onProgress start 0 w.

(** [generateSplat(imageUrl, onProgress?)] *)
Definition generateSplat (fuel : nat) (tk : SubmitTick) (env : nat -> Tick)
    (imageUrl : string) (onProgress : option Callback)
    (w : World) : option (Outcome SharpResult * World) :=
  match submit tk imageUrl w with
  | (Return requestId, w1) =>
      waitForResult fuel env requestId (Some (3 * 60 * 1000)%Z) onProgress w1
  | (Throw e, w1) => Some (Throw e, w1)
  end.

(** [generateSplatFromBlob(blob, filename, onProgress?)] *)
Definition generateSplatFromBlob (fuel : nat) (tk : SubmitTick) (env : nat -> Tick)
    (filename : string) (onProgress : option Callback)
    (w : World) : option (Outcome SharpResult * World) :=
  match submitBlob tk filename w with
  | (Return requestId, w1) =>
      waitForResult fuel env requestId (Some (3 * 60 * 1000)%Z) onProgress w1
  | (Throw e, w1) => Some (Throw e, w1)
  end.

(** Rounds that are enough for a budget of [timeoutMs]: every round that
    does not return sleeps for 1200 ms or more. *)
Definition enoughFuel (timeoutMs : option Z) : nat :=
  S (Z.to_nat (default (3 * 60 * 1000)%Z timeoutMs / 1200)).

(** [cleanupStale()] *)
Definition cleanupStale : M World unit :=
  (t <- dateNow ;;
   let staleThreshold := (5 * 60 * 1000)%Z in
   setGenerations (filter (fun kv => ¬ (t - startTime kv.2 > staleThreshold)%Z)))%js.

End SharpService.

(** ** photoService.ts *)
Module PhotoService.

Inductive SplatStatus := pending | processing | ready | failed.

Global Instance SplatStatus_eq_dec : EqDecision SplatStatus.
Proof. solve_decision. Defined.

Record Blob := { type : string; content : list Byte.byte }.

(** A [File] of the file input: a blob with a name. *)
Record File := { file_name : string; file_blob : Blob }.

Record Photo := {
  id : string;
  name : string;
  blob : Blob;
  url : string;
  timestamp : Z;
  albumId : string;
  splatUrl : option string;
  splatStatus : option SplatStatus;
}.

(** [photoCount] holds an integer: 0 at first, then sums of array
    lengths. *)
Record Album := {
  album_id : string;
  album_name : string;
  photoCount : Z;
  coverUrl : option string;
  createdAt : Z;
}.

(** The record [savePhotoToDB] stores: a photo without its object URL. *)
Record PhotoData := {
  data_id : string;
  data_name : string;
  data_blob : Blob;
  data_timestamp : Z;
  data_albumId : string;
  data_splatUrl : option string;
  data_splatStatus : option SplatStatus;
}.

(** What one IndexedDB transaction meets: how long it takes and whether
    the request ends in [onerror]. *)
Record DbTick := { dbDelay : N; dbFault : bool }.

(** The environment of the store: the IndexedDB transactions in the order in
    which they are opened, the values of
    [Math.random().toString(36).slice(2, 9)] in the order of the calls, and
    the URLs that [URL.createObjectURL] hands out. *)
Record Env := {
  db : nat -> DbTick;
  randomSuffix : nat -> string;
  objectURL : nat -> string;
}.

(** Calls of the change callbacks, with the array they are passed. *)
Inductive Notice :=
| PhotosChanged (photos : list nat)
| AlbumsChanged (albums : list Album).

(** One execution of [photo.splatStatus = status]: the photo's id, the
    status before and the status after. *)
Record StatusWrite := {
  written_id : string;
  status_before : option SplatStatus;
  status_after : option SplatStatus;
}.

(** The module's state. [Photo] objects live in [heap] and are referred to
    by their index: the array [photos], the arrays the functions return and
    the arrays passed to the callbacks share the objects. [statusWrites] is a
    history of the assignments to [splatStatus]; nothing reads it. *)
Record World := mkWorld {
  now : Z;
  heap : list Photo;
  photos : list nat;
  albums : list Album;
  currentAlbumId : option string;
  onPhotosChangedCallback : bool;      (* a callback is registered *)
  onAlbumsChangedCallback : bool;
  notices : list Notice;
  dbPhotos : list PhotoData;           (* object store 'photos', in key order *)
  dbAlbums : list Album;               (* object store 'albums', in key order *)
  dbTx : nat;
  randomCalls : nat;
  urlCalls : nat;
  statusWrites : list StatusWrite;
}.

Definition set_now (f : Z -> Z) (w : World) : World :=
  mkWorld (f (now w)) (heap w) (photos w) (albums w) (currentAlbumId w)
    (onPhotosChangedCallback w) (onAlbumsChangedCallback w) (notices w)
    (dbPhotos w) (dbAlbums w) (dbTx w) (randomCalls w) (urlCalls w) (statusWrites w).
Definition set_heap (f : list Photo -> list Photo) (w : World) : World :=
  mkWorld (now w) (f (heap w)) (photos w) (albums w) (currentAlbumId w)
    (onPhotosChangedCallback w) (onAlbumsChangedCallback w) (notices w)
    (dbPhotos w) (dbAlbums w) (dbTx w) (randomCalls w) (urlCalls w) (statusWrites w).
Definition set_photos (f : list nat -> list nat) (w : World) : World :=
  mkWorld (now w) (heap w) (f (photos w)) (albums w) (currentAlbumId w)
    (onPhotosChangedCallback w) (onAlbumsChangedCallback w) (notices w)
    (dbPhotos w) (dbAlbums w) (dbTx w) (randomCalls w) (urlCalls w) (statusWrites w).
Definition set_albums (f : list Album -> list Album) (w : World) : World :=
  mkWorld (now w) (heap w) (photos w) (f (albums w)) (currentAlbumId w)
    (onPhotosChangedCallback w) (onAlbumsChangedCallback w) (notices w)
    (dbPhotos w) (dbAlbums w) (dbTx w) (randomCalls w) (urlCalls w) (statusWrites w).
Definition set_currentAlbumId (a : option string) (w : World) : World :=
  mkWorld (now w) (heap w) (photos w) (albums w) a
    (onPhotosChangedCallback w) (onAlbumsChangedCallback w) (notices w)
    (dbPhotos w) (dbAlbums w) (dbTx w) (randomCalls w) (urlCalls w) (statusWrites w).
Definition set_onPhotosChangedCallback (b : bool) (w : World) : World :=
  mkWorld (now w) (heap w) (photos w) (albums w) (currentAlbumId w)
    b (onAlbumsChangedCallback w) (notices w)
    (dbPhotos w) (dbAlbums w) (dbTx w) (randomCalls w) (urlCalls w) (statusWrites w).
Definition set_onAlbumsChangedCallback (b : bool) (w : World) : World :=
  mkWorld (now w) (heap w) (photos w) (albums w) (currentAlbumId w)
    (onPhotosChangedCallback w) b (notices w)
    (dbPhotos w) (dbAlbums w) (dbTx w) (randomCalls w) (urlCalls w) (statusWrites w).
Definition set_notices (f : list Notice -> list Notice) (w : World) : World :=
  mkWorld (now w) (heap w) (photos w) (albums w) (currentAlbumId w)
    (onPhotosChangedCallback w) (onAlbumsChangedCallback w) (f (notices w))
    (dbPhotos w) (dbAlbums w) (dbTx w) (randomCalls w) (urlCalls w) (statusWrites w).
Definition set_dbPhotos (f : list PhotoData -> list PhotoData) (w : World) : World :=
  mkWorld (now w) (heap w) (photos w) (albums w) (currentAlbumId w)
    (onPhotosChangedCallback w) (onAlbumsChangedCallback w) (notices w)
    (f (dbPhotos w)) (dbAlbums w) (dbTx w) (randomCalls w) (urlCalls w) (statusWrites w).
Definition set_dbAlbums (f : list Album -> list Album) (w : World) : World :=
  mkWorld (now w) (heap w) (photos w) (albums w) (currentAlbumId w)
    (onPhotosChangedCallback w) (onAlbumsChangedCallback w) (notices w)
    (dbPhotos w) (f (dbAlbums w)) (dbTx w) (randomCalls w) (urlCalls w) (statusWrites w).
Definition set_dbTx (f : nat -> nat) (w : World) : World :=
  mkWorld (now w) (heap w) (photos w) (albums w) (currentAlbumId w)
    (onPhotosChangedCallback w) (onAlbumsChangedCallback w) (notices w)
    (dbPhotos w) (dbAlbums w) (f (dbTx w)) (randomCalls w) (urlCalls w) (statusWrites w).
Definition set_randomCalls (f : nat -> nat) (w : World) : World :=
  mkWorld (now w) (heap w) (photos w) (albums w) (currentAlbumId w)
    (onPhotosChangedCallback w) (onAlbumsChangedCallback w) (notices w)
    (dbPhotos w) (dbAlbums w) (dbTx w) (f (randomCalls w)) (urlCalls w) (statusWrites w).
Definition set_urlCalls (f : nat -> nat) (w : World) : World :=
  mkWorld (now w) (heap w) (photos w) (albums w) (currentAlbumId w)
    (onPhotosChangedCallback w) (onAlbumsChangedCallback w) (notices w)
    (dbPhotos w) (dbAlbums w) (dbTx w) (randomCalls w) (f (urlCalls w)) (statusWrites w).
Definition set_statusWrites (f : list StatusWrite -> list StatusWrite) (w : World) : World :=
  mkWorld (now w) (heap w) (photos w) (albums w) (currentAlbumId w)
    (onPhotosChangedCallback w) (onAlbumsChangedCallback w) (notices w)
    (dbPhotos w) (dbAlbums w) (dbTx w) (randomCalls w) (urlCalls w) (f (statusWrites w)).

Arguments set_now _ !_ /.
Arguments set_heap _ !_ /.
Arguments set_photos _ !_ /.
Arguments set_albums _ !_ /.
Arguments set_currentAlbumId _ !_ /.
Arguments set_onPhotosChangedCallback _ !_ /.
Arguments set_onAlbumsChangedCallback _ !_ /.
Arguments set_notices _ !_ /.
Arguments set_dbPhotos _ !_ /.
Arguments set_dbAlbums _ !_ /.
Arguments set_dbTx _ !_ /.
Arguments set_randomCalls _ !_ /.
Arguments set_urlCalls _ !_ /.
Arguments set_statusWrites _ !_ /.

(** *** Objects *)

(** A new object. *)
Definition alloc (p : Photo) : M World nat :=
  fun w => (Return (length (heap w)), set_heap (fun h => h ++ [p]) w).

(** Assignment to fields of the object at [l]. *)
Definition mutate (l : nat) (f : Photo -> Photo) : M World unit :=
  modify (set_heap (fun h => match h !! l with
                             | Some p => <[l := f p]> h
                             | None => h
                             end)).

Definition hasId (w : World) (photoId : string) (l : nat) : Prop :=
  id <$> heap w !! l = Some photoId.

Global Instance hasId_dec w photoId l : Decision (hasId w photoId l).
Proof. unfold hasId. apply _. Defined.

(** [photos.find(p => p.id === photoId)] *)
Definition findPhoto (photoId : string) (w : World) : option nat :=
  snd <$> list_find (hasId w photoId) (photos w).

Definition with_splatStatus (s : option SplatStatus) (p : Photo) : Photo :=
  {| id := id p; name := name p; blob := blob p; url := url p;
     timestamp := timestamp p; albumId := albumId p;
     splatUrl := splatUrl p; splatStatus := s |}.

Definition with_splatUrl (u : option string) (p : Photo) : Photo :=
  {| id := id p; name := name p; blob := blob p; url := url p;
     timestamp := timestamp p; albumId := albumId p;
     splatUrl := u; splatStatus := splatStatus p |}.

(** *** Environment *)

Definition dateNow : M World Z := gets now.

Definition mathRandomSuffix (env : Env) : M World string :=
  fun w => (Return (randomSuffix env (randomCalls w)), set_randomCalls S w).

Definition createObjectURL (env : Env) : M World string :=
  fun w => (Return (objectURL env (urlCalls w)), set_urlCalls S w).

(** *** IndexedDB *)

(** [store.put(v)] on a store whose key path is [key]: the record with the
    same key is replaced, a new record goes to its place in key order. *)
Fixpoint dbPut {A} (key : A -> string) (v : A) (store : list A) : list A :=
  match store with
  | [] => [v]
  | x :: rest =>
      match String.compare (key v) (key x) with
      | Eq => v :: rest
      | Lt => v :: x :: rest
      | Gt => x :: dbPut key v rest
      end
  end.

(** The record stored under key [k]. *)
Definition dbGet {A} (key : A -> string) (k : string) (store : list A) : option A :=
  snd <$> list_find (fun x => key x = k) store.

(** [openDB()] and a transaction on it: the body runs when the request
    succeeds, the promise rejects when it ends in [onerror]. *)
Definition transaction {A} (env : Env) (body : M World A) : M World A :=
  fun w =>
    let tk := db env (dbTx w) in
    let w' := set_now (fun t => (t + Z.of_N (dbDelay tk))%Z) (set_dbTx S w) in
    if dbFault tk
    then (Throw {| exnName := "DOMException"; message := "request failed" |}, w')
    else body w'.

Definition photoDataOf (photo : Photo) : PhotoData :=
  {| data_id := id photo;
     data_name := name photo;
     data_blob := blob photo;
     data_timestamp := timestamp photo;
     data_albumId := albumId photo;
     data_splatUrl := splatUrl photo;
     data_splatStatus := splatStatus photo |}.

(** [savePhotoToDB(photo)] *)
Definition savePhotoToDB (env : Env) (photo : nat) : M World unit :=
  transaction env
    (fun w => match heap w !! photo with
              | Some p => (Return tt, set_dbPhotos (dbPut data_id (photoDataOf p)) w)
              | None => (Return tt, w)
              end).

(** [saveAlbumToDB(album)] *)
Definition saveAlbumToDB (env : Env) (album : Album) : M World unit :=
  transaction env (modify (set_dbAlbums (dbPut album_id album))).

Fixpoint mapM {A B} (f : A -> M World B) (l : list A) : M World (list B) :=
  match l with
  | [] => ret []
  | x :: rest => (y <- f x ;; ys <- mapM f rest ;; ret (y :: ys))%js
  end.

(** [{ ...data, url: URL.createObjectURL(data.blob) }] *)
Definition revive (env : Env) (data : PhotoData) : M World nat :=
  (u <- createObjectURL env ;;
   alloc {| id := data_id data; name := data_name data; blob := data_blob data;
            url := u; timestamp := data_timestamp data;
            albumId := data_albumId data; splatUrl := data_splatUrl data;
            splatStatus := data_splatStatus data |})%js.

(** [loadPhotosFromDB(albumId?)]: the records under [albumId] in the index
    when [albumId] is truthy, all records otherwise. *)
Definition loadPhotosFromDB (env : Env) (albumId : option string) : M World (list nat) :=
  transaction env
    (stored <- gets dbPhotos ;;
     let result :=
       if truthy albumId
       then filter (fun d => Some (data_albumId d) = albumId) stored
       else stored in
     mapM (revive env) result)%js.

(** [loadAlbumsFromDB()] *)
Definition loadAlbumsFromDB (env : Env) : M World (list Album) :=
  transaction env (gets dbAlbums).

(** *** The exported functions *)

Definition notifyPhotos : M World unit :=
  fun w => if onPhotosChangedCallback w
           then (Return tt, set_notices (fun n => n ++ [PhotosChanged (photos w)]) w)
           else (Return tt, w).

Definition notifyAlbums : M World unit :=
  fun w => if onAlbumsChangedCallback w
           then (Return tt, set_notices (fun n => n ++ [AlbumsChanged (albums w)]) w)
           else (Return tt, w).

(** [initPhotoService()] *)
Definition initPhotoService (env : Env) : M World (list nat * list Album) :=
  (storedAlbums <- loadAlbumsFromDB env ;;
   modify (set_albums (fun _ => storedAlbums)) ;;;
   current <- gets albums ;;
   (if bool_decide (length current = 0) then
      t <- dateNow ;;
      let defaultAlbum :=
        {| album_id := "default"; album_name := "All Memories"; photoCount := 0;
           coverUrl := None; createdAt := t |} in
      modify (set_albums (fun a => a ++ [defaultAlbum])) ;;;
      saveAlbumToDB env defaultAlbum
    else ret tt) ;;;
   current <- gets albums ;;
   match current with
   | [] => throw (TypeError "Cannot read properties of undefined (reading 'id')")
   | first :: _ =>
       modify (set_currentAlbumId (Some (album_id first))) ;;;
       storedPhotos <- loadPhotosFromDB env (Some (album_id first)) ;;
       modify (set_photos (fun _ => storedPhotos)) ;;;
       ps <- gets photos ;;
       als <- gets albums ;;
       ret (ps, als)
   end)%js.

(** [album-${Date.now()}-${suffix}] and [photo-${Date.now()}-${suffix}] *)
Definition albumIdOf (t : Z) (suffix : string) : string :=
  "album-" +:+ pretty t +:+ "-" +:+ suffix.
Definition photoIdOf (t : Z) (suffix : string) : string :=
  "photo-" +:+ pretty t +:+ "-" +:+ suffix.

(** [createAlbum(name)] *)
Definition createAlbum (env : Env) (name : string) : M World Album :=
  (t <- dateNow ;;
   suffix <- mathRandomSuffix env ;;
   t' <- dateNow ;;
   let album := {| album_id := albumIdOf t suffix; album_name := name; photoCount := 0;
                   coverUrl := None; createdAt := t' |} in
   modify (set_albums (fun a => a ++ [album])) ;;;
   saveAlbumToDB env album ;;;
   notifyAlbums ;;;
   ret album)%js.

(** [switchAlbum(albumId)] *)
Definition switchAlbum (env : Env) (albumId : string) : M World (list nat) :=
  (modify (set_currentAlbumId (Some albumId)) ;;;
   storedPhotos <- loadPhotosFromDB env (Some albumId) ;;
   modify (set_photos (fun _ => storedPhotos)) ;;;
   notifyPhotos ;;;
   gets photos)%js.

(** [file.type.startsWith('image/')] *)
Definition isImage (file : File) : bool := String.prefix "image/" (type (file_blob file)).

(** The [for] loop of [addPhotosFromFiles]; [newPhotos] is the array built
    so far. *)
Fixpoint addLoop (env : Env) (targetAlbumId : string) (files : list File)
    (newPhotos : list nat) : M World (list nat) :=
  match files with
  | [] => ret newPhotos
  | file :: rest =>
      if negb (isImage file) then addLoop env targetAlbumId rest newPhotos
      else
        (t <- dateNow ;;
         suffix <- mathRandomSuffix env ;;
         u <- createObjectURL env ;;
         t' <- dateNow ;;
         photo <- alloc {| id := photoIdOf t suffix;
                           name := file_name file;
                           blob := file_blob file;
                           url := u;
                           timestamp := t';
                           albumId := targetAlbumId;
                           splatUrl := None;
                           splatStatus := Some pending |} ;;
         modify (set_photos (fun ps => ps ++ [photo])) ;;;
         savePhotoToDB env photo ;;;
         addLoop env targetAlbumId rest (newPhotos ++ [photo]))%js
  end.

(** The update of the album's count and cover in [addPhotosFromFiles]. *)
Definition updateAlbumCount (env : Env) (targetAlbumId : string) (newPhotos : list nat)
  : M World unit :=
  (als <- gets albums ;;
   match list_find (fun a => album_id a = targetAlbumId) als with
   | Some (i, album) =>
       h <- gets heap ;;
       let counted :=
         {| album_id := album_id album; album_name := album_name album;
            photoCount := js_plus (photoCount album) (Z.of_nat (length newPhotos));
            coverUrl := coverUrl album; createdAt := createdAt album |} in
       let covered :=
         if negb (truthy (coverUrl counted)) && bool_decide (0 < length newPhotos)
         then {| album_id := album_id counted; album_name := album_name counted;
                 photoCount := photoCount counted;
                 coverUrl := url <$> (head newPhotos ≫= fun l => h !! l);
                 createdAt := createdAt counted |}
         else counted in
       modify (set_albums (fun a => <[i := covered]> a)) ;;;
       saveAlbumToDB env covered
   | None => ret tt
   end)%js.

(** [addPhotosFromFiles(files, albumId?)] *)
Definition addPhotosFromFiles (env : Env) (files : list File) (albumId : option string)
  : M World (list nat) :=
  (current <- gets currentAlbumId ;;
   let targetAlbumId := js_or albumId (js_or current "default") in
   newPhotos <- addLoop env targetAlbumId files [] ;;
   updateAlbumCount env targetAlbumId newPhotos ;;;
   notifyPhotos ;;;
   ret newPhotos)%js.

(** [getPhotos()] *)
Definition getPhotos : M World (list nat) := gets photos.

(** [getPhotoUrls()] *)
Definition getPhotoUrls : M World (list string) :=
  gets (fun w => omap (fun l => url <$> heap w !! l) (photos w)).

(** [getAlbums()] *)
Definition getAlbums : M World (list Album) := gets albums.

(** [getCurrentAlbumId()] *)
Definition getCurrentAlbumId : M World (option string) := gets currentAlbumId.

(** [updatePhotoSplatStatus(photoId, status, splatUrl?)] *)
Definition updatePhotoSplatStatus (env : Env) (photoId : string)
    (status : option SplatStatus) (splatUrl : option string) : M World unit :=
  (found <- gets (findPhoto photoId) ;;
   match found with
   | None => ret tt
   | Some photo =>
       before <- gets (fun w => heap w !! photo ≫= splatStatus) ;;
       mutate photo (with_splatStatus status) ;;;
       modify (set_statusWrites (fun ws =>
         ws ++ [{| written_id := photoId; status_before := before;
                   status_after := status |}])) ;;;
       (if truthy splatUrl
        then mutate photo (with_splatUrl splatUrl)
        else ret tt) ;;;
       savePhotoToDB env photo ;;;
       notifyPhotos
   end)%js.

(** [getPhotoById(photoId)] *)
Definition getPhotoById (photoId : string) : M World (option nat) :=
  gets (findPhoto photoId).

(** [onPhotosChanged(callback)] and [onAlbumsChanged(callback)] *)
Definition onPhotosChanged : M World unit := modify (set_onPhotosChangedCallback true).
Definition onAlbumsChanged : M World unit := modify (set_onAlbumsChangedCallback true).

(** The photo objects behind an array of references. *)
Definition objects (w : World) (refs : list nat) : list Photo :=
  omap (fun l => heap w !! l) refs.

End PhotoService.

(** ** main.ts: [generateSplatsForPhotos] *)
Module App.

Import PhotoService.

(** What the method does to the page and the console. *)
Inductive UiEvent :=
| ShowStatus (text : string) (showSpinner : bool)
| HideStatusAfter (ms : Z)
| AddSplat (photoId plyUrl : string)
| ConsoleLog (text : string)
| ConsoleError (text : string).

(** The [App] object next to the photo store. [generations] counts the
    calls of [sharpService.generateSplatFromBlob]. *)
Record World := mkWorld {
  store : PhotoService.World;
  isGeneratingSplats : bool;
  readySplatsCount : nat;
  ui : list UiEvent;
  generations : nat;
}.

Definition liftStore {A} (c : M PhotoService.World A) : M World A :=
  fun w => match c (store w) with
           | (o, s) => (o, mkWorld s (isGeneratingSplats w) (readySplatsCount w)
                                   (ui w) (generations w))
           end.

Definition show (e : UiEvent) : M World unit :=
  modify (fun w => mkWorld (store w) (isGeneratingSplats w) (readySplatsCount w)
                           (ui w ++ [e]) (generations w)).

Definition setGenerating (b : bool) : M World unit :=
  modify (fun w => mkWorld (store w) b (readySplatsCount w) (ui w) (generations w)).

Definition countReady : M World unit :=
  modify (fun w => mkWorld (store w) (isGeneratingSplats w) (S (readySplatsCount w))
                           (ui w) (generations w)).

(** [await sharpService.generateSplatFromBlob(photo.blob, photo.name, cb)],
    that is [SharpService.submitBlob] followed by
    [SharpService.waitForResult]. The call works on the job tracker and the
    network and leaves the photo store alone; how the [n]-th call ends is
    given by [generation n]. *)
Definition generateSplatFromBlob
    (generation : nat -> Outcome SharpService.SharpResult)
  : M World SharpService.SharpResult :=
  fun w => (generation (generations w),
            mkWorld (store w) (isGeneratingSplats w) (readySplatsCount w) (ui w)
                    (S (generations w))).

Definition dquote : string := String (Ascii.ascii_of_nat 34) EmptyString.

(** The body of the [for] loop of [generateSplatsForPhotos] for the photo
    object at [photo]. [this.canvas.addSplat], whose class is not among these
    sources, is taken to record the splat and return. *)
Definition generateOne (env : Env) (generation : nat -> Outcome SharpService.SharpResult)
    (photo : nat) : M World unit :=
  (obj <- gets (fun w => heap (store w) !! photo) ;;
   match obj with
   | None => ret tt
   | Some p =>
       if bool_decide (splatStatus p ≠ Some pending) then ret tt
       else
         tryCatch
           (liftStore (updatePhotoSplatStatus env (id p) (Some processing) None) ;;;
            show (ShowStatus ("Converting " +:+ dquote +:+ name p +:+ dquote +:+ " to 3D...")
                    true) ;;;
            result <- generateSplatFromBlob generation ;;
            liftStore (updatePhotoSplatStatus env (id p) (Some ready)
                         (Some (SharpService.plyUrl result))) ;;;
            show (ConsoleLog ("[App] Splat ready: " +:+ SharpService.plyUrl result)) ;;;
            show (AddSplat (id p) (SharpService.plyUrl result)) ;;;
            countReady ;;;
            n <- gets readySplatsCount ;;
            show (ConsoleLog ("[App] " +:+ pretty n +:+ " splats ready")))
           (fun err =>
              show (ConsoleError ("[App] Splat generation failed for " +:+ name p +:+ ":")) ;;;
              liftStore (updatePhotoSplatStatus env (id p) (Some failed) None))
   end)%js.

Fixpoint forEach {A} (body : A -> M World unit) (l : list A) : M World unit :=
  match l with
  | [] => ret tt
  | x :: rest => (body x ;;; forEach body rest)%js
  end.

(** [generateSplatsForPhotos(photos)] *)
Definition generateSplatsForPhotos (env : Env)
    (generation : nat -> Outcome SharpService.SharpResult) (photos : list nat)
  : M World unit :=
  (busy <- gets isGeneratingSplats ;;
   if busy then ret tt
   else
     setGenerating true ;;;
     forEach (generateOne env generation) photos ;;;
     setGenerating false ;;;
     show (ShowStatus "All memories converted to 3D!" false) ;;;
     show (HideStatusAfter 3000))%js.

(** The body of the [for] loop of [loadExistingSplats]. As in
    [generateOne], [this.canvas.addSplat] is taken to record the splat and
    return. *)
Definition loadOne (photo : nat) : M World unit :=
  (obj <- gets (fun w => heap (store w) !! photo) ;;
   match obj with
   | None => ret tt
   | Some p =>
       match splatUrl p with
       | Some u =>
           if truthy (Some u) && bool_decide (splatStatus p = Some ready)
           then show (AddSplat (id p) u) ;;; countReady
           else ret tt
       | None => ret tt
       end
   end)%js.

(** [loadExistingSplats()] *)
Definition loadExistingSplats : M World unit :=
  (photos <- liftStore getPhotos ;;
   forEach loadOne photos ;;;
   n <- gets readySplatsCount ;;
   if bool_decide (0 < n)%nat
   then show (ConsoleLog ("[App] " +:+ pretty n +:+ " splats ready"))
   else ret tt)%js.

End App.

(** ** splatViewer.ts *)
Module SplatViewer.

Record SplatInfo := { id : string; photoId : string; plyUrl : string }.

(** A number, as [currentIndex] may hold one: an integer; a finite number
    that is not an integer, which as a double is [m / 2^k] for an odd [m]
    and a positive [k]; [NaN]; or an infinity. The sign of zero is not
    kept: a zero is only ever used as an index, and both zeros are the
    index 0. *)
Inductive Number :=
| Int (z : Z)
| Frac (m : Z) (k : nat)
| NaN
| Infinity (negative : bool).

(** [m / 2^k] in lowest terms. *)
Fixpoint dyadic (m : Z) (k : nat) : Number :=
  match k with
  | O => Int m
  | S k' => if Z.even m then dyadic (m / 2) k' else Frac m k
  end.

(** [m / 2^k] as a double: rounded to 53 significant bits, ties to the even
    significand. *)
Definition rounded (m : Z) (k : nat) : Number :=
  let a := Z.abs m in
  let drop := (Z.log2 a - 52)%Z in
  if (drop <=? 0)%Z then dyadic m k
  else
    let ulp := (2 ^ drop)%Z in
    let q := (a / ulp)%Z in
    let r := (a mod ulp)%Z in
    let q' := if (2 * r <? ulp)%Z then q
              else if (ulp <? 2 * r)%Z then (q + 1)%Z
              else if Z.even q then q else (q + 1)%Z in
    if (Z.of_nat k <=? drop)%Z then Int (Z.sgn m * q' * 2 ^ (drop - Z.of_nat k))
    else dyadic (Z.sgn m * q') (k - Z.to_nat drop).

(** [x + d] for an integer [d]. The integers added in this file are
    indices and lengths of arrays, below 2^32, so that a sum of integers is
    exact; a sum with a fraction is rounded. *)
Definition plus (x : Number) (d : Z) : Number :=
  match x with
  | Int z => Int (z + d)
  | Frac m k => rounded (m + d * 2 ^ Z.of_nat k) k
  | NaN => NaN
  | Infinity negative => Infinity negative
  end.

(** [x % n] for a positive integer [n]: the remainder has the sign of [x],
    and it is exact. *)
Definition remainder (x : Number) (n : Z) : Number :=
  match x with
  | Int z => Int (Z.rem z n)
  | Frac m k => dyadic (Z.rem m (n * 2 ^ Z.of_nat k)) k
  | NaN | Infinity _ => NaN
  end.

(** [Math.min(x, b)] and [Math.max(a, x)] for integers [a] and [b]. *)
Definition mathMin (x : Number) (b : Z) : Number :=
  match x with
  | Int z => Int (Z.min z b)
  | Frac m k => if (m <? b * 2 ^ Z.of_nat k)%Z then dyadic m k else Int b
  | NaN => NaN
  | Infinity true => Infinity true
  | Infinity false => Int b
  end.

Definition mathMax (a : Z) (x : Number) : Number :=
  match x with
  | Int z => Int (Z.max a z)
  | Frac m k => if (a * 2 ^ Z.of_nat k <? m)%Z then dyadic m k else Int a
  | NaN => NaN
  | Infinity true => Int a
  | Infinity false => Infinity false
  end.

(** What the viewer library does in one call of [loadCurrentSplat]:
    whether [new GaussianSplats3D.Viewer(...)] throws, and whether
    [addSplatScene] rejects. *)
Record ViewerTick := { constructorThrows : option Exn; sceneFails : bool }.

(** What the viewer does to the console, the library and the page, in
    order. *)
Inductive Event :=
| Log (text : string)
| Warn (text : string)
| ConsoleError (text : string)
| Dispose
| NewViewer
| AddSplatScene (plyUrl : string)
| Display (shown : bool)
| CounterText (number : Number) (total : nat)
| Closed.

(** The fields of a [SplatViewer]. [viewer] says whether [this.viewer] holds a viewer; [onClose] is [None] for
    [null], and otherwise says what the callback throws, if anything.
    [loads] counts the calls of [loadCurrentSplat] that reach the library. *)
Record World := mkWorld {
  splats : list SplatInfo;
  currentIndex : Number;
  viewer : bool;
  isOpen : bool;
  onClose : option (option Exn);
  loads : nat;
  events : list Event;
}.

Definition emit (e : Event) : M World unit :=
  modify (fun w => mkWorld (splats w) (currentIndex w) (viewer w) (isOpen w) (onClose w)
                           (loads w) (events w ++ [e])).

Definition setCurrentIndex (i : Number) : M World unit :=
  modify (fun w => mkWorld (splats w) i (viewer w) (isOpen w) (onClose w) (loads w) (events w)).

Definition setViewer (b : bool) : M World unit :=
  modify (fun w => mkWorld (splats w) (currentIndex w) b (isOpen w) (onClose w) (loads w)
                           (events w)).

Definition setIsOpen (b : bool) : M World unit :=
  modify (fun w => mkWorld (splats w) (currentIndex w) (viewer w) b (onClose w) (loads w)
                           (events w)).

(** [addSplat(photoId, plyUrl)] *)
Definition addSplat (photoId plyUrl : string) : M World unit :=
  (modify (fun w =>
     mkWorld (splats w ++ [{| id := "splat-" +:+ pretty (length (splats w));
                              photoId := photoId; plyUrl := plyUrl |}])
             (currentIndex w) (viewer w) (isOpen w) (onClose w) (loads w) (events w)) ;;;
   n <- gets (fun w => length (splats w)) ;;
   emit (Log ("[SplatViewer] Added splat for " +:+ photoId +:+ ", total: " +:+ pretty n)))%js.

(** The [if (this.viewer)] block of [close] and [loadCurrentSplat]: what
    [dispose] throws is dropped. *)
Definition disposeViewer : M World unit :=
  (v <- gets viewer ;;
   if v then emit Dispose ;;; setViewer false else ret tt)%js.

(** [this.splats[this.currentIndex]]: an array has elements at integers
    only. *)
Definition currentSplat (w : World) : option SplatInfo :=
  match currentIndex w with
  | Int i => if (0 <=? i)%Z then splats w !! Z.to_nat i else None
  | _ => None
  end.

(** [loadCurrentSplat()] *)
Definition loadCurrentSplat (env : nat -> ViewerTick) : M World unit :=
  (found <- gets currentSplat ;;
   match found with
   | None => ret tt
   | Some splat =>
       disposeViewer ;;;
       emit (Log ("[SplatViewer] Loading: " +:+ plyUrl splat)) ;;;
       k <- gets loads ;;
       modify (fun w => mkWorld (splats w) (currentIndex w) (viewer w) (isOpen w) (onClose w)
                                (S (loads w)) (events w)) ;;;
       match constructorThrows (env k) with
       | Some e => throw e
       | None =>
           emit NewViewer ;;;
           setViewer true ;;;
           tryCatch
             (emit (AddSplatScene (plyUrl splat)) ;;;
              (if sceneFails (env k) then throw (Error "scene failed") else ret tt) ;;;
              emit (Log ("[SplatViewer] Loaded: " +:+ photoId splat)))
             (fun err => emit (ConsoleError "[SplatViewer] Failed to load:"))
       end
   end)%js.

(** [updateCounter()], the counter element being the one [createModal]
    made: its text becomes [`${number} / ${total}`]. *)
Definition updateCounter : M World unit :=
  (i <- gets currentIndex ;;
   n <- gets (fun w => length (splats w)) ;;
   emit (CounterText (plus i 1) n))%js.

(** The argument of [open]: a number or a photo id. *)
Inductive IndexOrPhotoId :=
| ByIndex (index : Number)
| ByPhotoId (photoId : string).

(** [this.splats.findIndex(s => s.photoId === photoId)] *)
Definition findIndex (photoId : string) (w : World) : Z :=
  match list_find (fun s => SplatViewer.photoId s = photoId) (splats w) with
  | Some (i, _) => Z.of_nat i
  | None => -1
  end.

(** [open(indexOrPhotoId)] *)
Definition open (env : nat -> ViewerTick) (indexOrPhotoId : IndexOrPhotoId) : M World unit :=
  (n <- gets (fun w => length (splats w)) ;;
   if bool_decide (n = 0%nat) then emit (Warn "[SplatViewer] No splats to show")
   else
     match indexOrPhotoId with
     | ByPhotoId photoId =>
         idx <- gets (findIndex photoId) ;;
         setCurrentIndex (Int (if (0 <=? idx)%Z then idx else 0))
     | ByIndex index =>
         setCurrentIndex (mathMax 0 (mathMin index (Z.of_nat n - 1)))
     end ;;;
     setIsOpen true ;;;
     emit (Display true) ;;;
     loadCurrentSplat env ;;;
     updateCounter)%js.

(** [close()] *)
Definition close : M World unit :=
  (setIsOpen false ;;;
   emit (Display false) ;;;
   disposeViewer ;;;
   cb <- gets onClose ;;
   match cb with
   | None => ret tt
   | Some outcome =>
       emit Closed ;;;
       match outcome with
       | Some e => throw e
       | None => ret tt
       end
   end)%js.

(** [prev()] *)
Definition prev (env : nat -> ViewerTick) : M World unit :=
  (n <- gets (fun w => length (splats w)) ;;
   if bool_decide (n <= 1)%nat then ret tt
   else
     i <- gets currentIndex ;;
     setCurrentIndex (remainder (plus (plus i (-1)) (Z.of_nat n)) (Z.of_nat n)) ;;;
     loadCurrentSplat env ;;;
     updateCounter)%js.

(** [next()] *)
Definition next (env : nat -> ViewerTick) : M World unit :=
  (n <- gets (fun w => length (splats w)) ;;
   if bool_decide (n <= 1)%nat then ret tt
   else
     i <- gets currentIndex ;;
     setCurrentIndex (remainder (plus i 1) (Z.of_nat n)) ;;;
     loadCurrentSplat env ;;;
     updateCounter)%js.

(** [getSplatCount()] *)
Definition getSplatCount : M World nat := gets (fun w => length (splats w)).

(** [hasSplat(photoId)] *)
Definition hasSplat (photoId : string) : M World bool :=
  gets (fun w => existsb (fun s => bool_decide (SplatViewer.photoId s = photoId)) (splats w)).

End SplatViewer.

(** ** api/sharp/result.js *)
Module ResultApi.

(** A row of the table [sharp_jobs], as far as the handler reads it; a
    column that is null is [None]. *)
Record Job := {
  job_status : string;
  job_ply_url : option string;
  job_filename : option string;
  job_size_bytes : option Z;
}.

(** What [supabase.from('sharp_jobs').select('*').eq('id', id).single()]
    resolves to: [{ data, error }], [error] being truthy or not. *)
Record Reply := { data : option Job; fetchError : bool }.

(** The request, as far as the handler reads it: the method and
    [req.query.request_id], a string when present. *)
Record Request := { method : string; request_id : option string }.

(** The JSON bodies the handler sends; [NoBody] is [res.end()]. The field
    [success], which the kind of body fixes, is left out. *)
Inductive Body :=
| NoBody
| MethodNotAllowed (error : string)
| Required (error : string)
| JobNotFound (error request_id : string)
| NotComplete (error request_id status : string)
| Result (request_id : string) (ply_url filename : option string) (size_bytes : option Z)
| Failure (error : string).

Record Response := { statusCode : Z; body : Body }.

(** What the handler does to the outside, in order. *)
Inductive Event :=
| Select (id : string)
| ConsoleError (text : string).

Record World := { trace : list Event }.

Definition emit (e : Event) : M World unit :=
  modify (fun w => {| trace := trace w ++ [e] |}).

(** The query; [database id] is how it ends for the key [id]. *)
Definition single (database : string -> Outcome Reply) (id : string) : M World Reply :=
  (emit (Select id) ;;;
   match database id with
   | Return reply => ret reply
   | Throw e => throw e
   end)%js.

(** [handler(req, res)]: the response it sends, sending being taken not to
    throw. *)
Definition handler (database : string -> Outcome Reply) (req : Request) : M World Response :=
  if bool_decide (method req = "OPTIONS") then ret {| statusCode := 200; body := NoBody |}
  else if bool_decide (method req ≠ "GET") then
    ret {| statusCode := 405; body := MethodNotAllowed "Method not allowed, use GET" |}
  else
    tryCatch
      (match request_id req with
       | Some (String c s) =>
           let request_id := String c s in
           reply <- single database request_id ;;
           match data reply with
           | Some job =>
               if fetchError reply then
                 ret {| statusCode := 404; body := JobNotFound "Job not found" request_id |}
               else if bool_decide (job_status job ≠ "completed") then
                 ret {| statusCode := 400;
                        body := NotComplete ("Job not complete. Status: " +:+ job_status job)
                                  request_id (job_status job) |}
               else
                 ret {| statusCode := 200;
                        body := Result request_id (job_ply_url job) (job_filename job)
                                  (job_size_bytes job) |}
           | None =>
               ret {| statusCode := 404; body := JobNotFound "Job not found" request_id |}
           end
       | Some EmptyString | None =>
           ret {| statusCode := 400; body := Required "request_id is required" |}
       end)%js
      (fun err =>
         emit (ConsoleError "[Sharp] Result error:") ;;;
         ret {| statusCode := 500;
                body := Failure (js_or (Some (message err)) "Unknown error") |})%js.

(** [response.ok] of the [fetch] that receives the response. *)
Definition okOf (r : Response) : bool := (200 <=? statusCode r)%Z && (statusCode r <=? 299)%Z.

End ResultApi.

(** * The vocabulary of the properties *)

(** [c] moves every world to one related to it by [R], however it ends. *)
Definition preserves {W A} (R : relation W) (c : M W A) : Prop :=
  forall w, R w (c w).2.

Module SharpServiceSpec.
Import SharpService.

(** The status a round observes: the [status] field of a reply that is ok
    and parses. *)
Definition observedStatus (tk : Tick) : option string :=
  match statusReply tk with
  | Some r => if ok r then status <$> json r else None
  | None => None
  end.

(** The round observes a terminal status. *)
Definition terminal (tk : Tick) : Prop :=
  observedStatus tk = Some "completed" \/ observedStatus tk = Some "failed".

(** The delays asked of [sleep], in order. *)
Definition sleeps (tr : list Event) : list Z :=
  omap (fun e => match e with Sleep ms => Some ms | _ => None end) tr.

(** The jobs asked after by the status queries, in order. *)
Definition statusQueries (tr : list Event) : list string :=
  omap (fun e => match e with StatusQuery rid => Some rid | _ => None end) tr.

(** The delays asked of [sleep], each with the attempt it follows: the
    number of status queries made before it, [attempt] of them before the
    first event of [tr]. *)
Fixpoint waitsFrom (attempt : nat) (tr : list Event) : list (nat * Z) :=
  match tr with
  | [] => []
  | StatusQuery _ :: rest => waitsFrom (S attempt) rest
  | Sleep ms :: rest => (attempt, ms) :: waitsFrom attempt rest
  | _ :: rest => waitsFrom attempt rest
  end.

Definition waits : list Event -> list (nat * Z) := waitsFrom 0.

(** How long round [attempt] lasts when it observes no terminal status:
    the status query, then the backoff. *)
Definition roundTime (tk : Tick) (attempt : nat) : Z :=
  Z.of_N (statusDelay tk) + (backoff attempt + Z.of_N (sleepLag tk)).

(** The time the [k] rounds after round [attempt] take when none of them
    observes a terminal status. *)
Fixpoint roundsTime (env : nat -> Tick) (attempt k : nat) : Z :=
  match k with
  | O => 0
  | S k' => roundTime (env (S attempt)) (S attempt) + roundsTime env (S attempt) k'
  end.

Definition clock_le (w w' : World) : Prop := (now w <= now w')%Z.

(** How a run of the loop ended, and where. *)
Definition outcomeOf {A} (r : option (Outcome A * World)) : Outcome A :=
  match r with Some (o, _) => o | None => Throw (Error "out of fuel") end.
Definition worldOf {A} (w : World) (r : option (Outcome A * World)) : World :=
  match r with Some (_, w') => w' | None => w end.

(** ** Scenarios *)

Definition job : Generation :=
  {| requestId := "job"; imageUrl := "blob:cat.jpg"; startTime := 0; photoId := None |}.

(** One job in the tracker, submitted at time 0. *)
Definition tracking : World :=
  {| now := 0; activeGenerations := {[ "job" := job ]}; trace := [] |}.

Definition goodResult : option (Response ResultBody) :=
  Some {| ok := true;
          json := Some {| ply_url := "https://x/y.ply"; result_filename := "y.ply";
                          size_bytes := 12345 |} |}.

(** A backend that answers the status query with [s] after 100 ms. *)
Definition answering (s : string) (e : option string) (result : option (Response ResultBody))
  : Tick :=
  {| statusDelay := 100;
     statusReply := Some {| ok := true; json := Some {| status := s; error := e |} |};
     resultDelay := 50; resultReply := result; sleepLag := 0;
     failure := NetworkError "Failed to fetch" |}.

Definition alwaysPending : nat -> Tick := fun _ => answering "pending" None goodResult.

Definition alwaysFailed : nat -> Tick :=
  fun _ => answering "failed" (Some "out of memory") goodResult.

(** The job is completed, the first result fetch is answered with an error
    status, the later ones with the result. *)
Definition completedFlaky : nat -> Tick := fun n =>
  match n with
  | 1%nat => answering "completed" None (Some {| ok := false; json := None |})
  | _ => answering "completed" None goodResult
  end.

(** The status sequence pending, pending, processing, completed. *)
Definition endToEnd : nat -> Tick := fun n =>
  match n with
  | 1%nat | 2%nat => answering "pending" None goodResult
  | 3%nat => answering "processing" None goodResult
  | _ => answering "completed" None goodResult
  end.

Definition throwingCallback : Callback := fun _ => Some (Error "callback failed").

(** The tracker is as it was, but for the entry of [rid], which may be
    gone. *)
Definition at_most_removed (rid : string) (w w' : World) : Prop :=
  activeGenerations w' = activeGenerations w
  \/ activeGenerations w' = delete rid (activeGenerations w).

(** The trace has only grown. *)
Definition trace_grows (w w' : World) : Prop := trace w `prefix_of` trace w'.

(** Nothing submitted yet. *)
Definition idle : World := {| now := 0; activeGenerations := ∅; trace := [] |}.

(** A backend that accepts a submission as the job [job], and one that
    turns it down. *)
Definition accepting : SubmitTick :=
  {| submitDelay := 30;
     submitReply := Some {| ok := true; json := Some {| request_id := "job" |} |};
     submitText := Some EmptyString;
     submitFailure := NetworkError "Failed to fetch" |}.

Definition rejecting : SubmitTick :=
  {| submitDelay := 30; submitReply := Some {| ok := false; json := None |};
     submitText := Some "quota exceeded";
     submitFailure := ParseError "Unexpected end of JSON input" |}.

End SharpServiceSpec.

Module PhotoServiceSpec.
Import PhotoService.

(** No IndexedDB request ends in [onerror]. *)
Definition reliable (env : Env) : Prop := forall n, dbFault (db env n) = false.

(** The photo [p] after the two assignments of
    [updatePhotoSplatStatus(_, status, u)]. *)
Definition updated (status : option SplatStatus) (u : option string) (p : Photo) : Photo :=
  if truthy u then with_splatUrl u (with_splatStatus status p) else with_splatStatus status p.

(** The object [revive] makes of a stored record. *)
Definition revived (u : string) (data : PhotoData) : Photo :=
  {| id := data_id data; name := data_name data; blob := data_blob data; url := u;
     timestamp := data_timestamp data; albumId := data_albumId data;
     splatUrl := data_splatUrl data; splatStatus := data_splatStatus data |}.

Fixpoint revivedFrom (env : Env) (n : nat) (ds : list PhotoData) : list Photo :=
  match ds with
  | [] => []
  | d :: rest => revived (objectURL env n) d :: revivedFrom env (S n) rest
  end.

(** The photo objects [addLoop] creates for [files], from the clock and the
    counters at its start. *)
Fixpoint accepted (env : Env) (target : string) (t : Z) (tx rc uc : nat)
    (files : list File) : list Photo :=
  match files with
  | [] => []
  | f :: rest =>
      if isImage f then
        {| id := photoIdOf t (randomSuffix env rc); name := file_name f;
           blob := file_blob f; url := objectURL env uc; timestamp := t;
           albumId := target; splatUrl := None; splatStatus := Some pending |}
        :: accepted env target (t + Z.of_N (dbDelay (db env tx))) (S tx) (S rc) (S uc) rest
      else accepted env target t tx rc uc rest
  end.

(** The store after [savePhotoToDB] of each of [new] in turn. *)
Definition putAll (new : list Photo) (stored : list PhotoData) : list PhotoData :=
  foldl (fun st p => dbPut data_id (photoDataOf p) st) stored new.

(** No character of [s] is a hyphen. *)
Fixpoint no_dash (s : string) : Prop :=
  match s with
  | EmptyString => True
  | String c rest => c <> Ascii.ascii_of_nat 45 /\ no_dash rest
  end.

(** ** Scenarios *)

(** A store that answers at once and never fails, a random generator that
    repeats itself, object URLs numbered from 0. *)
Definition steady : Env :=
  {| db := fun _ => {| dbDelay := 0; dbFault := false |};
     randomSuffix := fun _ => "k3f9x2a";
     objectURL := fun n => "blob:" +:+ pretty n |}.

(** The same with a store that takes a millisecond for every request. *)
Definition ticking : Env :=
  {| db := fun _ => {| dbDelay := 1; dbFault := false |};
     randomSuffix := randomSuffix steady;
     objectURL := objectURL steady |}.

Definition jpeg : Blob := {| type := "image/jpeg"; content := [] |}.

Definition cat : Photo :=
  {| id := "photo-1000-k3f9x2a"; name := "cat.jpg"; blob := jpeg; url := "blob:0";
     timestamp := 1000; albumId := "default"; splatUrl := None;
     splatStatus := Some processing |}.

Definition allMemories : Album :=
  {| album_id := "default"; album_name := "All Memories"; photoCount := 1;
     coverUrl := Some "blob:0"; createdAt := 500 |}.

(** One photo, being processed. *)
Definition oneCat : World :=
  mkWorld 2000 [cat] [0%nat] [allMemories] (Some "default") true false []
          [photoDataOf cat] [allMemories] 4 1 1 [].

(** The same photo once its splat is ready. *)
Definition splatCat : Photo :=
  with_splatUrl (Some "https://x/y.ply") (with_splatStatus (Some ready) cat).

Definition readyCat : World :=
  mkWorld 9000 [splatCat] [0%nat] [allMemories] (Some "default") true false []
          [photoDataOf splatCat] [allMemories] 6 1 1 [].

Definition otherAlbumPhoto : PhotoData :=
  {| data_id := "photo-900-zzzzzzz"; data_name := "dog.jpg"; data_blob := jpeg;
     data_timestamp := 900; data_albumId := "album-800-abcdefg";
     data_splatUrl := None; data_splatStatus := Some pending |}.

(** A database without albums that holds two photos, one of them filed under
    [default]; nothing in memory yet. *)
Definition freshInstall : World :=
  mkWorld 1000 [] [] [] None false false [] [photoDataOf cat; otherAlbumPhoto] [] 0 0 0 [].

Definition catFile : File := {| file_name := "cat.jpg"; file_blob := jpeg |}.
Definition notesFile : File :=
  {| file_name := "notes.txt"; file_blob := {| type := "text/plain"; content := [] |} |}.
Definition dogFile : File :=
  {| file_name := "dog.png"; file_blob := {| type := "image/png"; content := [] |} |}.

(** The default album, without photos. *)
Definition emptyAlbum : World :=
  mkWorld 2000 [] [] [{| album_id := "default"; album_name := "All Memories"; photoCount := 0;
                         coverUrl := None; createdAt := 500 |}]
          (Some "default") true false [] []
          [{| album_id := "default"; album_name := "All Memories"; photoCount := 0;
              coverUrl := None; createdAt := 500 |}] 3 0 0 [].

(** What a failed IndexedDB request throws. *)
Definition requestFailed : Exn := {| exnName := "DOMException"; message := "request failed" |}.

(** The records [loadPhotosFromDB(albumId)] reads: those filed under
    [albumId], or all of them when [albumId] is the empty string. *)
Definition selectedBy (albumId : string) (stored : list PhotoData) : list PhotoData :=
  if bool_decide (albumId = EmptyString) then stored
  else filter (fun d => data_albumId d = albumId) stored.

(** The album after [addPhotosFromFiles] has counted [n] new photos, the
    first of which has the object URL [u]. *)
Definition counted (n : nat) (u : string) (album : Album) : Album :=
  {| album_id := album_id album; album_name := album_name album;
     photoCount := js_plus (photoCount album) (Z.of_nat n);
     coverUrl := if truthy (coverUrl album) || bool_decide (n = 0%nat) then coverUrl album
                 else Some u;
     createdAt := createdAt album |}.

(** A store whose every request ends in [onerror]. *)
Definition broken : Env :=
  {| db := fun _ => {| dbDelay := 5; dbFault := true |};
     randomSuffix := randomSuffix steady;
     objectURL := objectURL steady |}.

End PhotoServiceSpec.

Module AppSpec.
Import PhotoService App PhotoServiceSpec.

(** The order of the specification: pending, then processing, then ready or
    failed. *)
Definition forward (before after : option SplatStatus) : Prop :=
  (before = Some pending /\ after = Some processing)
  \/ (before = Some processing /\ (after = Some ready \/ after = Some failed)).

(** The stores agree on which object carries which id. *)
Definition same_ids (s s' : PhotoService.World) : Prop :=
  photos s' = photos s /\ forall l, id <$> heap s' !! l = id <$> heap s !! l.

(** The assignments to [splatStatus] made between two stores all go forward. *)
Definition advanced (s s' : PhotoService.World) : Prop :=
  exists ws, statusWrites s' = statusWrites s ++ ws
             /\ Forall (fun wr => forward (status_before wr) (status_after wr)) ws.

(** The same order, and the step from ready to failed, which the [catch]
    clause of [generateSplatsForPhotos] takes when the ready photo could not
    be persisted. *)
Definition settles (before after : option SplatStatus) : Prop :=
  forward before after \/ (before = Some ready /\ after = Some failed).

Definition settled (s s' : PhotoService.World) : Prop :=
  exists ws, statusWrites s' = statusWrites s ++ ws
             /\ Forall (fun wr => settles (status_before wr) (status_after wr)) ws.

(** The object at [l] is the photo the store finds under that object's id,
    or the store finds no photo under it. *)
Definition ownsId (s : PhotoService.World) (l : nat) : Prop :=
  forall p, heap s !! l = Some p ->
            findPhoto (id p) s = Some l \/ findPhoto (id p) s = None.

(** ** Scenarios *)

Definition dog : Photo :=
  {| id := "photo-1001-b7x2m9q"; name := "dog.png";
     blob := {| type := "image/png"; content := [] |}; url := "blob:1";
     timestamp := 1001; albumId := "default"; splatUrl := None;
     splatStatus := Some pending |}.

(** Two photos just uploaded, both pending. *)
Definition uploaded : World :=
  mkWorld
    (PhotoService.mkWorld 2000 [with_splatStatus (Some pending) cat; dog] [0; 1]%nat
       [allMemories] (Some "default") true false []
       [photoDataOf (with_splatStatus (Some pending) cat); photoDataOf dog]
       [allMemories] 5 2 2 [])
    false 0 [] 0.

(** The store of [steady], except that the transaction numbered [k] fails. *)
Definition failingAt (k : nat) : Env :=
  {| db := fun n => {| dbDelay := 0; dbFault := bool_decide (n = k) |};
     randomSuffix := randomSuffix steady;
     objectURL := objectURL steady |}.

(** The first generation succeeds, the others time out. *)
Definition firstSucceeds : nat -> Outcome SharpService.SharpResult := fun n =>
  match n with
  | 0%nat => Return {| SharpService.plyUrl := "https://x/y.ply";
                       SharpService.filename := "y.ply";
                       SharpService.sizeBytes := 12345 |}
  | _ => Throw (Error "sharp_timeout")
  end.

(** The splats handed to the canvas among the events, in order. *)
Definition addedSplats (evs : list UiEvent) : list (string * string) :=
  omap (fun e => match e with AddSplat p u => Some (p, u) | _ => None end) evs.

(** Between [w] and [w'] the page has gained events, the counter of ready
    splats has grown by the number of splats handed to the canvas, each of
    them after a generation of its own, and the busy flag is as it was. *)
Definition bookkeeping (w w' : World) : Prop :=
  isGeneratingSplats w' = isGeneratingSplats w
  /\ exists evs,
       ui w' = ui w ++ evs
       /\ readySplatsCount w' = (readySplatsCount w + length (addedSplats evs))%nat
       /\ (generations w + length (addedSplats evs) <= generations w')%nat.

(** The splat [loadExistingSplats] finds in a photo. *)
Definition splatOf (p : Photo) : option (string * string) :=
  match splatUrl p with
  | Some u =>
      if truthy (Some u) && bool_decide (splatStatus p = Some ready)
      then Some (id p, u) else None
  | None => None
  end.

(** From [s] to [s'] the ids stay where they are, and a status changes only
    for a pending photo of [batch], to ready or failed. *)
Definition converted (batch : list nat) (s s' : PhotoService.World) : Prop :=
  same_ids s s'
  /\ forall l p, heap s !! l = Some p ->
       exists p', heap s' !! l = Some p'
         /\ (splatStatus p' = splatStatus p
             \/ (l ∈ batch /\ splatStatus p = Some pending
                 /\ (splatStatus p' = Some ready \/ splatStatus p' = Some failed))).

(** The store finds the object at [l] under that object's id. *)
Definition findsItself (s : PhotoService.World) (l : nat) : Prop :=
  forall p, heap s !! l = Some p -> findPhoto (id p) s = Some l.

(** The app with one photo that is being processed. *)
Definition converting : World := mkWorld oneCat false 0 [] 0.

End AppSpec.

Module SplatViewerSpec.
Import SplatViewer.

(** A viewer as its constructor leaves it, with the callback [cb] in
    [onClose]. *)
Definition fresh (cb : option (option Exn)) : World :=
  mkWorld [] (Int 0) false false cb 0 [].

(** A call of one of the viewer's methods. *)
Inductive Call :=
| CallAddSplat (photoId plyUrl : string)
| CallOpen (indexOrPhotoId : IndexOrPhotoId)
| CallClose
| CallPrev
| CallNext.

Definition call (env : nat -> ViewerTick) (c : Call) : M World unit :=
  match c with
  | CallAddSplat photoId plyUrl => addSplat photoId plyUrl
  | CallOpen arg => open env arg
  | CallClose => close
  | CallPrev => prev env
  | CallNext => next env
  end.

(** The viewer after the calls [cs], one after the other, however each of
    them ends. *)
Definition after (env : nat -> ViewerTick) (cs : list Call) (w : World) : World :=
  foldl (fun w c => (call env c w).2) w cs.

(** A call of [open] with a number is given an integer. *)
Definition integral (c : Call) : Prop :=
  match c with
  | CallOpen (ByIndex (Int _)) => True
  | CallOpen (ByIndex _) => False
  | _ => True
  end.

(** The splats are numbered in the order of their arrival. *)
Definition numbered (w : World) : Prop :=
  forall i s, splats w !! i = Some s -> id s = "splat-" +:+ pretty i.

(** The current index is that of a splat, or 0 when there is none; an
    open viewer has a splat to show. *)
Definition wellFormed (w : World) : Prop :=
  (exists i, currentIndex w = Int i
             /\ (0 <= i < Z.max 1 (Z.of_nat (length (splats w))))%Z)
  /\ (isOpen w = true -> splats w <> []).

(** How [open] sets the index. *)
Definition opened (arg : IndexOrPhotoId) (w : World) : Number :=
  match arg with
  | ByPhotoId photoId =>
      Int (if (0 <=? findIndex photoId w)%Z then findIndex photoId w else 0)
  | ByIndex index => mathMax 0 (mathMin index (Z.of_nat (length (splats w)) - 1))
  end.

(** The splats the calls add, in order. *)
Definition added (cs : list Call) : list (string * string) :=
  omap (fun c => match c with CallAddSplat p u => Some (p, u) | _ => None end) cs.

(** [c] leaves everything but the console and the library alone. *)
Definition same_fields (w w' : World) : Prop :=
  splats w' = splats w /\ currentIndex w' = currentIndex w /\ isOpen w' = isOpen w
  /\ onClose w' = onClose w.

(** ** Scenarios *)

Definition working : nat -> ViewerTick :=
  fun _ => {| constructorThrows := None; sceneFails := false |}.

(** Three splats, the viewer closed. *)
Definition gallery : World :=
  after working [CallAddSplat "photo-a" "https://x/a.ply";
                 CallAddSplat "photo-b" "https://x/b.ply";
                 CallAddSplat "photo-a" "https://x/a2.ply"] (fresh None).

(** The third of three splats is shown; [next] wraps around to the first. *)
Definition lastShown : World := (open working (ByIndex (Int 7)) gallery).2.

(** The numbers 1.5 and 2^-60. *)
Definition oneAndAHalf : Number := Frac 3 1.
Definition tiny : Number := Frac 1 60.

End SplatViewerSpec.

Module ResultApiSpec.
Import ResultApi.

(** A table with one finished job. *)
Definition finished : string -> Outcome Reply := fun id =>
  if bool_decide (id = "job")
  then Return {| data := Some {| job_status := "completed";
                                 job_ply_url := Some "https://x/y.ply";
                                 job_filename := Some "y.ply";
                                 job_size_bytes := Some 12345%Z |};
                 fetchError := false |}
  else Return {| data := None; fetchError := true |}.

End ResultApiSpec.

(** * Properties *)

Section Preserves.
Context {W : Type} (R : relation W) `{!PreOrder R}.

Lemma preserves_ret {A} (a : A) : preserves R (ret a).
Proof. intros w. reflexivity. Qed.

Lemma preserves_throw {A} e : preserves R (@throw W A e).
Proof. intros w. reflexivity. Qed.

Lemma preserves_gets {A} (f : W -> A) : preserves R (gets f).
Proof. intros w. reflexivity. Qed.

Lemma preserves_modify (f : W -> W) : (forall w, R w (f w)) -> preserves R (modify f).
Proof. intros H w. apply H. Qed.

Lemma preserves_bind {A B} (c : M W A) (k : A -> M W B) :
  preserves R c -> (forall a, preserves R (k a)) -> preserves R (bind c k).
Proof.
  intros Hc Hk w. unfold bind. specialize (Hc w).
  destruct (c w) as [[a|e] w1]; simpl in *; [|done].
  etrans; [done|]. apply Hk.
Qed.

Lemma preserves_tryCatch {A} (c : M W A) (h : Exn -> M W A) :
  preserves R c -> (forall e, preserves R (h e)) -> preserves R (tryCatch c h).
Proof.
  intros Hc Hh w. unfold tryCatch. specialize (Hc w).
  destruct (c w) as [[a|e] w1]; simpl in *; [done|].
  etrans; [done|]. apply Hh.
Qed.
End Preserves.

(** One step of a proof that a computation preserves a relation, by the shape
    of the computation. *)
Ltac preserve_step :=
  lazymatch goal with
  | |- preserves _ (ret _) => apply preserves_ret; apply _
  | |- preserves _ (throw _) => apply preserves_throw; apply _
  | |- preserves _ (gets _) => apply preserves_gets; apply _
  | |- preserves _ (bind _ _) => apply preserves_bind; [apply _ | |intros ?]
  | |- preserves _ (tryCatch _ _) => apply preserves_tryCatch; [apply _ | |intros ?]
  | |- preserves _ (modify _) => apply preserves_modify; intros ?
  end.

(** ** The poll loop *)
Module SharpServiceProofs.
Import SharpService SharpServiceSpec.

Global Instance clock_le_po : PreOrder clock_le.
Proof. split; unfold clock_le; [intros ?; lia | intros ???; lia]. Qed.

Ltac run_js :=
  unfold pollAttempt, tryBlock, tryCatch, bind, fetch, jsonOf, callProgress, sleep,
    setGenerations, dateNow, emit, elapse, gets, modify, ret, throw.

(** *** The clock *)

Lemma fetch_clock {B} ev d (r : option (Response B)) x :
  preserves clock_le (fetch ev d r x).
Proof.
  unfold fetch, emit, elapse. repeat preserve_step; try (unfold clock_le; simpl; lia).
  destruct r; preserve_step.
Qed.

Lemma tryBlock_clock tk rid cb el : preserves clock_le (tryBlock tk rid cb el).
Proof.
  unfold tryBlock, jsonOf, callProgress, setGenerations, emit.
  repeat first [ apply fetch_clock | preserve_step | case_match ]; unfold clock_le; simpl; lia.
Qed.

Lemma pollAttempt_clock tk rid cb start attempt :
  preserves clock_le (pollAttempt tk rid cb start attempt).
Proof.
  unfold pollAttempt, dateNow, emit.
  repeat first [ apply tryBlock_clock | preserve_step ]; unfold clock_le; simpl; lia.
Qed.

Lemma backoff_S_ge attempt : (1200 <= backoff (S attempt))%Z.
Proof. unfold backoff. lia. Qed.

Lemma sleep_spec lag ms w :
  sleep lag ms w =
    (Return tt, {| now := now w + (ms + Z.of_N lag); activeGenerations := activeGenerations w;
                   trace := trace w ++ [Sleep ms] |}).
Proof. reflexivity. Qed.

(** *** A round never throws *)

(** The [catch] clause absorbs whatever the [try] block throws. *)
Lemma pollAttempt_returns tk rid cb start attempt w :
  exists r, (pollAttempt tk rid cb start attempt w).1 = Return r.
Proof.
  unfold pollAttempt, tryCatch, bind, dateNow, gets, emit, modify, ret. simpl.
  destruct (tryBlock _ _ _ _ _) as [[r|e] w1]; simpl; eauto.
Qed.

(** A round that observes [failed]: the job leaves the tracker, no result is
    fetched, and the error the [try] block throws ends in the [catch]
    clause. *)
Lemma pollAttempt_failed tk rid cb start attempt w b :
  statusReply tk = Some {| ok := true; json := Some b |} ->
  status b = "failed" ->
  pollAttempt tk rid cb start attempt w =
    (Return None,
     {| now := now w + Z.of_N (statusDelay tk);
        activeGenerations := delete rid (activeGenerations w);
        trace := trace w ++
                 [StatusQuery rid;
                  Warn ("[sharpService] Poll " +:+ pretty attempt +:+ " failed, retrying...")] |}).
Proof.
  intros Hr Hs. run_js. rewrite Hr. simpl. rewrite Hs. simpl.
  destruct cb; simpl; by rewrite <- app_assoc.
Qed.

(** A round that observes [completed] and whose result fetch succeeds: one
    result fetch, the job leaves the tracker, the result is returned. *)
Lemma pollAttempt_completed tk rid cb start attempt w b res :
  statusReply tk = Some {| ok := true; json := Some b |} ->
  status b = "completed" ->
  resultReply tk = Some {| ok := true; json := Some res |} ->
  pollAttempt tk rid cb start attempt w =
    (Return (Some {| plyUrl := ply_url res; filename := result_filename res;
                     sizeBytes := size_bytes res |}),
     {| now := now w + Z.of_N (statusDelay tk) + Z.of_N (resultDelay tk);
        activeGenerations := delete rid (activeGenerations w);
        trace := trace w ++ [StatusQuery rid; ResultFetch rid] |}).
Proof.
  intros Hr Hs Hres. run_js. rewrite Hr. simpl. rewrite Hs, Hres. simpl.
  destruct cb; simpl; by rewrite <- app_assoc.
Qed.

(** *** Termination *)

(** The loop reaches its end when every round it may still need has fuel. *)
Lemma pollLoop_total fuel env rid T cb start : forall attempt w,
  (T - (now w - start) <= 1200 * Z.of_nat fuel)%Z ->
  is_Some (pollLoop fuel env rid T cb start attempt w).
Proof.
  induction fuel as [|fuel IH]; intros attempt w Hm; cbn [pollLoop].
  - case_match; [apply Z.ltb_lt in H; lia | eauto].
  - case_match; [|eauto].
    pose proof (pollAttempt_clock (env (S attempt)) rid cb start (S attempt) w) as Hc.
    destruct (pollAttempt_returns (env (S attempt)) rid cb start (S attempt) w) as [r Hr].
    destruct (pollAttempt _ _ _ _ _ _) as [o w1]; simpl in Hr, Hc; subst o.
    destruct r; [eauto|].
    rewrite sleep_spec. apply IH. simpl. unfold clock_le in Hc.
    pose proof (backoff_S_ge attempt). lia.
Qed.

Lemma fuel_bound T fuel :
  (S (Z.to_nat (T / 1200)) <= fuel)%nat -> (T <= 1200 * Z.of_nat fuel)%Z.
Proof.
  intros H. destruct (Z.le_gt_cases 0 T) as [Hpos|Hneg]; [|lia].
  pose proof (Z.mod_pos_bound T 1200 ltac:(lia)).
  pose proof (Z.div_mod T 1200 ltac:(lia)).
  assert (0 <= T / 1200)%Z by (apply Z.div_pos; lia).
  lia.
Qed.

(** [waitForResult] settles: [enoughFuel] rounds suffice for any
    environment. *)
Lemma waitForResult_total fuel env rid T cb w :
  (enoughFuel T <= fuel)%nat -> is_Some (waitForResult fuel env rid T cb w).
Proof.
  intros Hf. unfold waitForResult. apply pollLoop_total.
  apply fuel_bound in Hf. lia.
Qed.

(** The only error the loop raises is the timeout. *)
Lemma pollLoop_throws fuel env rid T cb start : forall attempt w e w',
  pollLoop fuel env rid T cb start attempt w = Some (Throw e, w') ->
  e = Error "sharp_timeout".
Proof.
  induction fuel as [|fuel IH]; intros attempt w e w'; cbn [pollLoop].
  - case_match; congruence.
  - case_match; [|congruence].
    destruct (pollAttempt_returns (env (S attempt)) rid cb start (S attempt) w) as [r Hr].
    destruct (pollAttempt _ _ _ _ _ _) as [o w1]; simpl in Hr; subst o.
    destruct r; [congruence|]. rewrite sleep_spec. apply IH.
Qed.

(** *** What a round leaves in the trace *)

Lemma statusQueries_app tr tr' :
  statusQueries (tr ++ tr') = statusQueries tr ++ statusQueries tr'.
Proof. apply omap_app. Qed.

Lemma sleeps_app tr tr' : sleeps (tr ++ tr') = sleeps tr ++ sleeps tr'.
Proof. apply omap_app. Qed.

(** Events that are neither status queries nor sleeps do not count. *)
Lemma waitsFrom_quiet evs : forall attempt tr,
  statusQueries evs = [] -> sleeps evs = [] ->
  waitsFrom attempt (evs ++ tr) = waitsFrom attempt tr.
Proof.
  induction evs as [|e evs IH]; intros attempt tr Hq Hs; [done|].
  destruct e; try discriminate Hq; try discriminate Hs; cbn [app waitsFrom]; by apply IH.
Qed.

Lemma sleeps_waitsFrom tr : forall attempt, sleeps tr = (waitsFrom attempt tr).*2.
Proof.
  induction tr as [|e tr IH]; intros attempt; [done|].
  destruct e; cbn [waitsFrom]; try apply IH.
  unfold sleeps. cbn [omap list_omap fmap list_fmap snd]. f_equal. apply IH.
Qed.

(** The round is written out: its events after the status query are found
    by unification, and they are neither status queries nor sleeps. *)
Ltac round_done :=
  simpl; intros ?Hc;
  do 3 eexists; split; [reflexivity|]; simpl; rewrite <- ?app_assoc;
  split; [reflexivity|]; split; [reflexivity|]; split; [reflexivity|eassumption].

Ltac quiet_done :=
  simpl; eexists; rewrite <- ?app_assoc; split; [reflexivity|]; split; reflexivity.

(** A round makes one status query, first of all, and asks for no sleep;
    it never throws, and the clock does not go back. *)
Lemma pollAttempt_events tk rid cb start attempt w :
  exists r w1 evs,
    pollAttempt tk rid cb start attempt w = (Return r, w1)
    /\ trace w1 = trace w ++ StatusQuery rid :: evs
    /\ statusQueries evs = [] /\ sleeps evs = []
    /\ (now w <= now w1)%Z.
Proof.
  pose proof (pollAttempt_clock tk rid cb start attempt w) as Hc. unfold clock_le in Hc.
  revert Hc. run_js.
  destruct (statusReply tk) as [[[] [b|]]|]; simpl; try round_done.
  destruct cb as [cb|]; simpl; [destruct (_ || _); simpl; [destruct (cb _); simpl|]|];
    try round_done.
  all: destruct (bool_decide (status b = "completed")); simpl;
    [destruct (resultReply tk) as [[[] [res|]]|]|destruct (bool_decide (status b = "failed"))];
    round_done.
Qed.

(** *** Timeout *)

(** A round that observes no terminal status returns nothing, takes the
    time of its status query and leaves the tracker alone. *)
Lemma pollAttempt_nonterminal tk rid cb start attempt w :
  ~ terminal tk ->
  exists evs,
    pollAttempt tk rid cb start attempt w =
      (Return None,
       {| now := now w + Z.of_N (statusDelay tk); activeGenerations := activeGenerations w;
          trace := trace w ++ StatusQuery rid :: evs |})
    /\ statusQueries evs = [] /\ sleeps evs = [].
Proof.
  unfold terminal, observedStatus. intros Hnt. run_js.
  destruct (statusReply tk) as [[[] [b|]]|]; simpl in *; try quiet_done.
  destruct (bool_decide (status b = "completed")) eqn:Hc.
  { apply bool_decide_eq_true in Hc. rewrite Hc in Hnt. tauto. }
  destruct (bool_decide (status b = "failed")) eqn:Hf.
  { apply bool_decide_eq_true in Hf. rewrite Hf in Hnt. tauto. }
  destruct cb as [cb|]; simpl; [|quiet_done].
  destruct (_ || _); simpl; [|quiet_done].
  destruct (cb _); quiet_done.
Qed.

(** The loop makes exactly the rounds that begin before the budget is up:
    [k] rounds when the budget is not up after fewer and is up after [k]. *)
Lemma pollLoop_timeout env rid T cb start : forall k fuel attempt w,
  (forall n, (attempt < n <= attempt + k)%nat -> ~ terminal (env n)) ->
  (forall j, (j < k)%nat -> (now w - start + roundsTime env attempt j < T)%Z) ->
  (T <= now w - start + roundsTime env attempt k)%Z ->
  (k <= fuel)%nat ->
  exists w' added,
    pollLoop fuel env rid T cb start attempt w = Some (Throw (Error "sharp_timeout"), w')
    /\ activeGenerations w' = activeGenerations w
    /\ now w' = (now w + roundsTime env attempt k)%Z
    /\ trace w' = trace w ++ added
    /\ statusQueries added = replicate k rid.
Proof.
  induction k as [|k IH]; intros fuel attempt w Hnt Hearly Hlate Hfuel.
  - cbn [roundsTime] in Hlate. exists w, [].
    assert ((now w - start <? T)%Z = false) as Hg by (apply Z.ltb_ge; lia).
    destruct fuel; cbn [pollLoop]; rewrite Hg, app_nil_r; cbn [roundsTime];
      (split; [done|]; split; [done|]; split; [lia|]; done).
  - destruct fuel as [|fuel]; [lia|]. cbn [pollLoop].
    pose proof (Hearly 0%nat ltac:(lia)) as H0. cbn [roundsTime] in H0.
    assert ((now w - start <? T)%Z = true) as -> by (apply Z.ltb_lt; lia).
    destruct (pollAttempt_nonterminal (env (S attempt)) rid cb start (S attempt) w)
      as (evs & -> & Hq & Hs); [apply Hnt; lia|].
    rewrite sleep_spec. cbn [now activeGenerations trace].
    match goal with |- context [pollLoop _ _ _ _ _ _ _ ?w2] =>
      destruct (IH fuel (S attempt) w2) as (w' & added & -> & Hg & Hnow & Htr & Hcount) end.
    + intros n Hn. apply Hnt. lia.
    + intros j Hj. specialize (Hearly (S j) ltac:(lia)). cbn [roundsTime] in Hearly.
      unfold roundTime in Hearly. cbn [now]. lia.
    + cbn [roundsTime] in Hlate. unfold roundTime in Hlate. cbn [now]. lia.
    + lia.
    + cbn [now activeGenerations trace] in Hg, Hnow, Htr.
      exists w', (StatusQuery rid :: evs ++ [Sleep (backoff (S attempt))] ++ added).
      split; [done|]. split; [done|]. split.
      { rewrite Hnow. cbn [roundsTime]. unfold roundTime. lia. }
      split.
      { rewrite Htr. rewrite <- !app_assoc. done. }
      change (StatusQuery rid :: evs ++ [Sleep (backoff (S attempt))] ++ added)
        with ([StatusQuery rid] ++ evs ++ [Sleep (backoff (S attempt))] ++ added).
      rewrite !statusQueries_app, Hq, Hcount. done.
Qed.

(** A round lasts 1200 ms or more, so the rounds that begin before the
    budget is up are at most [enoughFuel]. *)
Lemma roundsTime_ge env : forall k attempt, (1200 * Z.of_nat k <= roundsTime env attempt k)%Z.
Proof.
  induction k as [|k IH]; intros attempt; cbn [roundsTime]; [lia|].
  specialize (IH (S attempt)). unfold roundTime.
  pose proof (backoff_S_ge attempt). lia.
Qed.

(** More fuel does not change how a run ends. *)
Lemma pollLoop_fuel_mono fuel env rid T cb start : forall fuel' attempt w r,
  (fuel <= fuel')%nat ->
  pollLoop fuel env rid T cb start attempt w = Some r ->
  pollLoop fuel' env rid T cb start attempt w = Some r.
Proof.
  induction fuel as [|fuel IH]; intros fuel' attempt w r Hle; cbn [pollLoop].
  - case_match; [congruence|]. intros <-. destruct fuel'; cbn [pollLoop]; by rewrite H.
  - destruct fuel' as [|fuel']; [lia|]. cbn [pollLoop].
    case_match; [|done].
    destruct (pollAttempt _ _ _ _ _ _) as [[[r'|]|e] w1]; [done| |done].
    rewrite sleep_spec. apply IH. lia.
Qed.

(** [cleanupStale] drops exactly the entries older than five minutes. *)
Lemma cleanupStale_lookup rid w :
  activeGenerations (cleanupStale w).2 !! rid =
    match activeGenerations w !! rid with
    | Some g => if bool_decide (now w - startTime g > 5 * 60 * 1000)%Z then None else Some g
    | None => None
    end.
Proof.
  unfold cleanupStale, bind, dateNow, gets, setGenerations, modify. simpl.
  rewrite map_lookup_filter. destruct (activeGenerations w !! rid) as [g|]; simpl; [|done].
  case_bool_decide; simpl.
  - rewrite option_guard_False; [done|]. simpl. tauto.
  - rewrite option_guard_True; [done|]. simpl. done.
Qed.

(** C3. The loop polls as long as the time elapsed since the call began is
    below the budget (180000 ms unless given), and stops as soon as it is
    not. Let [k] be the number of rounds that begin before the budget is
    up, a round that observes no terminal status lasting for its status
    query and its backoff. If none of these [k] rounds observes a terminal
    status, whatever the backend would answer later, [waitForResult] makes
    exactly these [k] status queries and then throws the error
    [sharp_timeout], the budget having elapsed; [k] is at most
    [enoughFuel], and any fuel from [k] on gives this run. The tracker is
    as it was before the call, so the job's entry is still there, and what
    removes it is [cleanupStale], once the entry is older than five
    minutes. *)
Theorem waitForResult_timeout fuel env rid T cb w k :
  (forall n, (1 <= n <= k)%nat -> ~ terminal (env n)) ->
  (forall j, (j < k)%nat -> (roundsTime env 0 j < default 180000 T)%Z) ->
  (default 180000 T <= roundsTime env 0 k)%Z ->
  (k <= fuel)%nat ->
  exists w' added,
    waitForResult fuel env rid T cb w = Some (Throw (Error "sharp_timeout"), w')
    /\ trace w' = trace w ++ added
    /\ statusQueries added = replicate k rid
    /\ now w' = (now w + roundsTime env 0 k)%Z
    /\ (default 180000 T <= now w' - now w)%Z
    /\ (k <= enoughFuel T)%nat
    /\ activeGenerations w' = activeGenerations w
    /\ forall g, activeGenerations w !! rid = Some g ->
         activeGenerations w' !! rid = Some g
         /\ activeGenerations (cleanupStale w').2 !! rid =
              if bool_decide (now w' - startTime g > 300000)%Z then None else Some g.
Proof.
  intros Hnt Hearly Hlate Hfuel. unfold waitForResult.
  destruct (pollLoop_timeout env rid (default (3 * 60 * 1000)%Z T) cb (now w) k fuel 0 w)
    as (w' & added & E & Hg & Hnow & Htr & Hq).
  { intros n Hn. apply Hnt. lia. }
  { intros j Hj. specialize (Hearly j Hj). change (3 * 60 * 1000)%Z with 180000%Z. lia. }
  { change (3 * 60 * 1000)%Z with 180000%Z. lia. }
  { done. }
  exists w', added. split; [done|]. split; [done|]. split; [done|]. split; [done|].
  split; [lia|]. split.
  { destruct k as [|k]; [unfold enoughFuel; lia|].
    specialize (Hearly k ltac:(lia)). pose proof (roundsTime_ge env k 0) as Hge.
    unfold enoughFuel. change (3 * 60 * 1000)%Z with 180000%Z.
    assert (Z.of_nat k <= default 180000 T / 1200)%Z; [|lia].
    apply Z.div_le_lower_bound; lia. }
  split; [done|].
  intros g Hlk. rewrite cleanupStale_lookup, Hg, Hlk. done.
Qed.

Lemma waitForResult_timeout_witness :
  exists w' added,
    waitForResult 3 alwaysPending "job" (Some 3000%Z) None tracking
      = Some (Throw (Error "sharp_timeout"), w')
    /\ trace w' = trace tracking ++ added
    /\ statusQueries added = replicate 3 "job"
    /\ now w' = (now tracking + roundsTime alwaysPending 0 3)%Z
    /\ (default 180000 (Some 3000) <= now w' - now tracking)%Z
    /\ (3 <= enoughFuel (Some 3000%Z))%nat
    /\ activeGenerations w' = activeGenerations tracking
    /\ forall g, activeGenerations tracking !! "job" = Some g ->
         activeGenerations w' !! "job" = Some g
         /\ activeGenerations (cleanupStale w').2 !! "job" =
              if bool_decide (now w' - startTime g > 300000)%Z then None else Some g.
Proof.
  apply (waitForResult_timeout 3 alwaysPending "job" (Some 3000%Z) None tracking 3).
  - intros n _ [H|H]; vm_compute in H; discriminate H.
  - intros j Hj. destruct j as [|[|[|j]]]; [reflexivity..|lia].
  - vm_compute. discriminate.
  - lia.
Defined.

(** A backend that would answer [completed] from the fourth query on comes
    too late for a budget of 3000 ms; with a budget of 0 no query is made
    at all; and with a budget of 1300 ms, which the first round uses up to
    the millisecond, there is no second query. *)
Example waitForResult_too_late :
  outcomeOf (waitForResult 9 endToEnd "job" (Some 3000%Z) None tracking)
  = Throw (Error "sharp_timeout")
  /\ waitForResult 9 (fun _ => answering "completed" None goodResult) "job" (Some 0%Z) None
       tracking
     = Some (Throw (Error "sharp_timeout"), tracking)
  /\ waitForResult 9 alwaysPending "job" (Some 1300%Z) None tracking
     = Some (Throw (Error "sharp_timeout"),
             {| now := 1300; activeGenerations := {[ "job" := job ]};
                trace := [StatusQuery "job"; Sleep 1200] |}).
Proof. vm_compute. done. Qed.

(** *** Backoff *)

(** The waits of a run from attempt [attempt] on: every round that does not
    return is followed by its backoff, and by nothing else. *)
Lemma pollLoop_waits fuel env rid T cb start : forall attempt w o w',
  pollLoop fuel env rid T cb start attempt w = Some (o, w') ->
  exists added,
    trace w' = trace w ++ added
    /\ waitsFrom attempt added
       = (fun n => (n, backoff n))
           <$> seq (S attempt)
                 (length (statusQueries added) - if o is Return _ then 1 else 0)
    /\ (if o is Return _ then 1 <= length (statusQueries added) else True)%nat
    /\ (now w + foldr Z.add 0 (sleeps added) <= now w')%Z
    /\ ((now w - start < T)%Z -> (1 <= length (statusQueries added))%nat).
Proof.
  induction fuel as [|fuel IH]; intros attempt w o w'; cbn [pollLoop].
  - destruct (Z.ltb_spec (now w - start) T); [congruence|]. intros [= <- <-].
    exists []. rewrite app_nil_r. cbn. repeat split; lia.
  - destruct (Z.ltb_spec (now w - start) T).
    2:{ intros [= <- <-]. exists []. rewrite app_nil_r. cbn. repeat split; lia. }
    destruct (pollAttempt_events (env (S attempt)) rid cb start (S attempt) w)
      as (r & w1 & evs & -> & Htr & Hq & Hs & Hc).
    destruct r as [r|].
    + intros [= <- <-]. exists (StatusQuery rid :: evs). split; [done|].
      change (StatusQuery rid :: evs) with ([StatusQuery rid] ++ evs).
      rewrite statusQueries_app, sleeps_app, Hq, Hs. cbn [app waitsFrom].
      rewrite <- (app_nil_r evs), waitsFrom_quiet by done. cbn. repeat split; lia.
    + rewrite sleep_spec. intros Hrun. apply IH in Hrun as (added & Htr' & Hw & Hret & Hnow & _).
      cbn [now trace] in Htr', Hnow.
      exists (StatusQuery rid :: evs ++ [Sleep (backoff (S attempt))] ++ added).
      split; [rewrite Htr', Htr, <- !app_assoc; done|].
      change (StatusQuery rid :: evs ++ [Sleep (backoff (S attempt))] ++ added)
        with ([StatusQuery rid] ++ evs ++ [Sleep (backoff (S attempt))] ++ added).
      rewrite !statusQueries_app, !sleeps_app, Hq, Hs. cbn [app waitsFrom].
      rewrite waitsFrom_quiet by done. cbn [app waitsFrom].
      change (statusQueries [StatusQuery rid]) with [rid].
      change (statusQueries [Sleep (backoff (S attempt))]) with (@nil string).
      change (sleeps [StatusQuery rid]) with (@nil Z).
      change (sleeps [Sleep (backoff (S attempt))]) with [backoff (S attempt)].
      cbn [app length foldr]. split.
      { rewrite Hw. destruct o; [|by rewrite !Nat.sub_0_r].
        destruct (length (statusQueries added)) as [|n]; [lia|].
        cbn [Nat.sub]. by rewrite !Nat.sub_0_r. }
      split; [destruct o; lia|]. split; [|lia].
      pose proof (N2Z.is_nonneg (sleepLag (env (S attempt)))). lia.
Qed.

(** C4. In every run of [waitForResult], each attempt that does not return
    is followed by one wait, and there is no other: the waits of the run,
    each with the number of the attempt it follows, are (n, min(5000, 1000 +
    n * 200)) for n = 1, 2, ... up to the last attempt that did not return.
    The first five waits of a run that has as many are 1200, 1400, 1600,
    1800 and 2000 ms. The clock advances by the sum of the waits at least,
    and with a positive budget the loop polls at least once. The delay
    depends on the attempt number alone. *)
Theorem backoff_schedule fuel env rid T cb w o w' :
  waitForResult fuel env rid T cb w = Some (o, w') ->
  exists added,
    trace w' = trace w ++ added
    /\ waits added
       = (fun n => (n, Z.min 5000 (1000 + Z.of_nat n * 200)))
           <$> seq 1 (length (statusQueries added) - if o is Return _ then 1 else 0)
    /\ ((5 <= length (sleeps added))%nat ->
        take 5 (sleeps added) = [1200; 1400; 1600; 1800; 2000]%Z)
    /\ (now w + foldr Z.add 0 (sleeps added) <= now w')%Z
    /\ ((0 < default 180000 T)%Z -> (1 <= length (statusQueries added))%nat).
Proof.
  unfold waitForResult. intros H.
  apply pollLoop_waits in H as (added & Htr & Hw & _ & Hnow & Hpoll).
  exists added. split; [done|]. split; [exact Hw|]. split; [|split; [done|]].
  - rewrite (sleeps_waitsFrom added 0), Hw, <- list_fmap_compose, length_fmap, length_seq.
    intros Hk.
    destruct (length (statusQueries added) - _)%nat as [|[|[|[|[|k]]]]]; [lia..|].
    reflexivity.
  - intros HT. apply Hpoll. change (3 * 60 * 1000)%Z with 180000%Z. lia.
Qed.

Lemma backoff_schedule_witness :
  let run := waitForResult 8 alwaysPending "job" (Some 12000%Z) None tracking in
  exists added,
    trace (worldOf tracking run) = trace tracking ++ added
    /\ waits added
       = (fun n => (n, Z.min 5000 (1000 + Z.of_nat n * 200)))
           <$> seq 1 (length (statusQueries added)
                      - if Throw (A := SharpResult) (Error "sharp_timeout") is Return _
                        then 1 else 0)
    /\ ((5 <= length (sleeps added))%nat ->
        take 5 (sleeps added) = [1200; 1400; 1600; 1800; 2000]%Z)
    /\ (now tracking + foldr Z.add 0 (sleeps added) <= now (worldOf tracking run))%Z
    /\ ((0 < default 180000 (Some 12000))%Z -> (1 <= length (statusQueries added))%nat).
Proof.
  apply (backoff_schedule 8 alwaysPending "job" (Some 12000%Z) None tracking
           (Throw (Error "sharp_timeout"))).
  vm_compute. reflexivity.
Defined.

(** The delays of a run that times out after seven rounds. *)
Example backoff_schedule_run :
  sleeps (trace (worldOf tracking
                   (waitForResult 8 alwaysPending "job" (Some 12000%Z) None tracking)))
  = [1200; 1400; 1600; 1800; 2000; 2200; 2400]%Z.
Proof. vm_compute. reflexivity. Qed.

(** *** Terminal statuses and the catch clause *)

(** C1. A backend that answers every status query with [failed] and the
    error "out of memory": the first round removes the job from the tracker,
    but the error thrown for it is caught by the loop's own [catch] clause;
    the loop polls on and the call ends, after the budget, with
    [sharp_timeout]. *)
Theorem failed_status_not_raised :
  waitForResult (enoughFuel (Some 3000%Z)) alwaysFailed "job" (Some 3000%Z) None tracking =
    Some (Throw (Error "sharp_timeout"),
          {| now := 4500; activeGenerations := ∅;
             trace := [StatusQuery "job"; Warn "[sharpService] Poll 1 failed, retrying...";
                       Sleep 1200;
                       StatusQuery "job"; Warn "[sharpService] Poll 2 failed, retrying...";
                       Sleep 1400;
                       StatusQuery "job"; Warn "[sharpService] Poll 3 failed, retrying...";
                       Sleep 1600] |}).
Proof. vm_compute. reflexivity. Qed.

(** C2. A job that is completed and whose first result fetch is answered
    with an error status: the error thrown for it is caught by the loop's own
    [catch] clause, the loop backs off, queries the status again and fetches
    the result a second time, and the call returns that result. *)
Theorem failed_result_fetch_retried :
  waitForResult (enoughFuel None) completedFlaky "job" None None tracking =
    Some (Return {| plyUrl := "https://x/y.ply"; filename := "y.ply"; sizeBytes := 12345 |},
          {| now := 1500; activeGenerations := ∅;
             trace := [StatusQuery "job"; ResultFetch "job";
                       Warn "[sharpService] Poll 1 failed, retrying...";
                       Sleep 1200;
                       StatusQuery "job"; ResultFetch "job"] |}).
Proof. vm_compute. reflexivity. Qed.

(** C9, as stated, fails: with a progress callback that throws at every
    call, on the status sequence pending, pending, processing, completed the
    callback is invoked and throws, and [waitForResult] returns the result
    all the same. *)
Lemma progress_exception_not_propagated :
  let run := waitForResult (enoughFuel None) endToEnd "job" None (Some throwingCallback)
               tracking in
  throwingCallback "Generating splat... (0s)" = Some (Error "callback failed")
  /\ Progress "Generating splat... (0s)" ∈ trace (worldOf tracking run)
  /\ outcomeOf run =
       Return {| plyUrl := "https://x/y.ply"; filename := "y.ply"; sizeBytes := 12345 |}
  /\ outcomeOf run <> Throw (Error "callback failed").
Proof.
  split; [reflexivity|]. split; [|split].
  - vm_compute. apply list_elem_of_lookup. exists 1%nat. reflexivity.
  - vm_compute. reflexivity.
  - vm_compute. discriminate.
Qed.

(** C9, amended. When the progress callback throws on a pending or
    processing status, the loop's [catch] clause absorbs the exception like
    a failed status query: the round logs the retry warning, leaves the
    tracker alone and goes on to the backoff; no call of [waitForResult] with
    that callback ends by throwing the callback's exception. *)
Theorem progress_exception_absorbed tk rid (cb : Callback) start attempt w b e :
  statusReply tk = Some {| ok := true; json := Some b |} ->
  status b = "pending" \/ status b = "processing" ->
  cb ("Generating splat... (" +:+ pretty (round_div1000 (now w - start)) +:+ "s)") = Some e ->
  pollAttempt tk rid (Some cb) start attempt w =
    (Return None,
     {| now := now w + Z.of_N (statusDelay tk);
        activeGenerations := activeGenerations w;
        trace := trace w ++
                 [StatusQuery rid;
                  Progress ("Generating splat... (" +:+
                            pretty (round_div1000 (now w - start)) +:+ "s)");
                  Warn ("[sharpService] Poll " +:+ pretty attempt +:+ " failed, retrying...")] |})
  /\ (e <> Error "sharp_timeout" ->
      forall fuel env T w0 w',
        waitForResult fuel env rid T (Some cb) w0 <> Some (Throw e, w')).
Proof.
  intros Hr Hs Hcb. split.
  - run_js. rewrite Hr. simpl.
    assert (bool_decide (status b = "pending") || bool_decide (status b = "processing") = true)
      as ->.
    { destruct Hs as [-> | ->]; reflexivity. }
    simpl. rewrite Hcb. simpl. by rewrite <- !app_assoc.
  - intros Hne fuel env T w0 w' Hrun. unfold waitForResult in Hrun.
    by apply pollLoop_throws in Hrun.
Qed.

Lemma progress_exception_absorbed_witness :
  pollAttempt (alwaysPending 1) "job" (Some throwingCallback) 0 1 tracking =
    (Return None,
     {| now := 100; activeGenerations := {[ "job" := job ]};
        trace := [StatusQuery "job"; Progress "Generating splat... (0s)";
                  Warn "[sharpService] Poll 1 failed, retrying..."] |})
  /\ (Error "callback failed" <> Error "sharp_timeout" ->
      forall fuel env T w0 w',
        waitForResult fuel env "job" T (Some throwingCallback) w0
        <> Some (Throw (Error "callback failed"), w')).
Proof.
  apply (progress_exception_absorbed (alwaysPending 1) "job" throwingCallback 0 1 tracking
           {| status := "pending"; error := None |} (Error "callback failed")).
  - reflexivity.
  - left. reflexivity.
  - reflexivity.
Defined.

(** The end-to-end scenario of the poll loop: three progress messages, one
    result fetch, the job gone from the tracker. *)
Example waitForResult_end_to_end :
  waitForResult (enoughFuel None) endToEnd "job" None (Some (fun _ => None)) tracking =
    Some (Return {| plyUrl := "https://x/y.ply"; filename := "y.ply"; sizeBytes := 12345 |},
          {| now := 4650; activeGenerations := ∅;
             trace := [StatusQuery "job"; Progress "Generating splat... (0s)"; Sleep 1200;
                       StatusQuery "job"; Progress "Generating splat... (1s)"; Sleep 1400;
                       StatusQuery "job"; Progress "Generating splat... (3s)"; Sleep 1600;
                       StatusQuery "job"; ResultFetch "job"] |}).
Proof. vm_compute. reflexivity. Qed.

(** ** The rest of sharpService.ts *)

(** *** What a run of the loop leaves behind *)

Global Instance at_most_removed_po rid : PreOrder (at_most_removed rid).
Proof.
  split; unfold at_most_removed.
  - intros w. by left.
  - intros w1 w2 w3 [H1|H1] [H2|H2]; rewrite H2, H1; auto.
    right. by rewrite delete_delete_eq.
Qed.

Global Instance trace_grows_po : PreOrder trace_grows.
Proof.
  split; unfold trace_grows.
  - intros w. reflexivity.
  - intros w1 w2 w3 H1 H2. by etrans.
Qed.

Ltac trace_step :=
  unfold trace_grows; simpl; first [reflexivity | apply prefix_app_r; reflexivity].

Lemma fetch_tracker {B} rid ev d (r : option (Response B)) x :
  preserves (at_most_removed rid) (fetch ev d r x).
Proof.
  unfold fetch, emit, elapse. repeat preserve_step; try (by left).
  destruct r; preserve_step.
Qed.

Lemma pollAttempt_tracker tk rid cb start attempt :
  preserves (at_most_removed rid) (pollAttempt tk rid cb start attempt).
Proof.
  unfold pollAttempt, tryBlock, jsonOf, callProgress, setGenerations, dateNow, emit.
  repeat first [ apply fetch_tracker | preserve_step | case_match ];
    solve [ by left | by right ].
Qed.

Lemma pollLoop_tracker fuel env rid T cb start : forall attempt w o w',
  pollLoop fuel env rid T cb start attempt w = Some (o, w') ->
  at_most_removed rid w w'.
Proof.
  induction fuel as [|fuel IH]; intros attempt w o w'; cbn [pollLoop].
  - case_match; [done|]. intros [= _ <-]. reflexivity.
  - case_match; [|intros [= _ <-]; reflexivity].
    pose proof (pollAttempt_tracker (env (S attempt)) rid cb start (S attempt) w) as Hp.
    destruct (pollAttempt _ _ _ _ _ _) as [[[r|]|e] w1]; simpl in Hp.
    + by intros [= _ <-].
    + rewrite sleep_spec. intros Hl. apply IH in Hl. etrans; [exact Hp|].
      destruct Hl as [Hl|Hl]; [left|right]; exact Hl.
    + by intros [= _ <-].
Qed.

Lemma fetch_trace {B} ev d (r : option (Response B)) x :
  preserves trace_grows (fetch ev d r x).
Proof.
  unfold fetch, emit, elapse. repeat preserve_step; try trace_step.
  destruct r; preserve_step.
Qed.

Lemma pollAttempt_trace tk rid cb start attempt :
  preserves trace_grows (pollAttempt tk rid cb start attempt).
Proof.
  unfold pollAttempt, tryBlock, jsonOf, callProgress, setGenerations, dateNow, emit.
  repeat first [ apply fetch_trace | preserve_step | case_match ]; trace_step.
Qed.

Lemma pollLoop_clock fuel env rid T cb start : forall attempt w o w',
  pollLoop fuel env rid T cb start attempt w = Some (o, w') -> (now w <= now w')%Z.
Proof.
  induction fuel as [|fuel IH]; intros attempt w o w'; cbn [pollLoop].
  - case_match; [done|]. by intros [= _ <-].
  - case_match; [|by intros [= _ <-]].
    pose proof (pollAttempt_clock (env (S attempt)) rid cb start (S attempt) w) as Hp.
    unfold clock_le in Hp.
    destruct (pollAttempt _ _ _ _ _ _) as [[[r|]|e] w1]; simpl in Hp.
    + by intros [= _ <-].
    + rewrite sleep_spec. intros Hl. apply IH in Hl. simpl in Hl.
      pose proof (backoff_S_ge attempt). lia.
    + by intros [= _ <-].
Qed.

(** The loop gives up only once the budget is spent. *)
Lemma pollLoop_throw_late fuel env rid T cb start : forall attempt w e w',
  pollLoop fuel env rid T cb start attempt w = Some (Throw e, w') ->
  (T <= now w' - start)%Z.
Proof.
  induction fuel as [|fuel IH]; intros attempt w e w'; cbn [pollLoop].
  - case_match eqn:E; [done|]. intros [= _ <-]. apply Z.ltb_ge in E. lia.
  - case_match eqn:E; [|intros [= _ <-]; apply Z.ltb_ge in E; lia].
    destruct (pollAttempt_returns (env (S attempt)) rid cb start (S attempt) w) as [r Hr].
    destruct (pollAttempt _ _ _ _ _ _) as [o w1]; simpl in Hr; subst o.
    destruct r; [done|]. rewrite sleep_spec. apply IH.
Qed.

(** A round that returns a result has seen [completed] and fetched the
    result. *)
Lemma pollAttempt_result tk rid cb start attempt w r w' :
  pollAttempt tk rid cb start attempt w = (Return (Some r), w') ->
  exists b res,
    statusReply tk = Some {| ok := true; json := Some b |}
    /\ status b = "completed"
    /\ resultReply tk = Some {| ok := true; json := Some res |}
    /\ r = {| plyUrl := ply_url res; filename := result_filename res;
              sizeBytes := size_bytes res |}
    /\ activeGenerations w' = delete rid (activeGenerations w)
    /\ trace w' = trace w ++ [StatusQuery rid; ResultFetch rid].
Proof.
  run_js.
  destruct (statusReply tk) as [[[] [b|]]|]; simpl; try discriminate.
  destruct (bool_decide (status b = "completed")) eqn:Hc.
  - apply bool_decide_eq_true in Hc.
    assert (bool_decide (status b = "pending") || bool_decide (status b = "processing")
            = false) as Hp by (rewrite Hc; reflexivity).
    destruct cb as [cb|]; simpl; rewrite ?Hp; simpl;
      (destruct (resultReply tk) as [[[] [res|]]|]; simpl; try discriminate;
       intros [= <- <-]; exists b, res; simpl; rewrite <- app_assoc; done).
  - destruct (bool_decide (status b = "failed")); simpl.
    + destruct cb as [cb|]; simpl; [|discriminate].
      destruct (_ || _); simpl; [|discriminate]. destruct (cb _); simpl; discriminate.
    + destruct cb as [cb|]; simpl; [|discriminate].
      destruct (_ || _); simpl; [|discriminate]. destruct (cb _); simpl; discriminate.
Qed.

Lemma pollLoop_result fuel env rid T cb start : forall attempt w r w',
  pollLoop fuel env rid T cb start attempt w = Some (Return r, w') ->
  exists n b res tr,
    (attempt < n <= attempt + fuel)%nat
    /\ statusReply (env n) = Some {| ok := true; json := Some b |}
    /\ status b = "completed"
    /\ resultReply (env n) = Some {| ok := true; json := Some res |}
    /\ r = {| plyUrl := ply_url res; filename := result_filename res;
              sizeBytes := size_bytes res |}
    /\ activeGenerations w' !! rid = None
    /\ trace w' = trace w ++ tr ++ [StatusQuery rid; ResultFetch rid].
Proof.
  induction fuel as [|fuel IH]; intros attempt w r w'; cbn [pollLoop].
  - case_match; discriminate.
  - case_match; [|discriminate].
    destruct (pollAttempt _ _ _ _ _ _) as [[[r1|]|e] w1] eqn:E; [| |discriminate].
    + intros [= <- <-]. apply pollAttempt_result in E as (b & res & ? & ? & ? & ? & Hg & Ht).
      exists (S attempt), b, res, []. repeat split; try done; try lia.
      rewrite Hg. apply lookup_delete_eq.
    + pose proof (pollAttempt_trace (env (S attempt)) rid cb start (S attempt) w) as Hp.
      rewrite E in Hp. destruct Hp as [evs Hp]. simpl in Hp.
      rewrite sleep_spec. intros Hl.
      apply IH in Hl as (n & b & res & tr & ? & ? & ? & ? & ? & ? & Ht).
      exists n, b, res, (evs ++ [Sleep (backoff (S attempt))] ++ tr).
      repeat split; try done; try lia.
      rewrite Ht. simpl. rewrite Hp. by rewrite <- !app_assoc.
Qed.

(** X1. [waitForResult] settles whatever the backend, the timer and the
    callback do: with [enoughFuel] rounds or more the run reaches its end,
    more rounds change nothing, the call returns a result or throws the
    error [sharp_timeout] and nothing else, and the clock has not gone
    back. *)
Theorem waitForResult_settles fuel env rid T cb w :
  (enoughFuel T <= fuel)%nat ->
  exists o w',
    waitForResult fuel env rid T cb w = Some (o, w')
    /\ waitForResult (enoughFuel T) env rid T cb w = Some (o, w')
    /\ ((exists r, o = Return r) \/ o = Throw (Error "sharp_timeout"))
    /\ (now w <= now w')%Z.
Proof.
  intros Hf.
  destruct (waitForResult_total (enoughFuel T) env rid T cb w) as [[o w'] E]; [done|].
  exists o, w'. unfold waitForResult in *.
  split; [by eapply pollLoop_fuel_mono|]. split; [done|]. split.
  - destruct o as [r|e]; [eauto|]. right. f_equal. by eapply pollLoop_throws.
  - by eapply pollLoop_clock.
Qed.

Lemma waitForResult_settles_witness :
  exists o w',
    waitForResult 200 endToEnd "job" None None tracking = Some (o, w')
    /\ waitForResult (enoughFuel None) endToEnd "job" None None tracking = Some (o, w')
    /\ ((exists r, o = Return r) \/ o = Throw (Error "sharp_timeout"))
    /\ (now tracking <= now w')%Z.
Proof.
  apply (waitForResult_settles 200 endToEnd "job" None None tracking).
  vm_compute. lia.
Defined.

(** X2. [waitForResult] never reports a timeout early: when the call
    throws, the error is [sharp_timeout] and at least the budget (180000 ms
    unless given) has passed on the clock since the call began. *)
Theorem timeout_not_early fuel env rid T cb w e w' :
  waitForResult fuel env rid T cb w = Some (Throw e, w') ->
  e = Error "sharp_timeout" /\ (default 180000 T <= now w' - now w)%Z.
Proof.
  unfold waitForResult. intros H. split.
  - by eapply pollLoop_throws.
  - by eapply pollLoop_throw_late.
Qed.

Lemma timeout_not_early_witness :
  let w' := worldOf tracking (waitForResult 3 alwaysPending "job" (Some 3000%Z) None tracking) in
  Error "sharp_timeout" = Error "sharp_timeout"
  /\ (default 180000 (Some 3000) <= now w' - now tracking)%Z.
Proof.
  apply (timeout_not_early 3 alwaysPending "job" (Some 3000%Z) None tracking).
  vm_compute. reflexivity.
Defined.

(** X3. A result that [waitForResult] returns comes from the backend: in
    one of the rounds the status query was answered with [completed] and
    the result fetch with the url, file name and size returned; the job is
    no longer in the tracker, and the status query and the result fetch of
    that round are the last things the call did. *)
Theorem result_comes_from_fetch fuel env rid T cb w r w' :
  waitForResult fuel env rid T cb w = Some (Return r, w') ->
  exists n b res tr,
    (1 <= n <= fuel)%nat
    /\ statusReply (env n) = Some {| ok := true; json := Some b |}
    /\ status b = "completed"
    /\ resultReply (env n) = Some {| ok := true; json := Some res |}
    /\ r = {| plyUrl := ply_url res; filename := result_filename res;
              sizeBytes := size_bytes res |}
    /\ activeGenerations w' !! rid = None
    /\ trace w' = trace w ++ tr ++ [StatusQuery rid; ResultFetch rid].
Proof.
  unfold waitForResult. intros H.
  apply pollLoop_result in H as (n & b & res & tr & ? & ?).
  exists n, b, res, tr. split; [lia|done].
Qed.

Lemma result_comes_from_fetch_witness :
  let run := waitForResult 4 endToEnd "job" None None tracking in
  exists n b res tr,
    (1 <= n <= 4)%nat
    /\ statusReply (endToEnd n) = Some {| ok := true; json := Some b |}
    /\ status b = "completed"
    /\ resultReply (endToEnd n) = Some {| ok := true; json := Some res |}
    /\ {| plyUrl := "https://x/y.ply"; filename := "y.ply"; sizeBytes := 12345 |}
       = {| plyUrl := ply_url res; filename := result_filename res;
            sizeBytes := size_bytes res |}
    /\ activeGenerations (worldOf tracking run) !! "job" = None
    /\ trace (worldOf tracking run) =
         trace tracking ++ tr ++ [StatusQuery "job"; ResultFetch "job"].
Proof.
  apply (result_comes_from_fetch 4 endToEnd "job" None None tracking).
  vm_compute. reflexivity.
Defined.

(** X4. [waitForResult] touches no entry of the tracker but that of its own
    job: after the call the tracker is as before, or as before without the
    entry of [requestId]; the entries of all other jobs are as they
    were. *)
Theorem waitForResult_tracker fuel env rid T cb w o w' :
  waitForResult fuel env rid T cb w = Some (o, w') ->
  (activeGenerations w' = activeGenerations w
   \/ activeGenerations w' = delete rid (activeGenerations w))
  /\ forall k, k <> rid -> activeGenerations w' !! k = activeGenerations w !! k.
Proof.
  unfold waitForResult. intros H. apply pollLoop_tracker in H. split; [exact H|].
  intros k Hk. destruct H as [-> | ->]; [done|]. by apply lookup_delete_ne.
Qed.

Lemma waitForResult_tracker_witness :
  let run := waitForResult 4 alwaysFailed "job" (Some 3000%Z) None tracking in
  (activeGenerations (worldOf tracking run) = activeGenerations tracking
   \/ activeGenerations (worldOf tracking run) = delete "job" (activeGenerations tracking))
  /\ forall k, k <> "job" ->
       activeGenerations (worldOf tracking run) !! k = activeGenerations tracking !! k.
Proof.
  apply (waitForResult_tracker 4 alwaysFailed "job" (Some 3000%Z) None tracking
           (Throw (Error "sharp_timeout"))).
  vm_compute. reflexivity.
Defined.

(** *** Submission *)

Ltac run_submit :=
  intros; run_js; unfold textOf; simpl;
  destruct (submitReply _) as [[[] [?|]]|]; simpl; try done;
  [by rewrite <- app_assoc | destruct (submitText _); done..].

(** How a submission ends, case by case. *)
Lemma submit_spec tk url w :
  submit tk url w =
    let w1 := {| now := now w + Z.of_N (submitDelay tk);
                 activeGenerations := activeGenerations w;
                 trace := trace w ++ [Submit url] |} in
    match submitReply tk with
    | None => (Throw (thrown (submitFailure tk)), w1)
    | Some r =>
        if ok r then
          match json r with
          | None => (Throw (thrown (submitFailure tk)), w1)
          | Some body =>
              (Return (request_id body),
               {| now := now w1;
                  activeGenerations :=
                    <[request_id body :=
                        {| requestId := request_id body; imageUrl := url;
                           startTime := now w1; photoId := None |}]> (activeGenerations w);
                  trace := trace w ++ [Submit url;
                             Log ("[sharpService] Submitted: " +:+ request_id body)] |})
          end
        else
          match submitText tk with
          | Some text => (Throw (Error ("Sharp submit failed: " +:+ text)), w1)
          | None => (Throw (thrown (submitFailure tk)), w1)
          end
    end.
Proof. unfold submit. run_submit. Qed.

Lemma submitBlob_spec tk fn w :
  submitBlob tk fn w =
    let w1 := {| now := now w + Z.of_N (submitDelay tk);
                 activeGenerations := activeGenerations w;
                 trace := trace w ++ [SubmitFile fn] |} in
    match submitReply tk with
    | None => (Throw (thrown (submitFailure tk)), w1)
    | Some r =>
        if ok r then
          match json r with
          | None => (Throw (thrown (submitFailure tk)), w1)
          | Some body =>
              (Return (request_id body),
               {| now := now w1;
                  activeGenerations :=
                    <[request_id body :=
                        {| requestId := request_id body; imageUrl := "blob:" +:+ fn;
                           startTime := now w1; photoId := None |}]> (activeGenerations w);
                  trace := trace w ++ [SubmitFile fn;
                             Log ("[sharpService] Submitted blob: " +:+ request_id body)] |})
          end
        else
          match submitText tk with
          | Some text => (Throw (Error ("Sharp submit failed: " +:+ text)), w1)
          | None => (Throw (thrown (submitFailure tk)), w1)
          end
    end.
Proof. unfold submitBlob. run_submit. Qed.

(** X5. When [submit] returns a request id, the reply was ok and carried
    that id, and the tracker holds under it an entry with the image url,
    the time of the return as start time and no photo id, whatever it held
    under that id before; the other entries are untouched, [getPhotoId]
    finds no photo id for the job, and a [cleanupStale] right away keeps
    the entry. *)
Theorem submit_registers tk url w rid w' :
  submit tk url w = (Return rid, w') ->
  activeGenerations w' !! rid =
    Some {| requestId := rid; imageUrl := url; startTime := now w'; photoId := None |}
  /\ (forall k, k <> rid -> activeGenerations w' !! k = activeGenerations w !! k)
  /\ (getPhotoId rid w').1 = Return None
  /\ activeGenerations (cleanupStale w').2 !! rid = activeGenerations w' !! rid
  /\ exists body, submitReply tk = Some {| ok := true; json := Some body |}
                  /\ request_id body = rid.
Proof.
  rewrite submit_spec. cbv zeta.
  destruct (submitReply tk) as [[[] [body|]]|]; cbn [ok json]; try discriminate;
    try (destruct (submitText tk); discriminate).
  intros [= <- <-]. cbn [now activeGenerations].
  assert (forall g, <[request_id body := g]> (activeGenerations w) !! request_id body = Some g)
    as Hl by (intros g; apply lookup_insert_eq).
  split; [apply Hl|]. split; [intros k Hk; by apply lookup_insert_ne|].
  split.
  { unfold getPhotoId, gets. cbn [fst activeGenerations]. by rewrite Hl. }
  split; [|eauto].
  rewrite cleanupStale_lookup. cbn [now activeGenerations]. rewrite Hl. cbn [startTime].
  case_bool_decide; [lia|done].
Qed.

Lemma submit_registers_witness :
  let w' := (submit accepting "https://x/cat.jpg" idle).2 in
  activeGenerations w' !! "job" =
    Some {| requestId := "job"; imageUrl := "https://x/cat.jpg"; startTime := now w';
            photoId := None |}
  /\ (forall k, k <> "job" -> activeGenerations w' !! k = activeGenerations idle !! k)
  /\ (getPhotoId "job" w').1 = Return None
  /\ activeGenerations (cleanupStale w').2 !! "job" = activeGenerations w' !! "job"
  /\ exists body, submitReply accepting = Some {| ok := true; json := Some body |}
                  /\ request_id body = "job".
Proof.
  apply (submit_registers accepting "https://x/cat.jpg" idle "job"). reflexivity.
Defined.

Lemma thrown_not_timeout x : thrown x <> Error "sharp_timeout".
Proof. by destruct x. Qed.

(** X6. When [submit] throws, nothing has been registered: the tracker is
    as it was and the request is all the call did. For a reply that is not
    ok and whose text can be read it throws the error
    [Sharp submit failed: <text of the reply>]. When that text cannot be
    read, when [fetch] rejects, or when the body of an ok reply is not
    JSON, what the runtime rejected with surfaces as it is. None of these
    is the error [sharp_timeout]. *)
Theorem submit_failure tk url w e w' :
  submit tk url w = (Throw e, w') ->
  activeGenerations w' = activeGenerations w
  /\ trace w' = trace w ++ [Submit url]
  /\ e <> Error "sharp_timeout"
  /\ match submitReply tk with
     | None => e = thrown (submitFailure tk)
     | Some r =>
         if ok r then json r = None /\ e = thrown (submitFailure tk)
         else match submitText tk with
              | Some text => e = Error ("Sharp submit failed: " +:+ text)
              | None => e = thrown (submitFailure tk)
              end
     end.
Proof.
  rewrite submit_spec. cbv zeta. pose proof (thrown_not_timeout (submitFailure tk)) as Hx.
  destruct (submitReply tk) as [[[] [body|]]|]; cbn [ok json]; try discriminate;
    try destruct (submitText tk) as [text|];
    intros [= <- <-]; cbn [activeGenerations trace]; repeat split; done.
Qed.

Lemma submit_failure_witness :
  let w' := (submit rejecting "https://x/cat.jpg" tracking).2 in
  activeGenerations w' = activeGenerations tracking
  /\ trace w' = trace tracking ++ [Submit "https://x/cat.jpg"]
  /\ Error "Sharp submit failed: quota exceeded" <> Error "sharp_timeout"
  /\ match submitReply rejecting with
     | None => Error "Sharp submit failed: quota exceeded" = thrown (submitFailure rejecting)
     | Some r =>
         if ok r then json r = None
                      /\ Error "Sharp submit failed: quota exceeded"
                         = thrown (submitFailure rejecting)
         else match submitText rejecting with
              | Some text =>
                  Error "Sharp submit failed: quota exceeded"
                  = Error ("Sharp submit failed: " +:+ text)
              | None =>
                  Error "Sharp submit failed: quota exceeded"
                  = thrown (submitFailure rejecting)
              end
     end.
Proof.
  apply (submit_failure rejecting "https://x/cat.jpg" tracking). reflexivity.
Defined.

(** A reply that is not ok and whose body cannot be read: what [text()]
    rejects with is what [submit] throws. *)
Example submit_unreadable_reply :
  (submit {| submitDelay := 30; submitReply := Some {| ok := false; json := None |};
             submitText := None; submitFailure := NetworkError "network error" |}
          "https://x/cat.jpg" idle).1
  = Throw (TypeError "network error").
Proof. reflexivity. Qed.

(** *** The tracker *)

(** X7. [setPhotoId] followed by [getPhotoId]: for a job in the tracker the
    photo id set is the photo id read, and the other fields of the entry
    are kept; for a job that is not in the tracker [setPhotoId] changes
    nothing and [getPhotoId] still finds nothing; what [getPhotoId] finds
    for other jobs is not affected, and no entry appears or disappears. *)
Theorem setPhotoId_getPhotoId rid pid w :
  let w' := (setPhotoId rid pid w).2 in
  (forall g, activeGenerations w !! rid = Some g ->
     activeGenerations w' !! rid =
       Some {| requestId := requestId g; imageUrl := imageUrl g; startTime := startTime g;
               photoId := Some pid |}
     /\ (getPhotoId rid w').1 = Return (Some pid))
  /\ (activeGenerations w !! rid = None ->
      w' = w /\ (getPhotoId rid w').1 = Return None)
  /\ (forall k, k <> rid -> (getPhotoId k w').1 = (getPhotoId k w).1)
  /\ dom (activeGenerations w') = dom (activeGenerations w).
Proof.
  unfold setPhotoId, getPhotoId, setGenerations, modify, gets. cbn [fst snd activeGenerations].
  destruct (activeGenerations w !! rid) as [g|] eqn:E.
  - split; [intros g' [= <-]; rewrite lookup_insert_eq; done|].
    split; [done|]. split.
    + intros k Hk. by rewrite lookup_insert_ne.
    + rewrite dom_insert_L. apply elem_of_dom_2 in E.
      apply subseteq_union_1_L. by apply singleton_subseteq_l.
  - split; [done|]. split; [|done].
    intros _. destruct w; simpl in *. by rewrite E.
Qed.

(** X8. [cleanupStale] keeps exactly the entries whose age is at most five
    minutes (an entry of exactly 300000 ms stays); it touches neither the
    clock nor anything outside the tracker, and a second call right after
    the first changes nothing. *)
Theorem cleanupStale_exact w :
  let w' := (cleanupStale w).2 in
  (forall rid g, activeGenerations w' !! rid = Some g <->
                 activeGenerations w !! rid = Some g /\ (now w - startTime g <= 300000)%Z)
  /\ now w' = now w
  /\ trace w' = trace w
  /\ cleanupStale w' = (Return tt, w').
Proof.
  cbv zeta.
  assert (forall rid g, activeGenerations (cleanupStale w).2 !! rid = Some g <->
            activeGenerations w !! rid = Some g /\ (now w - startTime g <= 300000)%Z) as Hl.
  { intros rid g. rewrite cleanupStale_lookup.
    destruct (activeGenerations w !! rid) as [g'|]; [|split; [done|by intros [? _]]].
    case_bool_decide; split.
    - done.
    - intros [[= ->] ?]. lia.
    - intros [= ->]. split; [done|lia].
    - by intros [? _]. }
  split; [exact Hl|]. split; [done|]. split; [done|].
  unfold cleanupStale, bind, dateNow, gets, setGenerations, modify.
  cbn [fst snd now activeGenerations trace].
  f_equal. f_equal. apply map_eq. intros k.
  rewrite !map_lookup_filter.
  destruct (activeGenerations w !! k) as [g|]; simpl; [|done].
  destruct (decide (now w - startTime g > 5 * 60 * 1000)%Z) as [Hd|Hd].
  - rewrite option_guard_False by (simpl; tauto). done.
  - rewrite option_guard_True by (simpl; done). simpl.
    rewrite option_guard_True by (simpl; done). done.
Qed.

(** *** Submission and polling together *)

(** X9. A [generateSplatFromBlob] that returns leaves no entry behind: the
    submission was accepted under some request id, the tracker after the
    call is the tracker before it without the entry of that id, and the
    call began with the upload and its log line and ended with the status
    query and the result fetch for that id. *)
Theorem generateSplatFromBlob_cleans_up fuel tk env fn cb w r w' :
  generateSplatFromBlob fuel tk env fn cb w = Some (Return r, w') ->
  exists body,
    submitReply tk = Some {| ok := true; json := Some body |}
    /\ activeGenerations w' = delete (request_id body) (activeGenerations w)
    /\ exists tr, trace w' =
         trace w ++ [SubmitFile fn; Log ("[sharpService] Submitted blob: " +:+ request_id body)]
           ++ tr ++ [StatusQuery (request_id body); ResultFetch (request_id body)].
Proof.
  unfold generateSplatFromBlob. rewrite submitBlob_spec. cbv zeta.
  destruct (submitReply tk) as [[[] [body|]]|]; cbn [ok json]; try discriminate;
    try (destruct (submitText tk); discriminate).
  intros H. exists body. split; [done|]. unfold waitForResult in H.
  pose proof (pollLoop_tracker _ _ _ _ _ _ _ _ _ _ H) as Hg. unfold at_most_removed in Hg.
  apply pollLoop_result in H as (n & b & res & tr & _ & _ & _ & _ & _ & Hn & Ht).
  cbn [activeGenerations trace] in *. split.
  - destruct Hg as [Hg|Hg].
    + rewrite Hg, lookup_insert_eq in Hn. discriminate.
    + by rewrite Hg, delete_insert_eq.
  - exists tr. rewrite Ht. by rewrite <- !app_assoc.
Qed.

Lemma generateSplatFromBlob_cleans_up_witness :
  let run := generateSplatFromBlob 4 accepting endToEnd "cat.jpg" None idle in
  exists body,
    submitReply accepting = Some {| ok := true; json := Some body |}
    /\ activeGenerations (worldOf idle run) = delete (request_id body) (activeGenerations idle)
    /\ exists tr, trace (worldOf idle run) =
         trace idle ++ [SubmitFile "cat.jpg";
                        Log ("[sharpService] Submitted blob: " +:+ request_id body)]
           ++ tr ++ [StatusQuery (request_id body); ResultFetch (request_id body)].
Proof.
  apply (generateSplatFromBlob_cleans_up 4 accepting endToEnd "cat.jpg" None idle
           {| plyUrl := "https://x/y.ply"; filename := "y.ply"; sizeBytes := 12345 |}).
  vm_compute. reflexivity.
Defined.

(** X10. A [generateSplat] that throws has failed in one of two ways. Either
    the submission was accepted and the polling timed out: the error is
    [sharp_timeout] and 180000 ms or more have passed since the call began.
    Or the submission failed: the error is not [sharp_timeout], no status
    was ever queried (the request is all the call did, however many rounds
    it was given) and the tracker is as it was. *)
Theorem generateSplat_failure fuel tk env url cb w e w' :
  generateSplat fuel tk env url cb w = Some (Throw e, w') ->
  (e = Error "sharp_timeout"
   /\ (180000 <= now w' - now w)%Z
   /\ exists body, submitReply tk = Some {| ok := true; json := Some body |})
  \/ (e <> Error "sharp_timeout"
      /\ (forall body, submitReply tk <> Some {| ok := true; json := Some body |})
      /\ activeGenerations w' = activeGenerations w
      /\ trace w' = trace w ++ [Submit url]).
Proof.
  unfold generateSplat. rewrite submit_spec. cbv zeta.
  pose proof (thrown_not_timeout (submitFailure tk)) as Hx.
  destruct (submitReply tk) as [[[] [body|]]|]; cbn [ok json];
    [|destruct (submitText tk) as [text|]..|];
    try (intros [= <- <-]; right; cbn [activeGenerations trace];
         split; [first [exact Hx | cbn; discriminate]|];
         split; [intros ?; discriminate|done]).
  intros H. left. unfold waitForResult in H.
  pose proof (pollLoop_throw_late _ _ _ _ _ _ _ _ _ _ H) as Hlate.
  apply pollLoop_throws in H as ->. simpl in Hlate. split; [done|]. split; [lia|eauto].
Qed.

Lemma generateSplat_failure_witness :
  let run := generateSplat 0 rejecting alwaysPending "https://x/cat.jpg" None tracking in
  (Error "Sharp submit failed: quota exceeded" = Error "sharp_timeout"
   /\ (180000 <= now (worldOf tracking run) - now tracking)%Z
   /\ exists body, submitReply rejecting = Some {| ok := true; json := Some body |})
  \/ (Error "Sharp submit failed: quota exceeded" <> Error "sharp_timeout"
      /\ (forall body, submitReply rejecting <> Some {| ok := true; json := Some body |})
      /\ activeGenerations (worldOf tracking run) = activeGenerations tracking
      /\ trace (worldOf tracking run) = trace tracking ++ [Submit "https://x/cat.jpg"]).
Proof.
  apply (generateSplat_failure 0 rejecting alwaysPending "https://x/cat.jpg" None tracking).
  reflexivity.
Defined.

(** A submission, three polls and the result: the job comes and goes. *)
Example generateSplatFromBlob_run :
  let run := generateSplatFromBlob 4 accepting endToEnd "cat.jpg" None idle in
  outcomeOf run = Return {| plyUrl := "https://x/y.ply"; filename := "y.ply";
                            sizeBytes := 12345 |}
  /\ activeGenerations (worldOf idle run) = ∅
  /\ sleeps (trace (worldOf idle run)) = [1200; 1400; 1600]%Z.
Proof. vm_compute. done. Qed.

End SharpServiceProofs.

(** ** The photo store *)
Module PhotoServiceProofs.
Import PhotoService PhotoServiceSpec.

(** Field accesses and field updates on worlds that are written out. *)
Ltac fields :=
  cbn [set_now set_heap set_photos set_albums set_currentAlbumId
       set_onPhotosChangedCallback set_onAlbumsChangedCallback set_notices
       set_dbPhotos set_dbAlbums set_dbTx set_randomCalls set_urlCalls set_statusWrites
       heap now photos albums currentAlbumId onPhotosChangedCallback
       onAlbumsChangedCallback notices dbPhotos dbAlbums dbTx randomCalls urlCalls
       statusWrites fst snd] in *.

(** *** IndexedDB *)

Lemma compare_refl_not_Gt k : String.compare k k <> Gt.
Proof.
  intros E. pose proof (String.compare_antisym k k) as E'.
  rewrite E in E'. discriminate E'.
Qed.

Lemma dbGet_dbPut {A} (key : A -> string) (v : A) store :
  dbGet key (key v) (dbPut key v store) = Some v.
Proof.
  unfold dbGet. induction store as [|x rest IH]; simpl.
  - by case_decide.
  - destruct (String.compare (key v) (key x)) eqn:E; simpl.
    + by case_decide.
    + by case_decide.
    + case_decide as Heq.
      * rewrite Heq in E. by destruct (compare_refl_not_Gt (key v)).
      * destruct (list_find _ (dbPut key v rest)) as [[i y]|]; simpl in *; congruence.
Qed.

Lemma dbGet_dbPut_ne {A} (key : A -> string) (v : A) k store :
  key v <> k -> dbGet key k (dbPut key v store) = dbGet key k store.
Proof.
  intros Hne. unfold dbGet. induction store as [|x rest IH]; simpl.
  - by case_decide.
  - destruct (String.compare (key v) (key x)) eqn:E; simpl.
    + apply String.compare_eq_iff in E. repeat case_decide; congruence.
    + repeat case_decide; simpl; try congruence.
      by destruct (list_find _ rest) as [[j z]|].
    + case_decide; [done|].
      destruct (list_find _ (dbPut key v rest)) as [[i y]|],
               (list_find _ rest) as [[j z]|]; simpl in *; congruence.
Qed.

(** *** updatePhotoSplatStatus *)

Lemma findPhoto_Some photoId w l :
  findPhoto photoId w = Some l ->
  l ∈ photos w /\ exists p, heap w !! l = Some p /\ id p = photoId.
Proof.
  unfold findPhoto. destruct (list_find _ _) as [[i l']|] eqn:E; [|done].
  intros [= <-]. apply list_find_Some in E as (Hi & Hid & _).
  split; [by eapply list_elem_of_lookup_2|].
  unfold hasId in Hid. destruct (heap w !! l') as [p|]; simplify_eq/=. eauto.
Qed.

(** What a call on a known id does: both ways it can end, with the world
    written out. *)
Lemma updatePhotoSplatStatus_known env photoId status u w l p :
  findPhoto photoId w = Some l ->
  heap w !! l = Some p ->
  let tk := db env (dbTx w) in
  let heap' := <[l := updated status u p]> (heap w) in
  let writes' := statusWrites w ++ [{| written_id := photoId; status_before := splatStatus p;
                                        status_after := status |}] in
  updatePhotoSplatStatus env photoId status u w =
    if dbFault tk
    then (Throw {| exnName := "DOMException"; message := "request failed" |},
          mkWorld (now w + Z.of_N (dbDelay tk)) heap' (photos w) (albums w) (currentAlbumId w)
            (onPhotosChangedCallback w) (onAlbumsChangedCallback w) (notices w)
            (dbPhotos w) (dbAlbums w) (S (dbTx w)) (randomCalls w) (urlCalls w) writes')
    else (Return tt,
          mkWorld (now w + Z.of_N (dbDelay tk)) heap' (photos w) (albums w) (currentAlbumId w)
            (onPhotosChangedCallback w) (onAlbumsChangedCallback w)
            (notices w ++ if onPhotosChangedCallback w then [PhotosChanged (photos w)] else [])
            (dbPut data_id (photoDataOf (updated status u p)) (dbPhotos w)) (dbAlbums w)
            (S (dbTx w)) (randomCalls w) (urlCalls w) writes').
Proof.
  intros Hf Hp tk heap' writes'. subst tk heap' writes'.
  assert (l < length (heap w))%nat as Hl by (by eapply lookup_lt_Some).
  unfold updatePhotoSplatStatus. unfold bind at 1, gets at 1. rewrite Hf. cbn beta iota.
  destruct w as [t h ps als cur cbp cba ns dbp dba tx rc uc ws]. cbn [heap] in Hp, Hl.
  unfold bind, gets, mutate, modify, savePhotoToDB, transaction, notifyPhotos, ret, updated.
  fields. rewrite Hp. fields.
  destruct (truthy u); fields;
    rewrite ?list_lookup_insert_eq, ?list_insert_insert_eq by (by rewrite ?length_insert);
    destruct (dbFault _); destruct cbp; cbn; rewrite ?app_nil_r; reflexivity.
Qed.

Lemma updatePhotoSplatStatus_unknown env photoId status u w :
  findPhoto photoId w = None ->
  updatePhotoSplatStatus env photoId status u w = (Return tt, w).
Proof.
  intros Hf. unfold updatePhotoSplatStatus, bind, gets, ret. simpl. by rewrite Hf.
Qed.

(** C8, as stated, fails for the empty URL: the guard [if (splatUrl)] takes
    the empty string for an absent argument, and the photo, now ready, keeps
    the [splatUrl] it had (here none). *)
Lemma empty_url_not_stored :
  let r := updatePhotoSplatStatus steady "photo-1000-k3f9x2a" (Some ready)
             (Some EmptyString) oneCat in
  findPhoto "photo-1000-k3f9x2a" oneCat = Some 0%nat
  /\ r.1 = Return tt
  /\ objects r.2 (photos r.2) = [with_splatStatus (Some ready) cat]
  /\ splatUrl <$> heap r.2 !! 0%nat = Some None
  /\ splatUrl <$> heap r.2 !! 0%nat <> Some (Some EmptyString).
Proof. vm_compute. repeat split; discriminate. Qed.

(** C8, amended. For a URL that is not the empty string,
    [updatePhotoSplatStatus(id, 'ready', url)] sets the [splatStatus] of the
    photo found under [id] to ready and its [splatUrl] to the URL, which a
    following [getPhotos] shows; called with an id that no photo in memory
    has, it returns without an error and leaves the world, callbacks'
    notices included, as it was. *)
Theorem updatePhotoSplatStatus_ready env photoId (u : string) w :
  u <> EmptyString ->
  let r := updatePhotoSplatStatus env photoId (Some ready) (Some u) w in
  (forall l, findPhoto photoId w = Some l ->
     exists p p',
       heap w !! l = Some p
       /\ (getPhotos r.2).1 = Return (photos w) /\ l ∈ photos w
       /\ heap r.2 !! l = Some p'
       /\ p' = with_splatUrl (Some u) (with_splatStatus (Some ready) p)
       /\ id p' = photoId /\ splatStatus p' = Some ready /\ splatUrl p' = Some u)
  /\ (findPhoto photoId w = None -> r = (Return tt, w)).
Proof.
  intros Hu r. split.
  - intros l Hf. destruct (findPhoto_Some _ _ _ Hf) as (Hin & p & Hp & Hid).
    exists p, (with_splatUrl (Some u) (with_splatStatus (Some ready) p)).
    pose proof (updatePhotoSplatStatus_known env photoId (Some ready) (Some u) w l p Hf Hp) as E.
    fold r in E. cbv zeta in E.
    assert (updated (Some ready) (Some u) p
            = with_splatUrl (Some u) (with_splatStatus (Some ready) p)) as Eu.
    { unfold updated. destruct u; [done|reflexivity]. }
    rewrite Eu in E.
    assert (l < length (heap w))%nat by (by eapply lookup_lt_Some).
    destruct (dbFault _); rewrite E; fields; rewrite list_lookup_insert_eq by done; done.
  - intros Hf. by apply updatePhotoSplatStatus_unknown.
Qed.

Lemma updatePhotoSplatStatus_ready_witness :
  let r := updatePhotoSplatStatus steady "photo-1000-k3f9x2a" (Some ready)
             (Some "https://x/y.ply") oneCat in
  (forall l, findPhoto "photo-1000-k3f9x2a" oneCat = Some l ->
     exists p p',
       heap oneCat !! l = Some p
       /\ (getPhotos r.2).1 = Return (photos oneCat) /\ l ∈ photos oneCat
       /\ heap r.2 !! l = Some p'
       /\ p' = with_splatUrl (Some "https://x/y.ply") (with_splatStatus (Some ready) p)
       /\ id p' = "photo-1000-k3f9x2a" /\ splatStatus p' = Some ready
       /\ splatUrl p' = Some "https://x/y.ply")
  /\ (findPhoto "photo-1000-k3f9x2a" oneCat = None -> r = (Return tt, oneCat)).
Proof.
  apply (updatePhotoSplatStatus_ready steady "photo-1000-k3f9x2a" "https://x/y.ply" oneCat).
  discriminate.
Defined.

(** C10. A call of [updatePhotoSplatStatus] without a [splatUrl] argument
    on a known id changes, in the photo object, the [splatStatus] field and
    nothing else: the object keeps its [splatUrl], and, the IndexedDB request
    succeeding, the record stored under the id is that of the object so
    changed, with the [splatUrl] it had. *)
Theorem updatePhotoSplatStatus_without_url env photoId status w l p :
  findPhoto photoId w = Some l ->
  heap w !! l = Some p ->
  let r := updatePhotoSplatStatus env photoId status None w in
  heap r.2 = <[l := with_splatStatus status p]> (heap w)
  /\ heap r.2 !! l = Some (with_splatStatus status p)
  /\ splatUrl (with_splatStatus status p) = splatUrl p
  /\ (dbFault (db env (dbTx w)) = false ->
      r.1 = Return tt
      /\ dbGet data_id photoId (dbPhotos r.2) = Some (photoDataOf (with_splatStatus status p))
      /\ data_splatUrl (photoDataOf (with_splatStatus status p)) = splatUrl p).
Proof.
  intros Hf Hp r.
  pose proof (updatePhotoSplatStatus_known env photoId status None w l p Hf Hp) as E.
  fold r in E. cbv zeta in E. unfold updated in E. cbn [truthy] in E.
  assert (l < length (heap w))%nat by (by eapply lookup_lt_Some).
  destruct (findPhoto_Some _ _ _ Hf) as (_ & p0 & Hp0 & Hid).
  assert (p0 = p) as -> by congruence.
  destruct (dbFault _) eqn:Efault; rewrite E; fields;
    rewrite list_lookup_insert_eq by done; (repeat split; try done).
  rewrite <- Hid. apply (dbGet_dbPut data_id (photoDataOf (with_splatStatus status p))).
Qed.

Lemma updatePhotoSplatStatus_without_url_witness :
  let r := updatePhotoSplatStatus steady "photo-1000-k3f9x2a" (Some failed) None readyCat in
  heap r.2 = <[0%nat := with_splatStatus (Some failed) splatCat]> (heap readyCat)
  /\ heap r.2 !! 0%nat = Some (with_splatStatus (Some failed) splatCat)
  /\ splatUrl (with_splatStatus (Some failed) splatCat) = splatUrl splatCat
  /\ (dbFault (db steady (dbTx readyCat)) = false ->
      r.1 = Return tt
      /\ dbGet data_id "photo-1000-k3f9x2a" (dbPhotos r.2)
         = Some (photoDataOf (with_splatStatus (Some failed) splatCat))
      /\ data_splatUrl (photoDataOf (with_splatStatus (Some failed) splatCat))
         = splatUrl splatCat).
Proof.
  apply (updatePhotoSplatStatus_without_url steady "photo-1000-k3f9x2a" (Some failed)
           readyCat 0%nat splatCat); reflexivity.
Defined.

(** The photo whose splat is ready is marked failed without a url: the url
    of the splat stays, in memory and in the database. *)
Example updatePhotoSplatStatus_keeps_url :
  let r := updatePhotoSplatStatus steady "photo-1000-k3f9x2a" (Some failed) None readyCat in
  (fun p => (splatStatus p, splatUrl p)) <$> objects r.2 (photos r.2)
  = [(Some failed, Some "https://x/y.ply")]
  /\ (fun d => (data_splatStatus d, data_splatUrl d)) <$> dbPhotos r.2
     = [(Some failed, Some "https://x/y.ply")].
Proof. vm_compute. done. Qed.

(** C5, as stated, fails: [updatePhotoSplatStatus] assigns the status it is
    given whatever the photo's status is; called with pending on a photo
    that is ready it takes the photo back to pending, in memory and in the
    database. *)
Lemma backward_transition_applied :
  let r := updatePhotoSplatStatus steady "photo-1000-k3f9x2a" (Some pending) None readyCat in
  splatStatus <$> objects readyCat (photos readyCat) = [Some ready]
  /\ r.1 = Return tt
  /\ splatStatus <$> objects r.2 (photos r.2) = [Some pending]
  /\ data_splatStatus <$> dbPhotos r.2 = [Some pending]
  /\ statusWrites r.2 = [{| written_id := "photo-1000-k3f9x2a";
                            status_before := Some ready; status_after := Some pending |}].
Proof. vm_compute. repeat split. Qed.

(** *** initPhotoService *)

Lemma mapM_revive env ds : forall w,
  mapM (revive env) ds w =
    (Return (seq (length (heap w)) (length ds)),
     set_urlCalls (fun n => (n + length ds)%nat)
       (set_heap (fun h => h ++ revivedFrom env (urlCalls w) ds) w)).
Proof.
  induction ds as [|d ds IH]; intros w.
  - cbn [mapM]. unfold ret. f_equal. destruct w; fields. cbn [revivedFrom length].
    by rewrite app_nil_r, Nat.add_0_r.
  - cbn [mapM]. unfold bind at 1. unfold revive at 1. unfold bind, createObjectURL, alloc.
    destruct w as [t h ps als cur cbp cba ns dbp dba tx rc uc ws]. fields.
    rewrite IH. unfold ret. fields. rewrite length_app. cbn [length revivedFrom seq].
    rewrite Nat.add_1_r. f_equal.
    rewrite <- app_assoc. cbn [app]. by rewrite Nat.add_succ_r.
Qed.

Lemma photoDataOf_revivedFrom env n ds : photoDataOf <$> revivedFrom env n ds = ds.
Proof.
  revert n. induction ds as [|[] ds IH]; intros n; simpl; [done|].
  by rewrite IH.
Qed.

Lemma length_revivedFrom env n ds : length (revivedFrom env n ds) = length ds.
Proof. revert n. induction ds as [|d ds IH]; intros n; simpl; [done|]. by rewrite IH. Qed.

(** The references handed out for newly made objects lead to these objects. *)
Lemma omap_lookup_seq {A} (h new : list A) :
  omap (fun l => (h ++ new) !! l) (seq (length h) (length new)) = new.
Proof.
  revert h. induction new as [|x new IH]; intros h; simpl; [done|].
  rewrite lookup_app_r by lia. rewrite Nat.sub_diag. simpl.
  specialize (IH (h ++ [x])). rewrite length_app in IH. simpl in IH.
  rewrite Nat.add_1_r, <- app_assoc in IH. simpl in IH. f_equal. exact IH.
Qed.

Lemma omap_lookup_seq_len {A} (h new : list A) n :
  length new = n -> omap (fun l => (h ++ new) !! l) (seq (length h) n) = new.
Proof. intros <-. apply omap_lookup_seq. Qed.

(** C7. On a database without albums, and no IndexedDB request failing,
    [initPhotoService] returns with exactly one album in memory and exactly
    one in the database, the default album with [photoCount] 0; that album
    is the current one, and the photos in memory are the stored photos filed
    under it and no others. *)
Theorem initPhotoService_empty_store env w :
  dbAlbums w = [] ->
  reliable env ->
  let r := initPhotoService env w in
  let defaultAlbum :=
    {| album_id := "default"; album_name := "All Memories"; photoCount := 0;
       coverUrl := None; createdAt := now w + Z.of_N (dbDelay (db env (dbTx w))) |} in
  r.1 = Return (photos r.2, [defaultAlbum])
  /\ albums r.2 = [defaultAlbum]
  /\ dbAlbums r.2 = [defaultAlbum]
  /\ currentAlbumId r.2 = Some "default"
  /\ photoDataOf <$> objects r.2 (photos r.2)
     = filter (fun d => data_albumId d = "default") (dbPhotos w)
  /\ dbPhotos r.2 = dbPhotos w.
Proof.
  intros Hempty Hrel r defaultAlbum. subst r defaultAlbum.
  destruct w as [t h ps als cur cbp cba ns dbp dba tx rc uc ws]. simpl in Hempty. subst dba.
  unfold initPhotoService, loadAlbumsFromDB, saveAlbumToDB, loadPhotosFromDB, transaction,
    dateNow, bind, gets, modify, ret.
  fields. rewrite Hrel. fields.
  change (bool_decide (length (@nil Album) = 0%nat)) with true. fields.
  rewrite Hrel. fields. cbn [app]. fields. rewrite Hrel. cbn [truthy]. fields.
  rewrite mapM_revive. cbn [album_id truthy dbPut]. fields.
  repeat split.
  unfold objects. fields. rewrite omap_lookup_seq_len by apply length_revivedFrom.
  rewrite photoDataOf_revivedFrom.
  apply list_filter_iff. intros d. split; congruence.
Qed.

Lemma initPhotoService_empty_store_witness :
  let r := initPhotoService steady freshInstall in
  let defaultAlbum :=
    {| album_id := "default"; album_name := "All Memories"; photoCount := 0;
       coverUrl := None;
       createdAt := now freshInstall + Z.of_N (dbDelay (db steady (dbTx freshInstall))) |} in
  r.1 = Return (photos r.2, [defaultAlbum])
  /\ albums r.2 = [defaultAlbum]
  /\ dbAlbums r.2 = [defaultAlbum]
  /\ currentAlbumId r.2 = Some "default"
  /\ photoDataOf <$> objects r.2 (photos r.2)
     = filter (fun d => data_albumId d = "default") (dbPhotos freshInstall)
  /\ dbPhotos r.2 = dbPhotos freshInstall.
Proof.
  apply (initPhotoService_empty_store steady freshInstall).
  - reflexivity.
  - intros n. reflexivity.
Defined.

(** Of the two stored photos the one filed under [default] is loaded. *)
Example initPhotoService_run :
  name <$> objects (initPhotoService steady freshInstall).2
             (photos (initPhotoService steady freshInstall).2) = ["cat.jpg"].
Proof. vm_compute. reflexivity. Qed.

(** *** Identifiers *)

Lemma pretty_N_char_no_dash x : pretty_N_char x <> Ascii.ascii_of_nat 45.
Proof. unfold pretty_N_char. by repeat case_match. Qed.

Lemma pretty_N_go_no_dash x : forall s, no_dash s -> no_dash (pretty_N_go x s).
Proof.
  induction (N.lt_wf_0 x) as [x _ IH]; intros s Hs.
  assert (x = 0 \/ 0 < x)%N as [->|Hx] by lia.
  - by rewrite pretty_N_go_0.
  - rewrite pretty_N_go_step by done. apply IH.
    + by apply N.div_lt.
    + split; [apply pretty_N_char_no_dash | done].
Qed.

Lemma pretty_Z_no_dash (t : Z) : (0 <= t)%Z -> no_dash (pretty t).
Proof.
  destruct t as [|x|x]; intros Ht; [by compute | | lia].
  unfold pretty, pretty_Z, pretty, pretty_positive, pretty, pretty_N.
  case_decide; [done|]. by apply pretty_N_go_no_dash.
Qed.

(** Two strings that agree and whose parts before the first hyphen are given
    agree part by part. *)
Lemma split_at_dash s : forall s' r r',
  no_dash s -> no_dash s' ->
  s +:+ String (Ascii.ascii_of_nat 45) r = s' +:+ String (Ascii.ascii_of_nat 45) r' ->
  s = s' /\ r = r'.
Proof.
  induction s as [|c s IH]; intros [|c' s'] r r' Hs Hs'; simpl in *.
  - intros [= ->]. done.
  - intros [= <- _]. tauto.
  - intros [= -> _]. tauto.
  - intros [= -> H]. destruct Hs as [_ Hs], Hs' as [_ Hs'].
    destruct (IH s' r r' Hs Hs' H) as [-> ->]. done.
Qed.

(** An id determines the clock reading and the suffix it was made of. *)
Lemma photoIdOf_inj t r t' r' :
  (0 <= t)%Z -> (0 <= t')%Z -> photoIdOf t r = photoIdOf t' r' -> t = t' /\ r = r'.
Proof.
  intros Ht Ht'. unfold photoIdOf. intros H.
  apply (inj (String.app "photo-")) in H.
  apply split_at_dash in H as [H1 H2]; [|by apply pretty_Z_no_dash..].
  split; [|done]. by apply (inj pretty).
Qed.

(** *** addPhotosFromFiles *)

Lemma addLoop_spec env target files :
  reliable env ->
  forall acc w,
  let new := accepted env target (now w) (dbTx w) (randomCalls w) (urlCalls w) files in
  exists t' tx' rc' uc',
    addLoop env target files acc w =
      (Return (acc ++ seq (length (heap w)) (length new)),
       mkWorld t' (heap w ++ new) (photos w ++ seq (length (heap w)) (length new))
         (albums w) (currentAlbumId w) (onPhotosChangedCallback w)
         (onAlbumsChangedCallback w) (notices w) (putAll new (dbPhotos w)) (dbAlbums w)
         tx' rc' uc' (statusWrites w)).
Proof.
  intros Hrel. induction files as [|f files IH]; intros acc w; cbn [addLoop accepted].
  - destruct w. unfold ret. cbn. rewrite !app_nil_r. eauto 10.
  - destruct (isImage f) eqn:Himg; cbn [negb]; [|apply IH].
    destruct w as [t h ps als cur cbp cba ns dbp dba tx rc uc ws].
    unfold bind, dateNow, gets, mathRandomSuffix, createObjectURL, alloc, modify,
      savePhotoToDB, transaction.
    fields. rewrite Hrel.
    rewrite lookup_app_r by lia. rewrite Nat.sub_diag. cbn [lookup list_lookup]. fields.
    match goal with |- context [addLoop _ _ _ _ ?w1] => specialize (IH (acc ++ [length h]) w1) end.
    cbv zeta in IH. fields. destruct IH as (t' & tx' & rc' & uc' & ->).
    exists t', tx', rc', uc'. cbn [length putAll foldl]. f_equal.
    + f_equal. rewrite <- app_assoc. cbn [app seq]. rewrite length_app. cbn [length].
      by rewrite Nat.add_1_r.
    + rewrite <- !app_assoc. cbn [app seq]. rewrite length_app. cbn [length].
      by rewrite Nat.add_1_r.
Qed.

Lemma accepted_files env target files : forall t tx rc uc,
  (fun p => (name p, blob p)) <$> accepted env target t tx rc uc files
  = (fun f => (file_name f, file_blob f)) <$> List.filter isImage files.
Proof.
  induction files as [|f files IH]; intros t tx rc uc; simpl; [done|].
  destruct (isImage f); simpl; [|apply IH]. by rewrite IH.
Qed.

Lemma accepted_fields env target files : forall t tx rc uc,
  Forall (fun p => splatStatus p = Some pending /\ albumId p = target /\ splatUrl p = None
                   /\ exists t' i, (t <= t')%Z /\ id p = photoIdOf t' (randomSuffix env i))
         (accepted env target t tx rc uc files).
Proof.
  induction files as [|f files IH]; intros t tx rc uc; cbn [accepted]; [constructor|].
  destruct (isImage f); [|apply IH]. constructor.
  - repeat split; try done. exists t, rc. split; [lia|done].
  - eapply Forall_impl; [apply IH|]. cbv beta.
    intros p (? & ? & ? & t' & i & Ht & ?). repeat split; try done.
    exists t', i. split; [lia|done].
Qed.

(** [savePhotoToDB] of each new photo in turn leaves the records under
    other ids alone. *)
Lemma putAll_other new : forall stored k,
  k ∉ id <$> new -> dbGet data_id k (putAll new stored) = dbGet data_id k stored.
Proof.
  induction new as [|p new IH]; intros stored k Hk; [done|].
  cbn [fmap list_fmap] in Hk. apply not_elem_of_cons in Hk as [Hne Hk].
  cbn [putAll foldl]. fold (putAll new (dbPut data_id (photoDataOf p) stored)).
  rewrite IH by done. by apply dbGet_dbPut_ne.
Qed.

(** The record under an id is that of the last new photo with the id. *)
Lemma putAll_last new : forall stored i p,
  new !! i = Some p ->
  (forall j q, (i < j)%nat -> new !! j = Some q -> id q <> id p) ->
  dbGet data_id (id p) (putAll new stored) = Some (photoDataOf p).
Proof.
  induction new as [|p0 new IH]; intros stored i p Hi Hlast; [done|].
  cbn [putAll foldl]. fold (putAll new (dbPut data_id (photoDataOf p0) stored)).
  destruct i as [|i]; cbn [lookup list_lookup] in Hi.
  - injection Hi as ->. rewrite putAll_other.
    + apply (dbGet_dbPut data_id (photoDataOf p)).
    + intros Hin. apply list_elem_of_fmap in Hin as (q & Hq & Hin).
      apply list_elem_of_lookup in Hin as (j & Hj).
      by apply (Hlast (S j) q ltac:(lia)).
  - apply (IH _ i); [done|]. intros j q Hj Hq. apply (Hlast (S j) q); [lia|done].
Qed.

(** Every new photo has a last photo with its id. *)
Lemma last_with_id (new : list Photo) : forall i p,
  new !! i = Some p ->
  exists j q, (i <= j)%nat /\ new !! j = Some q /\ id q = id p
              /\ forall j' q', (j < j')%nat -> new !! j' = Some q' -> id q' <> id p.
Proof.
  induction new as [|x l IH] using rev_ind; intros i p Hi; [done|].
  destruct (decide (id x = id p)) as [Hx|Hx].
  - exists (length l), x. pose proof (lookup_lt_Some _ _ _ Hi) as Hlt.
    rewrite length_app in Hlt. cbn [length] in Hlt.
    split; [lia|]. split; [by rewrite lookup_app_r, Nat.sub_diag by lia|]. split; [done|].
    intros j' q' Hj' Hq'. apply lookup_lt_Some in Hq'. rewrite length_app in Hq'.
    cbn [length] in Hq'. lia.
  - apply lookup_app_Some in Hi as [Hi|[Hlen Hi]].
    + destruct (IH i p Hi) as (j & q & Hij & Hj & Hid & Hlast).
      exists j, q. split; [done|]. split; [by apply lookup_app_l_Some|]. split; [done|].
      intros j' q' Hj' Hq'. apply lookup_app_Some in Hq' as [Hq'|[_ Hq']]; [by eapply Hlast|].
      destruct (j' - length l)%nat; [|done]. by injection Hq' as <-.
    + destruct (i - length l)%nat; [|done]. injection Hi as <-. done.
Qed.

(** The update of the album touches neither the photos in memory nor the
    stored ones. *)
Lemma updateAlbumCount_frame env target refs w :
  reliable env ->
  exists t' als' dba' tx',
    updateAlbumCount env target refs w =
      (Return tt,
       mkWorld t' (heap w) (photos w) als' (currentAlbumId w) (onPhotosChangedCallback w)
         (onAlbumsChangedCallback w) (notices w) (dbPhotos w) dba' tx' (randomCalls w)
         (urlCalls w) (statusWrites w)).
Proof.
  intros Hrel. destruct w as [t h ps als cur cbp cba ns dbp dba tx rc uc ws].
  unfold updateAlbumCount, bind, gets, modify, saveAlbumToDB, transaction, ret. fields.
  destruct (list_find _ als) as [[i album]|]; fields; [|eauto 10].
  rewrite Hrel. fields. eauto 10.
Qed.

(** C6, as stated, fails: nothing compares a new id with the ids in the
    store. When the clock does not advance between two files of a batch and
    the random generator yields the same suffix twice, the second photo gets
    the id the first already has, and its record replaces the first's in
    the database. *)
Lemma photo_ids_can_collide :
  let r := addPhotosFromFiles steady [catFile; dogFile] None emptyAlbum in
  r.1 = Return [0; 1]%nat
  /\ id <$> objects r.2 (photos r.2) = ["photo-2000-k3f9x2a"; "photo-2000-k3f9x2a"]
  /\ name <$> objects r.2 (photos r.2) = ["cat.jpg"; "dog.png"]
  /\ data_name <$> dbPhotos r.2 = ["dog.png"].
Proof. vm_compute. repeat split. Qed.

(** C6, amended. No IndexedDB request failing, [addPhotosFromFiles] returns
    references to new photo objects, one for each file whose type starts
    with [image/], in the order of the files, and appends them to the photos
    in memory; the other files leave no trace. Each new photo has the file's
    name and content, the target album, the status pending and no splat url.
    Each is saved in turn: afterwards the record under a new photo's id is
    that of the last new photo with this id, a pending record with that
    photo's name and content; so a new photo's own record is in the
    database unless a later file of the batch got the same id, and the
    records under other ids are as they were. An id is [photo-<t>-<suffix>]
    for a clock reading [t] and a suffix drawn from the random generator;
    such an id equals another of that form only if both the reading and the
    suffix agree, and nothing else keeps it apart from the ids in the
    store. *)
Theorem addPhotosFromFiles_accepts env files albumArg w :
  reliable env ->
  let r := addPhotosFromFiles env files albumArg w in
  let target := js_or albumArg (js_or (currentAlbumId w) "default") in
  exists new,
    let refs := seq (length (heap w)) (length new) in
    r.1 = Return refs
    /\ heap r.2 = heap w ++ new
    /\ photos r.2 = photos w ++ refs
    /\ objects r.2 refs = new
    /\ (fun p => (name p, blob p)) <$> new
       = (fun f => (file_name f, file_blob f)) <$> List.filter isImage files
    /\ Forall (fun p =>
         splatStatus p = Some pending /\ albumId p = target /\ splatUrl p = None
         /\ exists t i, (now w <= t)%Z /\ id p = photoIdOf t (randomSuffix env i)) new
    /\ dbPhotos r.2 = putAll new (dbPhotos w)
    /\ (forall i p, new !! i = Some p ->
          (exists j q, (i <= j)%nat /\ new !! j = Some q /\ id q = id p
                       /\ dbGet data_id (id p) (dbPhotos r.2) = Some (photoDataOf q)
                       /\ data_name (photoDataOf q) = name q
                       /\ data_blob (photoDataOf q) = blob q
                       /\ data_splatStatus (photoDataOf q) = Some pending)
          /\ ((forall j q, (i < j)%nat -> new !! j = Some q -> id q <> id p) ->
              dbGet data_id (id p) (dbPhotos r.2) = Some (photoDataOf p)))
    /\ (forall k, k ∉ id <$> new ->
          dbGet data_id k (dbPhotos r.2) = dbGet data_id k (dbPhotos w))
    /\ forall t s t' s', (0 <= t)%Z -> (0 <= t')%Z ->
         photoIdOf t s = photoIdOf t' s' -> t = t' /\ s = s'.
Proof.
  intros Hrel r target.
  set (new := accepted env target (now w) (dbTx w) (randomCalls w) (urlCalls w) files).
  assert (exists t2 als2 ns dba2 tx2 rc1 uc1,
    r = (Return (seq (length (heap w)) (length new)),
         mkWorld t2 (heap w ++ new) (photos w ++ seq (length (heap w)) (length new))
                als2 (currentAlbumId w) (onPhotosChangedCallback w)
                (onAlbumsChangedCallback w) ns (putAll new (dbPhotos w)) dba2 tx2 rc1 uc1
                (statusWrites w))) as (t2 & als2 & ns & dba2 & tx2 & rc1 & uc1 & Er).
  { subst r. unfold addPhotosFromFiles. unfold bind at 1, gets at 1. cbn beta iota.
    fold target. unfold bind at 1.
    destruct (addLoop_spec env target files Hrel [] w) as (t1 & tx1 & rc1 & uc1 & E1).
    fold new in E1. rewrite E1. clear E1. cbn [app].
    unfold bind at 1.
    match goal with |- context [updateAlbumCount _ _ _ ?w1] =>
      destruct (updateAlbumCount_frame env target (seq (length (heap w)) (length new)) w1 Hrel)
        as (t2 & als2 & dba2 & tx2 & E2) end.
    fields. rewrite E2. clear E2.
    unfold bind, notifyPhotos, ret. fields.
    destruct (onPhotosChangedCallback w); fields; eauto 10. }
  exists new. rewrite Er. fields.
  pose proof (accepted_fields env target files (now w) (dbTx w) (randomCalls w) (urlCalls w))
    as Hfields. fold new in Hfields.
  split; [done|]. split; [done|]. split; [done|]. split; [apply omap_lookup_seq|].
  split; [apply accepted_files|]. split; [exact Hfields|]. split; [done|].
  split; [|split; [intros k Hk; by apply putAll_other|intros; by eapply photoIdOf_inj]].
  intros i p Hi. split; [|by apply putAll_last].
  destruct (last_with_id new i p Hi) as (j & q & Hij & Hj & Hid & Hlast).
  exists j, q. split; [done|]. split; [done|]. split; [done|]. split.
  - rewrite <- Hid. apply (putAll_last new _ j q Hj). intros j' q' Hj' Hq'.
    rewrite Hid. by eapply Hlast.
  - rewrite Forall_forall in Hfields.
    destruct (Hfields q) as (Hpend & _); [by eapply list_elem_of_lookup_2|].
    done.
Qed.

Lemma addPhotosFromFiles_accepts_witness :
  let r := addPhotosFromFiles steady [catFile; notesFile; dogFile] None emptyAlbum in
  let target := js_or None (js_or (currentAlbumId emptyAlbum) "default") in
  exists new,
    let refs := seq (length (heap emptyAlbum)) (length new) in
    r.1 = Return refs
    /\ heap r.2 = heap emptyAlbum ++ new
    /\ photos r.2 = photos emptyAlbum ++ refs
    /\ objects r.2 refs = new
    /\ (fun p => (name p, blob p)) <$> new
       = (fun f => (file_name f, file_blob f))
           <$> List.filter isImage [catFile; notesFile; dogFile]
    /\ Forall (fun p =>
         splatStatus p = Some pending /\ albumId p = target /\ splatUrl p = None
         /\ exists t i, (now emptyAlbum <= t)%Z /\ id p = photoIdOf t (randomSuffix steady i)) new
    /\ dbPhotos r.2 = putAll new (dbPhotos emptyAlbum)
    /\ (forall i p, new !! i = Some p ->
          (exists j q, (i <= j)%nat /\ new !! j = Some q /\ id q = id p
                       /\ dbGet data_id (id p) (dbPhotos r.2) = Some (photoDataOf q)
                       /\ data_name (photoDataOf q) = name q
                       /\ data_blob (photoDataOf q) = blob q
                       /\ data_splatStatus (photoDataOf q) = Some pending)
          /\ ((forall j q, (i < j)%nat -> new !! j = Some q -> id q <> id p) ->
              dbGet data_id (id p) (dbPhotos r.2) = Some (photoDataOf p)))
    /\ (forall k, k ∉ id <$> new ->
          dbGet data_id k (dbPhotos r.2) = dbGet data_id k (dbPhotos emptyAlbum))
    /\ forall t s t' s', (0 <= t)%Z -> (0 <= t')%Z ->
         photoIdOf t s = photoIdOf t' s' -> t = t' /\ s = s'.
Proof.
  apply (addPhotosFromFiles_accepts steady [catFile; notesFile; dogFile] None emptyAlbum).
  intros n. reflexivity.
Defined.

(** A store whose requests take a millisecond gives the photos of a batch
    ids of their own, and each its own record. *)
Example addPhotosFromFiles_own_records :
  let r := addPhotosFromFiles ticking [catFile; notesFile; dogFile] None emptyAlbum in
  id <$> objects r.2 (photos r.2) = ["photo-2000-k3f9x2a"; "photo-2001-k3f9x2a"]
  /\ (fun d => (data_id d, data_name d, data_splatStatus d)) <$> dbPhotos r.2
     = [("photo-2000-k3f9x2a", "cat.jpg", Some pending);
        ("photo-2001-k3f9x2a", "dog.png", Some pending)].
Proof. vm_compute. done. Qed.

(** A batch of an image, a text file and an image: the text file is
    skipped, the album counts two photos and takes the first as its cover. *)
Example addPhotosFromFiles_run :
  let r := addPhotosFromFiles steady [catFile; notesFile; dogFile] None emptyAlbum in
  r.1 = Return [0; 1]%nat
  /\ name <$> objects r.2 (photos r.2) = ["cat.jpg"; "dog.png"]
  /\ (fun a => (photoCount a, coverUrl a)) <$> albums r.2 = [(2%Z, Some "blob:0")]
  /\ notices r.2 = [PhotosChanged [0; 1]%nat].
Proof. vm_compute. repeat split. Qed.

(** ** The rest of photoService.ts *)

(** *** Loading an album *)

Lemma truthy_Some_string (s : string) : truthy (Some s) = negb (bool_decide (s = EmptyString)).
Proof. by destruct s. Qed.

(** How [loadPhotosFromDB] ends, both ways. *)
Lemma loadPhotosFromDB_spec env (a : string) w :
  let tk := db env (dbTx w) in
  let selected := selectedBy a (dbPhotos w) in
  loadPhotosFromDB env (Some a) w =
    if dbFault tk
    then (Throw requestFailed,
          mkWorld (now w + Z.of_N (dbDelay tk)) (heap w) (photos w) (albums w)
            (currentAlbumId w) (onPhotosChangedCallback w) (onAlbumsChangedCallback w)
            (notices w) (dbPhotos w) (dbAlbums w) (S (dbTx w)) (randomCalls w) (urlCalls w)
            (statusWrites w))
    else (Return (seq (length (heap w)) (length selected)),
          mkWorld (now w + Z.of_N (dbDelay tk))
            (heap w ++ revivedFrom env (urlCalls w) selected) (photos w) (albums w)
            (currentAlbumId w) (onPhotosChangedCallback w) (onAlbumsChangedCallback w)
            (notices w) (dbPhotos w) (dbAlbums w) (S (dbTx w)) (randomCalls w)
            (urlCalls w + length selected) (statusWrites w)).
Proof.
  intros tk selected. subst tk selected.
  destruct w as [t h ps als cur cbp cba ns dbp dba tx rc uc ws].
  unfold loadPhotosFromDB, transaction, bind, gets. fields.
  destruct (dbFault _); [reflexivity|].
  rewrite mapM_revive. fields. unfold selectedBy. rewrite truthy_Some_string.
  case_bool_decide; cbn [negb]; [reflexivity|].
  assert (filter (fun d => Some (data_albumId d) = Some a) dbp
          = filter (fun d => data_albumId d = a) dbp) as ->; [|reflexivity].
  apply list_filter_iff. intros d. split; congruence.
Qed.

(** How [switchAlbum] ends, both ways. *)
Lemma switchAlbum_spec env (a : string) w :
  let tk := db env (dbTx w) in
  let selected := selectedBy a (dbPhotos w) in
  let refs := seq (length (heap w)) (length selected) in
  switchAlbum env a w =
    if dbFault tk
    then (Throw requestFailed,
          mkWorld (now w + Z.of_N (dbDelay tk)) (heap w) (photos w) (albums w)
            (Some a) (onPhotosChangedCallback w) (onAlbumsChangedCallback w)
            (notices w) (dbPhotos w) (dbAlbums w) (S (dbTx w)) (randomCalls w) (urlCalls w)
            (statusWrites w))
    else (Return refs,
          mkWorld (now w + Z.of_N (dbDelay tk))
            (heap w ++ revivedFrom env (urlCalls w) selected) refs (albums w)
            (Some a) (onPhotosChangedCallback w) (onAlbumsChangedCallback w)
            (notices w ++ if onPhotosChangedCallback w then [PhotosChanged refs] else [])
            (dbPhotos w) (dbAlbums w) (S (dbTx w)) (randomCalls w)
            (urlCalls w + length selected) (statusWrites w)).
Proof.
  intros tk selected refs. subst tk selected refs.
  unfold switchAlbum. unfold bind at 1, modify at 1. unfold bind at 1.
  rewrite loadPhotosFromDB_spec.
  destruct w as [t h ps als cur cbp cba ns dbp dba tx rc uc ws]. fields.
  destruct (dbFault _); [reflexivity|].
  unfold bind, modify, notifyPhotos, gets. fields.
  destruct cbp; fields; rewrite ?app_nil_r; reflexivity.
Qed.

Lemma url_revivedFrom env n ds :
  url <$> revivedFrom env n ds = (fun i => objectURL env (n + i)) <$> seq 0 (length ds).
Proof.
  revert n. induction ds as [|d ds IH]; intros n; [done|].
  cbn [revivedFrom fmap list_fmap length seq]. fold (@fmap list _ _ _ url).
  rewrite Nat.add_0_r. f_equal. rewrite IH. rewrite <- fmap_S_seq, <- list_fmap_compose.
  apply list_fmap_ext. intros _ i _. simpl. f_equal. lia.
Qed.

(** [getPhotoUrls] reads the urls off the photo objects. *)
Lemma getPhotoUrls_objects w : (getPhotoUrls w).1 = Return (url <$> objects w (photos w)).
Proof.
  unfold getPhotoUrls, gets, objects. cbn [fst]. f_equal.
  induction (photos w) as [|l ps IH]; [done|]. cbn [omap list_omap].
  destruct (heap w !! l); cbn; by rewrite IH.
Qed.

(** X11. [switchAlbum(albumId)], its IndexedDB request succeeding: the album
    becomes the current one and the photos in memory, which are also the
    photos returned, are the stored photos filed under [albumId], in the
    order of the store, or all stored photos when [albumId] is the empty
    string, which [loadPhotosFromDB] takes for no album at all. Each gets a
    fresh object URL, and these are what [getPhotoUrls] then returns. The
    photo objects made before stay as they are, the database and the albums
    are not written, and the change callback, if one is registered, is
    called once with the new photos. *)
Theorem switchAlbum_loads env albumId w :
  dbFault (db env (dbTx w)) = false ->
  let r := switchAlbum env albumId w in
  let selected := if bool_decide (albumId = EmptyString) then dbPhotos w
                  else filter (fun d => data_albumId d = albumId) (dbPhotos w) in
  r.1 = Return (photos r.2)
  /\ currentAlbumId r.2 = Some albumId
  /\ photoDataOf <$> objects r.2 (photos r.2) = selected
  /\ (getPhotoUrls r.2).1
     = Return ((fun i => objectURL env (urlCalls w + i)) <$> seq 0 (length selected))
  /\ (exists new, heap r.2 = heap w ++ new)
  /\ dbPhotos r.2 = dbPhotos w
  /\ albums r.2 = albums w
  /\ notices r.2 =
       notices w ++ if onPhotosChangedCallback w then [PhotosChanged (photos r.2)] else [].
Proof.
  intros Hok r selected. subst r. rewrite getPhotoUrls_objects.
  rewrite switchAlbum_spec. cbv zeta. rewrite Hok.
  fold (selectedBy albumId (dbPhotos w)) in selected. subst selected.
  unfold objects. fields.
  rewrite omap_lookup_seq_len by apply length_revivedFrom.
  rewrite photoDataOf_revivedFrom, url_revivedFrom. repeat split. eauto.
Qed.

Lemma switchAlbum_loads_witness :
  let r := switchAlbum steady "default" freshInstall in
  let selected := if bool_decide ("default" = EmptyString) then dbPhotos freshInstall
                  else filter (fun d => data_albumId d = "default") (dbPhotos freshInstall) in
  r.1 = Return (photos r.2)
  /\ currentAlbumId r.2 = Some "default"
  /\ photoDataOf <$> objects r.2 (photos r.2) = selected
  /\ (getPhotoUrls r.2).1
     = Return ((fun i => objectURL steady (urlCalls freshInstall + i))
                 <$> seq 0 (length selected))
  /\ (exists new, heap r.2 = heap freshInstall ++ new)
  /\ dbPhotos r.2 = dbPhotos freshInstall
  /\ albums r.2 = albums freshInstall
  /\ notices r.2 =
       notices freshInstall ++ if onPhotosChangedCallback freshInstall
                               then [PhotosChanged (photos r.2)] else [].
Proof.
  apply (switchAlbum_loads steady "default" freshInstall). reflexivity.
Defined.

(** X12. [switchAlbum(albumId)], its IndexedDB request failing: the call
    throws, and since the current album is assigned before the request is
    awaited, the store is left naming [albumId] as the current album while
    the photos in memory are still those it held before; no callback is
    called. *)
Theorem switchAlbum_storage_fault env albumId w :
  dbFault (db env (dbTx w)) = true ->
  let r := switchAlbum env albumId w in
  r.1 = Throw requestFailed
  /\ currentAlbumId r.2 = Some albumId
  /\ photos r.2 = photos w
  /\ heap r.2 = heap w
  /\ notices r.2 = notices w.
Proof.
  intros Hf r. subst r. rewrite switchAlbum_spec. cbv zeta. rewrite Hf. done.
Qed.

Lemma switchAlbum_storage_fault_witness :
  let r := switchAlbum broken "album-800-abcdefg" oneCat in
  r.1 = Throw requestFailed
  /\ currentAlbumId r.2 = Some "album-800-abcdefg"
  /\ photos r.2 = photos oneCat
  /\ heap r.2 = heap oneCat
  /\ notices r.2 = notices oneCat.
Proof.
  apply (switchAlbum_storage_fault broken "album-800-abcdefg" oneCat). reflexivity.
Defined.

(** *** Albums *)

Lemma saveAlbumToDB_spec env album w :
  let tk := db env (dbTx w) in
  saveAlbumToDB env album w =
    if dbFault tk
    then (Throw requestFailed,
          mkWorld (now w + Z.of_N (dbDelay tk)) (heap w) (photos w) (albums w)
            (currentAlbumId w) (onPhotosChangedCallback w) (onAlbumsChangedCallback w)
            (notices w) (dbPhotos w) (dbAlbums w) (S (dbTx w)) (randomCalls w) (urlCalls w)
            (statusWrites w))
    else (Return tt,
          mkWorld (now w + Z.of_N (dbDelay tk)) (heap w) (photos w) (albums w)
            (currentAlbumId w) (onPhotosChangedCallback w) (onAlbumsChangedCallback w)
            (notices w) (dbPhotos w) (dbPut album_id album (dbAlbums w)) (S (dbTx w))
            (randomCalls w) (urlCalls w) (statusWrites w)).
Proof.
  intros tk. subst tk. destruct w as [t h ps als cur cbp cba ns dbp dba tx rc uc ws].
  unfold saveAlbumToDB, transaction, modify. fields. by destruct (dbFault _).
Qed.

(** How [createAlbum] ends, both ways: the album is in memory before it is
    saved. *)
Lemma createAlbum_spec env name w :
  let tk := db env (dbTx w) in
  let album := {| album_id := albumIdOf (now w) (randomSuffix env (randomCalls w));
                  album_name := name; photoCount := 0; coverUrl := None;
                  createdAt := now w |} in
  createAlbum env name w =
    if dbFault tk
    then (Throw requestFailed,
          mkWorld (now w + Z.of_N (dbDelay tk)) (heap w) (photos w) (albums w ++ [album])
            (currentAlbumId w) (onPhotosChangedCallback w) (onAlbumsChangedCallback w)
            (notices w) (dbPhotos w) (dbAlbums w) (S (dbTx w)) (S (randomCalls w)) (urlCalls w)
            (statusWrites w))
    else (Return album,
          mkWorld (now w + Z.of_N (dbDelay tk)) (heap w) (photos w) (albums w ++ [album])
            (currentAlbumId w) (onPhotosChangedCallback w) (onAlbumsChangedCallback w)
            (notices w ++ if onAlbumsChangedCallback w
                          then [AlbumsChanged (albums w ++ [album])] else [])
            (dbPhotos w) (dbPut album_id album (dbAlbums w)) (S (dbTx w))
            (S (randomCalls w)) (urlCalls w) (statusWrites w)).
Proof.
  intros tk album. subst tk album.
  destruct w as [t h ps als cur cbp cba ns dbp dba tx rc uc ws].
  unfold createAlbum, dateNow, mathRandomSuffix, bind, gets, modify. fields.
  rewrite saveAlbumToDB_spec. fields.
  destruct (dbFault _); [reflexivity|].
  unfold notifyAlbums, ret. fields. destruct cba; fields; rewrite ?app_nil_r; reflexivity.
Qed.

Lemma albumIdOf_not_default t s : albumIdOf t s <> "default".
Proof. unfold albumIdOf. cbn [String.app]. discriminate. Qed.

(** X13. [createAlbum(name)], its IndexedDB request succeeding, returns an
    album without photos and without cover whose id is
    [album-<Date.now()>-<random suffix>], never the id [default]; the album
    is the last of the albums in memory and is stored under its id, the
    records stored under other ids staying as they are; the albums callback,
    if one is registered, is called once with all albums. The new album does
    not become the current one, and the photos in memory are not touched. *)
Theorem createAlbum_appends env name w :
  dbFault (db env (dbTx w)) = false ->
  let r := createAlbum env name w in
  let album := {| album_id := albumIdOf (now w) (randomSuffix env (randomCalls w));
                  album_name := name; photoCount := 0; coverUrl := None;
                  createdAt := now w |} in
  r.1 = Return album
  /\ albums r.2 = albums w ++ [album]
  /\ dbGet album_id (album_id album) (dbAlbums r.2) = Some album
  /\ (forall k, k <> album_id album ->
        dbGet album_id k (dbAlbums r.2) = dbGet album_id k (dbAlbums w))
  /\ notices r.2 =
       notices w ++ (if onAlbumsChangedCallback w then [AlbumsChanged (albums r.2)] else [])
  /\ currentAlbumId r.2 = currentAlbumId w
  /\ photos r.2 = photos w
  /\ album_id album <> "default".
Proof.
  intros Hok r album. subst r. rewrite createAlbum_spec. cbv zeta. rewrite Hok. fields.
  split; [done|]. split; [done|].
  split; [apply (dbGet_dbPut album_id album)|].
  split; [intros k Hk; apply dbGet_dbPut_ne; by subst album|].
  repeat split. apply albumIdOf_not_default.
Qed.

Lemma createAlbum_appends_witness :
  let r := createAlbum steady "Holidays" oneCat in
  let album := {| album_id := albumIdOf (now oneCat) (randomSuffix steady (randomCalls oneCat));
                  album_name := "Holidays"; photoCount := 0; coverUrl := None;
                  createdAt := now oneCat |} in
  r.1 = Return album
  /\ albums r.2 = albums oneCat ++ [album]
  /\ dbGet album_id (album_id album) (dbAlbums r.2) = Some album
  /\ (forall k, k <> album_id album ->
        dbGet album_id k (dbAlbums r.2) = dbGet album_id k (dbAlbums oneCat))
  /\ notices r.2 =
       notices oneCat ++ (if onAlbumsChangedCallback oneCat
                          then [AlbumsChanged (albums r.2)] else [])
  /\ currentAlbumId r.2 = currentAlbumId oneCat
  /\ photos r.2 = photos oneCat
  /\ album_id album <> "default".
Proof.
  apply (createAlbum_appends steady "Holidays" oneCat). reflexivity.
Defined.

(** What [initPhotoService] leaves behind when the database has albums. *)
Lemma initPhotoService_stored env w first rest :
  dbAlbums w = first :: rest ->
  reliable env ->
  let selected := selectedBy (album_id first) (dbPhotos w) in
  let refs := seq (length (heap w)) (length selected) in
  exists t',
    initPhotoService env w =
      (Return (refs, first :: rest),
       mkWorld t' (heap w ++ revivedFrom env (urlCalls w) selected) refs (first :: rest)
         (Some (album_id first)) (onPhotosChangedCallback w) (onAlbumsChangedCallback w)
         (notices w) (dbPhotos w) (dbAlbums w) (S (S (dbTx w))) (randomCalls w)
         (urlCalls w + length selected) (statusWrites w)).
Proof.
  intros Hdb Hrel selected refs. subst selected refs.
  destruct w as [t h ps als cur cbp cba ns dbp dba tx rc uc ws]. fields. subst dba.
  unfold initPhotoService. unfold loadAlbumsFromDB, transaction, bind at 1, gets at 1.
  fields. rewrite Hrel. unfold bind at 1, modify at 1. unfold bind at 1, gets at 1.
  fields. unfold bind at 1.
  change (bool_decide (length (first :: rest) = 0%nat)) with false. cbn iota.
  unfold ret at 1. unfold bind at 1, gets at 1. fields.
  unfold bind at 1, modify at 1. fields. unfold bind at 1.
  rewrite loadPhotosFromDB_spec. fields. rewrite Hrel.
  unfold bind, modify, gets, ret. fields. eauto.
Qed.

(** X14. On a database that has albums, and no IndexedDB request failing,
    [initPhotoService] creates no default album and writes nothing: the
    albums in memory, which it returns, are the stored albums in the order
    of the store, the first of them is the current album, and the photos in
    memory are the stored photos filed under that album (all stored photos,
    should its id be the empty string). No callback is called. *)
Theorem initPhotoService_existing_albums env w first rest :
  dbAlbums w = first :: rest ->
  reliable env ->
  let r := initPhotoService env w in
  r.1 = Return (photos r.2, first :: rest)
  /\ albums r.2 = first :: rest
  /\ dbAlbums r.2 = dbAlbums w
  /\ currentAlbumId r.2 = Some (album_id first)
  /\ photoDataOf <$> objects r.2 (photos r.2)
     = (if bool_decide (album_id first = EmptyString) then dbPhotos w
        else filter (fun d => data_albumId d = album_id first) (dbPhotos w))
  /\ dbPhotos r.2 = dbPhotos w
  /\ notices r.2 = notices w.
Proof.
  intros Hdb Hrel r. subst r.
  destruct (initPhotoService_stored env w first rest Hdb Hrel) as [t' ->].
  unfold objects. fields.
  rewrite omap_lookup_seq_len by apply length_revivedFrom.
  rewrite photoDataOf_revivedFrom. done.
Qed.

Lemma initPhotoService_existing_albums_witness :
  let r := initPhotoService steady oneCat in
  r.1 = Return (photos r.2, [allMemories])
  /\ albums r.2 = [allMemories]
  /\ dbAlbums r.2 = dbAlbums oneCat
  /\ currentAlbumId r.2 = Some (album_id allMemories)
  /\ photoDataOf <$> objects r.2 (photos r.2)
     = (if bool_decide (album_id allMemories = EmptyString) then dbPhotos oneCat
        else filter (fun d => data_albumId d = album_id allMemories) (dbPhotos oneCat))
  /\ dbPhotos r.2 = dbPhotos oneCat
  /\ notices r.2 = notices oneCat.
Proof.
  apply (initPhotoService_existing_albums steady oneCat allMemories []).
  - reflexivity.
  - intros n. reflexivity.
Defined.

(** *** The album of an upload *)

Lemma length_accepted env target files : forall t tx rc uc,
  length (accepted env target t tx rc uc files) = length (List.filter isImage files).
Proof.
  intros t tx rc uc.
  rewrite <- (length_fmap (fun p => (name p, blob p))), accepted_files. by rewrite length_fmap.
Qed.

Lemma head_accepted env target files : forall t tx rc uc p,
  head (accepted env target t tx rc uc files) = Some p -> url p = objectURL env uc.
Proof.
  induction files as [|f files IH]; intros t tx rc uc p; cbn [accepted]; [done|].
  destruct (isImage f); [|apply IH]. by intros [= <-].
Qed.

Lemma updateAlbumCount_spec env target refs w :
  reliable env ->
  updateAlbumCount env target refs w =
    match list_find (fun a => album_id a = target) (albums w) with
    | Some (i, album) =>
        let covered :=
          {| album_id := album_id album; album_name := album_name album;
             photoCount := js_plus (photoCount album) (Z.of_nat (length refs));
             coverUrl := if negb (truthy (coverUrl album)) && bool_decide (0 < length refs)
                         then url <$> (head refs ≫= fun l => heap w !! l)
                         else coverUrl album;
             createdAt := createdAt album |} in
        (Return tt,
         mkWorld (now w + Z.of_N (dbDelay (db env (dbTx w)))) (heap w) (photos w)
           (<[i := covered]> (albums w)) (currentAlbumId w) (onPhotosChangedCallback w)
           (onAlbumsChangedCallback w) (notices w) (dbPhotos w)
           (dbPut album_id covered (dbAlbums w)) (S (dbTx w)) (randomCalls w) (urlCalls w)
           (statusWrites w))
    | None => (Return tt, w)
    end.
Proof.
  intros Hrel. destruct w as [t h ps als cur cbp cba ns dbp dba tx rc uc ws].
  unfold updateAlbumCount, bind, gets, modify, saveAlbumToDB, transaction, ret. fields.
  destruct (list_find _ als) as [[i album]|]; fields; [|done].
  rewrite Hrel. cbn [album_id album_name photoCount coverUrl createdAt].
  by destruct (negb _ && _).
Qed.

(** What a run of [addPhotosFromFiles] without a failing request leaves
    behind. *)
Lemma addPhotosFromFiles_spec env files albumArg w :
  reliable env ->
  let target := js_or albumArg (js_or (currentAlbumId w) "default") in
  let new := accepted env target (now w) (dbTx w) (randomCalls w) (urlCalls w) files in
  let refs := seq (length (heap w)) (length new) in
  exists t' tx' rc' uc' als' dba',
    addPhotosFromFiles env files albumArg w =
      (Return refs,
       mkWorld t' (heap w ++ new) (photos w ++ refs) als' (currentAlbumId w)
         (onPhotosChangedCallback w) (onAlbumsChangedCallback w)
         (notices w ++ if onPhotosChangedCallback w
                       then [PhotosChanged (photos w ++ refs)] else [])
         (putAll new (dbPhotos w)) dba' tx' rc' uc' (statusWrites w))
    /\ match list_find (fun a => album_id a = target) (albums w) with
       | Some (i, album) =>
           let album' := counted (length new) (objectURL env (urlCalls w)) album in
           als' = <[i := album']> (albums w) /\ dba' = dbPut album_id album' (dbAlbums w)
       | None => als' = albums w /\ dba' = dbAlbums w
       end.
Proof.
  intros Hrel target new refs.
  unfold addPhotosFromFiles. unfold bind at 1, gets at 1. cbn beta iota.
  fold target. unfold bind at 1.
  destruct (addLoop_spec env target files Hrel [] w) as (t1 & tx1 & rc1 & uc1 & E1).
  fold new in E1. fold refs in E1. rewrite E1. clear E1. cbn [app].
  unfold bind at 1. rewrite updateAlbumCount_spec by done. fields.
  destruct (list_find _ (albums w)) as [[i album]|] eqn:Hfind.
  - cbv zeta. unfold bind, notifyPhotos, ret. fields.
    set (covered := Build_Album _ _ _ _ _).
    exists (t1 + Z.of_N (dbDelay (db env tx1)))%Z, (S tx1), rc1, uc1,
      (<[i := covered]> (albums w)), (dbPut album_id covered (dbAlbums w)).
    split.
    + destruct (onPhotosChangedCallback w); fields; rewrite ?app_nil_r; reflexivity.
    + assert (covered = counted (length new) (objectURL env (urlCalls w)) album) as ->; [|done].
      subst covered. unfold counted. subst refs. rewrite length_seq. f_equal.
      destruct (truthy (coverUrl album)); cbn [negb andb orb]; [done|].
      destruct new as [|p new'] eqn:Hnew; cbn [length]; [done|].
      rewrite bool_decide_true by lia. rewrite bool_decide_false by lia.
      cbn [seq head mbind option_bind]. rewrite lookup_app_r by lia.
      rewrite Nat.sub_diag. cbn [lookup list_lookup fmap option_fmap option_map].
      f_equal. apply (head_accepted env target files (now w) (dbTx w) (randomCalls w)
                        (urlCalls w)). fold new. by rewrite Hnew.
  - unfold bind, notifyPhotos, ret. fields.
    exists t1, tx1, rc1, uc1, (albums w), (dbAlbums w). split; [|done].
    destruct (onPhotosChangedCallback w); fields; rewrite ?app_nil_r; reflexivity.
Qed.

(** Integers up to 2^53 in absolute value are stored as they are. *)
Lemma js_plus_exact x n : (Z.abs (x + n) <= 2 ^ 53)%Z -> js_plus x n = (x + n)%Z.
Proof.
  intros Hs. unfold js_plus, nearestDouble.
  destruct (Z.eqb_spec n 0) as [->|_]; [lia|].
  cbv zeta. destruct (Z.leb_spec (Z.abs (x + n)) (2 ^ 53)); [done|lia].
Qed.

(** X15. The album of an upload, no IndexedDB request failing. The target
    album is the one given, else the current one, else [default]. If the
    albums in memory hold one under that id, the first such album has the
    number of image files added to its photo count, gets the object URL of
    the first new photo as cover unless it has a cover or no photo was
    added, and is stored so; the other albums and the records stored under
    other ids stay as they are. The sum is a sum of numbers: it is the
    exact sum as long as that is at most 2^53 in absolute value, and the
    double nearest to it beyond. If no album in memory has that id, no
    album is changed and none is stored, though the photos are added all
    the same. *)
Theorem addPhotosFromFiles_album_count env files albumArg w :
  reliable env ->
  let r := addPhotosFromFiles env files albumArg w in
  let target := js_or albumArg (js_or (currentAlbumId w) "default") in
  let n := length (List.filter isImage files) in
  match list_find (fun a => album_id a = target) (albums w) with
  | Some (i, album) =>
      let album' :=
        {| album_id := album_id album; album_name := album_name album;
           photoCount := js_plus (photoCount album) (Z.of_nat n);
           coverUrl := if truthy (coverUrl album) || bool_decide (n = 0%nat)
                       then coverUrl album
                       else Some (objectURL env (urlCalls w));
           createdAt := createdAt album |} in
      albums r.2 = <[i := album']> (albums w)
      /\ dbGet album_id target (dbAlbums r.2) = Some album'
      /\ (forall k, k <> target ->
            dbGet album_id k (dbAlbums r.2) = dbGet album_id k (dbAlbums w))
      /\ ((Z.abs (photoCount album + Z.of_nat n) <= 2 ^ 53)%Z ->
          photoCount album' = (photoCount album + Z.of_nat n)%Z)
      /\ (n = 0%nat -> photoCount album' = photoCount album)
  | None => albums r.2 = albums w /\ dbAlbums r.2 = dbAlbums w
  end.
Proof.
  intros Hrel r target n. subst r.
  destruct (addPhotosFromFiles_spec env files albumArg w Hrel)
    as (t' & tx' & rc' & uc' & als' & dba' & -> & Halb).
  cbv zeta in Halb. fold target in Halb. rewrite length_accepted in Halb. fold n in Halb.
  destruct (list_find _ (albums w)) as [[i album]|] eqn:Hfind; fields; [|done].
  destruct Halb as [-> ->]. apply list_find_Some in Hfind as (_ & Hid & _).
  fold (counted n (objectURL env (urlCalls w)) album).
  split; [done|]. split; [|split; [|split]].
  - rewrite <- Hid. apply (dbGet_dbPut album_id (counted n _ album)).
  - intros k Hk. apply dbGet_dbPut_ne. cbn [counted album_id]. congruence.
  - cbn [counted photoCount]. apply js_plus_exact.
  - intros ->. reflexivity.
Qed.

Lemma addPhotosFromFiles_album_count_witness :
  let r := addPhotosFromFiles steady [catFile; notesFile; dogFile] None emptyAlbum in
  let target := js_or None (js_or (currentAlbumId emptyAlbum) "default") in
  let n := length (List.filter isImage [catFile; notesFile; dogFile]) in
  match list_find (fun a => album_id a = target) (albums emptyAlbum) with
  | Some (i, album) =>
      let album' :=
        {| album_id := album_id album; album_name := album_name album;
           photoCount := js_plus (photoCount album) (Z.of_nat n);
           coverUrl := if truthy (coverUrl album) || bool_decide (n = 0%nat)
                       then coverUrl album
                       else Some (objectURL steady (urlCalls emptyAlbum));
           createdAt := createdAt album |} in
      albums r.2 = <[i := album']> (albums emptyAlbum)
      /\ dbGet album_id target (dbAlbums r.2) = Some album'
      /\ (forall k, k <> target ->
            dbGet album_id k (dbAlbums r.2) = dbGet album_id k (dbAlbums emptyAlbum))
      /\ ((Z.abs (photoCount album + Z.of_nat n) <= 2 ^ 53)%Z ->
          photoCount album' = (photoCount album + Z.of_nat n)%Z)
      /\ (n = 0%nat -> photoCount album' = photoCount album)
  | None => albums r.2 = albums emptyAlbum /\ dbAlbums r.2 = dbAlbums emptyAlbum
  end.
Proof.
  apply (addPhotosFromFiles_album_count steady [catFile; notesFile; dogFile] None emptyAlbum).
  intros n. reflexivity.
Defined.

(** An album whose count has reached 2^53 does not count the next photo,
    and counts the next two. *)
Example photoCount_stuck :
  js_plus (2 ^ 53) 1 = (2 ^ 53)%Z /\ js_plus (2 ^ 53) 2 = (2 ^ 53 + 2)%Z
  /\ js_plus (2 ^ 53 - 1) 1 = (2 ^ 53)%Z.
Proof. vm_compute. done. Qed.




(** The loop of [addPhotosFromFiles] when the first save fails. *)
Lemma addLoop_fault env target files f rest : forall acc w,
  List.filter isImage files = f :: rest ->
  dbFault (db env (dbTx w)) = true ->
  addLoop env target files acc w =
    (Throw requestFailed,
     mkWorld (now w + Z.of_N (dbDelay (db env (dbTx w))))
       (heap w ++ [{| id := photoIdOf (now w) (randomSuffix env (randomCalls w));
                      name := file_name f; blob := file_blob f;
                      url := objectURL env (urlCalls w); timestamp := now w;
                      albumId := target; splatUrl := None; splatStatus := Some pending |}])
       (photos w ++ [length (heap w)]) (albums w) (currentAlbumId w)
       (onPhotosChangedCallback w) (onAlbumsChangedCallback w) (notices w) (dbPhotos w)
       (dbAlbums w) (S (dbTx w)) (S (randomCalls w)) (S (urlCalls w)) (statusWrites w)).
Proof.
  induction files as [|g files IH]; intros acc w; cbn [addLoop List.filter]; [done|].
  destruct (isImage g) eqn:Himg; cbn [negb]; [|apply IH].
  intros [= -> _] Hf.
  destruct w as [t h ps als cur cbp cba ns dbp dba tx rc uc ws].
  unfold bind, dateNow, gets, mathRandomSuffix, createObjectURL, alloc, modify,
    savePhotoToDB, transaction.
  fields. rewrite Hf. reflexivity.
Qed.

(** X17. An upload whose first save fails: the call throws, the first image
    of the batch is among the photos in memory, pending, but not in the
    database; the files after it are not looked at, the album's count is
    not raised, and no callback is called. *)
Theorem addPhotosFromFiles_storage_fault env files albumArg w f rest :
  List.filter isImage files = f :: rest ->
  dbFault (db env (dbTx w)) = true ->
  let r := addPhotosFromFiles env files albumArg w in
  r.1 = Throw requestFailed
  /\ (exists p, heap r.2 = heap w ++ [p] /\ name p = file_name f /\ blob p = file_blob f
                /\ splatStatus p = Some pending)
  /\ photos r.2 = photos w ++ [length (heap w)]
  /\ dbPhotos r.2 = dbPhotos w
  /\ albums r.2 = albums w
  /\ dbAlbums r.2 = dbAlbums w
  /\ notices r.2 = notices w.
Proof.
  intros Hfilter Hf r. subst r.
  assert (addPhotosFromFiles env files albumArg w
          = addLoop env (js_or albumArg (js_or (currentAlbumId w) "default")) files [] w)
    as ->.
  { unfold addPhotosFromFiles. unfold bind at 1, gets at 1. cbn beta iota. unfold bind.
    by rewrite (addLoop_fault env _ files f rest). }
  rewrite (addLoop_fault env _ files f rest) by done. fields.
  split; [done|]. split; [|done]. eexists. split; [reflexivity|]. done.
Qed.

Lemma addPhotosFromFiles_storage_fault_witness :
  let r := addPhotosFromFiles broken [notesFile; catFile; dogFile] None emptyAlbum in
  r.1 = Throw requestFailed
  /\ (exists p, heap r.2 = heap emptyAlbum ++ [p] /\ name p = file_name catFile
                /\ blob p = file_blob catFile /\ splatStatus p = Some pending)
  /\ photos r.2 = photos emptyAlbum ++ [length (heap emptyAlbum)]
  /\ dbPhotos r.2 = dbPhotos emptyAlbum
  /\ albums r.2 = albums emptyAlbum
  /\ dbAlbums r.2 = dbAlbums emptyAlbum
  /\ notices r.2 = notices emptyAlbum.
Proof.
  apply (addPhotosFromFiles_storage_fault broken [notesFile; catFile; dogFile] None emptyAlbum
           catFile [dogFile]); reflexivity.
Defined.

(** *** Looking up and updating a photo *)

(** X18. [getPhotoById] changes nothing and returns the first photo in
    memory that has the id, if there is one: no photo before it in the
    array has the id; it returns nothing exactly when no photo in memory
    has the id. It never throws. *)
Theorem getPhotoById_first_match photoId w :
  (getPhotoById photoId w).2 = w
  /\ match (getPhotoById photoId w).1 with
     | Return (Some l) =>
         exists i p, photos w !! i = Some l /\ heap w !! l = Some p /\ id p = photoId
                     /\ forall j l', (j < i)%nat -> photos w !! j = Some l' ->
                          id <$> heap w !! l' <> Some photoId
     | Return None =>
         forall l, l ∈ photos w -> id <$> heap w !! l <> Some photoId
     | Throw _ => False
     end.
Proof.
  unfold getPhotoById, gets, findPhoto. cbn [fst snd]. split; [done|].
  destruct (list_find _ _) as [[i l]|] eqn:E; cbn [fmap option_fmap option_map snd].
  - apply list_find_Some in E as (Hi & Hid & Hfirst). unfold hasId in Hid, Hfirst.
    destruct (heap w !! l) as [p|] eqn:Hp; [|done]. simplify_eq/=.
    exists i, p. repeat split; try done. intros j l' Hj Hl'. by eapply Hfirst.
  - intros l Hl. rewrite list_find_None, Forall_forall in E. by apply E.
Qed.

(** X19. [updatePhotoSplatStatus] on a photo the store finds, the save
    failing: the call throws, the photo in memory has the new status (and
    the new url, if one was given) all the same, the database still holds
    what it held, and no callback is called. *)
Theorem updatePhotoSplatStatus_storage_fault env photoId status u w l p :
  findPhoto photoId w = Some l ->
  heap w !! l = Some p ->
  dbFault (db env (dbTx w)) = true ->
  let r := updatePhotoSplatStatus env photoId status u w in
  r.1 = Throw requestFailed
  /\ heap r.2 = <[l := updated status u p]> (heap w)
  /\ splatStatus <$> heap r.2 !! l = Some status
  /\ dbPhotos r.2 = dbPhotos w
  /\ notices r.2 = notices w.
Proof.
  intros Hfind Hp Hf r. subst r.
  rewrite (updatePhotoSplatStatus_known env photoId status u w l p Hfind Hp).
  cbv zeta. rewrite Hf. fields. repeat split.
  rewrite list_lookup_insert_eq by (by eapply lookup_lt_Some).
  cbn. f_equal. unfold updated. by destruct (truthy u).
Qed.

Lemma updatePhotoSplatStatus_storage_fault_witness :
  let r := updatePhotoSplatStatus broken "photo-1000-k3f9x2a" (Some ready)
             (Some "https://x/y.ply") oneCat in
  r.1 = Throw requestFailed
  /\ heap r.2 = <[0%nat := updated (Some ready) (Some "https://x/y.ply") cat]> (heap oneCat)
  /\ splatStatus <$> heap r.2 !! 0%nat = Some (Some ready)
  /\ dbPhotos r.2 = dbPhotos oneCat
  /\ notices r.2 = notices oneCat.
Proof.
  apply (updatePhotoSplatStatus_storage_fault broken "photo-1000-k3f9x2a" (Some ready)
           (Some "https://x/y.ply") oneCat 0%nat cat); reflexivity.
Defined.

Lemma dbGet_elem {A} (key : A -> string) k store v :
  dbGet key k store = Some v -> v ∈ store /\ key v = k.
Proof.
  unfold dbGet. destruct (list_find _ store) as [[i x]|] eqn:E; [|done].
  intros [= <-]. apply list_find_Some in E as (Hi & Hk & _).
  split; [by eapply list_elem_of_lookup_2|done].
Qed.

Lemma elem_of_selectedBy a d stored :
  d ∈ stored -> data_albumId d = a -> d ∈ selectedBy a stored.
Proof.
  intros Hd Ha. unfold selectedBy. case_bool_decide; [done|].
  by apply list_elem_of_filter.
Qed.

(** X20. A ready splat survives a reload. After
    [updatePhotoSplatStatus(id, 'ready', url)] with a non-empty url on a
    photo the store finds, and [switchAlbum] to that photo's album, no
    IndexedDB request failing, the photos in memory hold a photo with that
    id, the name and the content of the photo, the status ready and the
    url. *)
Theorem splat_survives_reload env photoId (u : string) w l p :
  reliable env ->
  findPhoto photoId w = Some l ->
  heap w !! l = Some p ->
  u <> EmptyString ->
  let w1 := (updatePhotoSplatStatus env photoId (Some ready) (Some u) w).2 in
  let r := switchAlbum env (albumId p) w1 in
  exists l' p',
    l' ∈ photos r.2 /\ heap r.2 !! l' = Some p'
    /\ id p' = photoId /\ name p' = name p /\ blob p' = blob p
    /\ splatStatus p' = Some ready /\ splatUrl p' = Some u.
Proof.
  intros Hrel Hfind Hp Hu w1 r.
  pose proof (findPhoto_Some _ _ _ Hfind) as (_ & p0 & Hp0 & Hid).
  assert (p0 = p) as -> by congruence.
  set (p1 := with_splatUrl (Some u) (with_splatStatus (Some ready) p)).
  assert (updated (Some ready) (Some u) p = p1) as Hup.
  { unfold updated. destruct u; [done|reflexivity]. }
  assert (dbPhotos w1 = dbPut data_id (photoDataOf p1) (dbPhotos w)) as Hdb.
  { subst w1. rewrite (updatePhotoSplatStatus_known env photoId _ _ w l p Hfind Hp).
    cbv zeta. rewrite Hrel, Hup. reflexivity. }
  assert (photoDataOf p1 ∈ selectedBy (albumId p) (dbPhotos w1)) as Hsel.
  { apply elem_of_selectedBy; [|done]. rewrite Hdb.
    eapply dbGet_elem. apply (dbGet_dbPut data_id (photoDataOf p1)). }
  subst r. rewrite switchAlbum_spec. cbv zeta. rewrite Hrel. fields.
  set (sel := selectedBy (albumId p) (dbPhotos w1)) in *.
  rewrite <- (photoDataOf_revivedFrom env (urlCalls w1) sel) in Hsel.
  apply list_elem_of_fmap in Hsel as (p' & Hd & Hin).
  apply list_elem_of_lookup in Hin as (i & Hi).
  exists (length (heap w1) + i)%nat, p'.
  split.
  { apply elem_of_seq. apply lookup_lt_Some in Hi. rewrite length_revivedFrom in Hi. lia. }
  split.
  { rewrite lookup_app_r by lia. rewrite <- Hi. f_equal. lia. }
  pose proof (f_equal data_id Hd) as H1. pose proof (f_equal data_name Hd) as H2.
  pose proof (f_equal data_blob Hd) as H3. pose proof (f_equal data_splatStatus Hd) as H4.
  pose proof (f_equal data_splatUrl Hd) as H5. subst p1.
  cbn [photoDataOf with_splatUrl with_splatStatus data_id data_name data_blob
       data_splatStatus data_splatUrl id name blob splatStatus splatUrl] in H1, H2, H3, H4, H5.
  repeat split; congruence.
Qed.

Lemma splat_survives_reload_witness :
  let w1 := (updatePhotoSplatStatus steady "photo-1000-k3f9x2a" (Some ready)
               (Some "https://x/y.ply") oneCat).2 in
  let r := switchAlbum steady (albumId cat) w1 in
  exists l' p',
    l' ∈ photos r.2 /\ heap r.2 !! l' = Some p'
    /\ id p' = "photo-1000-k3f9x2a" /\ name p' = name cat /\ blob p' = blob cat
    /\ splatStatus p' = Some ready /\ splatUrl p' = Some "https://x/y.ply".
Proof.
  apply (splat_survives_reload steady "photo-1000-k3f9x2a" "https://x/y.ply" oneCat 0%nat cat).
  - intros n. reflexivity.
  - reflexivity.
  - reflexivity.
  - discriminate.
Defined.

End PhotoServiceProofs.

(** ** generateSplatsForPhotos *)
Module AppProofs.
Import PhotoService App PhotoServiceSpec AppSpec PhotoServiceProofs.

Ltac app_fields :=
  cbn [store isGeneratingSplats readySplatsCount ui generations fst snd] in *.

Global Instance same_ids_po : PreOrder same_ids.
Proof.
  split.
  - intros s. by split.
  - intros s1 s2 s3 [H12 H12'] [H23 H23']. split; [congruence|].
    intros l. by rewrite H23', H12'.
Qed.

Global Instance advanced_po : PreOrder advanced.
Proof.
  split.
  - intros s. exists []. by rewrite app_nil_r.
  - intros s1 s2 s3 (ws & E & H) (ws' & E' & H'). exists (ws ++ ws'). split.
    + by rewrite E', E, app_assoc.
    + by apply Forall_app.
Qed.

Lemma same_ids_find s s' k : same_ids s s' -> findPhoto k s' = findPhoto k s.
Proof.
  intros [Hp Hid]. unfold findPhoto. rewrite Hp. f_equal.
  apply list_find_ext. intros l. unfold hasId. by rewrite Hid.
Qed.

Lemma same_ids_owns s s' l : same_ids s s' -> ownsId s l -> ownsId s' l.
Proof.
  intros Hs Ho p' Hp'. destruct Hs as [Hp Hid].
  pose proof (Hid l) as Hl. rewrite Hp' in Hl. simpl in Hl.
  destruct (heap s !! l) as [p|] eqn:E; simplify_eq/=.
  rewrite (same_ids_find s s') by done. rewrite Hl. by apply Ho.
Qed.

Lemma splatStatus_updated status u p : splatStatus (updated status u p) = status.
Proof. unfold updated. by destruct (truthy u). Qed.

(** A call of [updatePhotoSplatStatus] on a reliable store returns; it
    leaves the ids where they are and writes one status, or none if the id
    is unknown. *)
Lemma updatePhotoSplatStatus_reliable env pid status u s :
  reliable env ->
  exists s',
    updatePhotoSplatStatus env pid status u s = (Return tt, s')
    /\ same_ids s s'
    /\ match findPhoto pid s with
       | None => s' = s
       | Some l =>
           exists p, heap s !! l = Some p
                     /\ heap s' !! l = Some (updated status u p)
                     /\ statusWrites s' =
                          statusWrites s ++ [{| written_id := pid;
                                                status_before := splatStatus p;
                                                status_after := status |}]
       end.
Proof.
  intros Hrel. destruct (findPhoto pid s) as [l|] eqn:Hf.
  - destruct (findPhoto_Some _ _ _ Hf) as (Hin & p & Hp & Hid).
    rewrite (updatePhotoSplatStatus_known env pid status u s l p Hf Hp), Hrel.
    assert (l < length (heap s))%nat by (by eapply lookup_lt_Some).
    eexists. split; [done|]. cbn [heap photos statusWrites]. split.
    + split; [done|]. cbn [heap]. intros l'. destruct (decide (l' = l)) as [->|Hne].
      * rewrite list_lookup_insert_eq by done. rewrite Hp. cbn.
        unfold updated. by destruct (truthy u).
      * by rewrite list_lookup_insert_ne.
    + exists p. rewrite list_lookup_insert_eq by done. done.
  - rewrite updatePhotoSplatStatus_unknown by done. exists s. by repeat split.
Qed.

(** One round of the loop over the batch. *)
Lemma generateOne_forward env generation l w :
  reliable env ->
  ownsId (store w) l ->
  exists w', generateOne env generation l w = (Return tt, w')
             /\ same_ids (store w) (store w')
             /\ advanced (store w) (store w').
Proof.
  intros Hrel Hown. unfold generateOne. unfold bind at 1, gets at 1. cbn beta iota.
  destruct (heap (store w) !! l) as [p|] eqn:Hp; [|by exists w].
  case_bool_decide as Hpend; [by exists w|].
  specialize (Hown p Hp).
  destruct (updatePhotoSplatStatus_reliable env (id p) (Some processing) None (store w) Hrel)
    as (s1 & E1 & Hids1 & H1).
  unfold tryCatch, bind, liftStore, show, modify, generateSplatFromBlob, countReady, gets, ret.
  rewrite E1. app_fields.
  destruct (generation (generations w)) as [result|e]; app_fields.
  - destruct (updatePhotoSplatStatus_reliable env (id p) (Some ready)
                (Some (SharpService.plyUrl result)) s1 Hrel) as (s2 & E2 & Hids2 & H2).
    rewrite E2. eexists. split; [done|]. app_fields.
    split; [by etrans|].
    rewrite (same_ids_find (store w) s1) in H2 by done.
    destruct Hown as [Hown|Hown]; rewrite Hown in H1, H2.
    + destruct H1 as (p1 & Hp1 & Hp1' & Hw1), H2 as (p2 & Hp2 & Hp2' & Hw2).
      assert (p1 = p) as -> by congruence.
      assert (p2 = updated (Some processing) None p) as -> by congruence.
      rewrite splatStatus_updated in Hw2.
      eexists [_; _]. split; [by rewrite Hw2, Hw1, <- app_assoc|].
      apply Forall_cons. split; [left; by rewrite Hpend|].
      apply Forall_cons. split; [right; cbn; eauto|constructor].
    + subst. reflexivity.
  - destruct (updatePhotoSplatStatus_reliable env (id p) (Some failed) None s1 Hrel)
      as (s2 & E2 & Hids2 & H2).
    rewrite E2. eexists. split; [done|]. app_fields.
    split; [by etrans|].
    rewrite (same_ids_find (store w) s1) in H2 by done.
    destruct Hown as [Hown|Hown]; rewrite Hown in H1, H2.
    + destruct H1 as (p1 & Hp1 & Hp1' & Hw1), H2 as (p2 & Hp2 & Hp2' & Hw2).
      assert (p1 = p) as -> by congruence.
      assert (p2 = updated (Some processing) None p) as -> by congruence.
      rewrite splatStatus_updated in Hw2.
      eexists [_; _]. split; [by rewrite Hw2, Hw1, <- app_assoc|].
      apply Forall_cons. split; [left; by rewrite Hpend|].
      apply Forall_cons. split; [right; cbn; eauto|constructor].
    + subst. reflexivity.
Qed.

Lemma forEach_forward env generation batch : forall w,
  reliable env ->
  (forall l, l ∈ batch -> ownsId (store w) l) ->
  exists w', forEach (generateOne env generation) batch w = (Return tt, w')
             /\ same_ids (store w) (store w')
             /\ advanced (store w) (store w').
Proof.
  induction batch as [|l batch IH]; intros w Hrel Hown; cbn [forEach].
  - exists w. done.
  - destruct (generateOne_forward env generation l w Hrel) as (w1 & E1 & Hids1 & Hadv1).
    { apply Hown. by left. }
    unfold bind. rewrite E1.
    destruct (IH w1 Hrel) as (w2 & E2 & Hids2 & Hadv2).
    { intros l' Hl'. eapply same_ids_owns; [done|]. apply Hown. by right. }
    exists w2. rewrite E2. split; [done|]. split; by etrans.
Qed.

(** *** When persisting fails *)

Global Instance settled_po : PreOrder settled.
Proof.
  split.
  - intros s. exists []. by rewrite app_nil_r.
  - intros s1 s2 s3 (ws & E & H) (ws' & E' & H'). exists (ws ++ ws'). split.
    + by rewrite E', E, app_assoc.
    + by apply Forall_app.
Qed.

Lemma updatePhotoSplatStatus_any env pid status u s :
  exists o s',
    updatePhotoSplatStatus env pid status u s = (o, s')
    /\ same_ids s s'
    /\ match findPhoto pid s with
       | None => s' = s
       | Some l =>
           exists p, heap s !! l = Some p
                     /\ heap s' !! l = Some (updated status u p)
                     /\ statusWrites s' =
                          statusWrites s ++ [{| written_id := pid;
                                                status_before := splatStatus p;
                                                status_after := status |}]
       end.
Proof.
  destruct (findPhoto pid s) as [l|] eqn:Hf.
  - destruct (findPhoto_Some _ _ _ Hf) as (Hin & p & Hp & Hid).
    rewrite (updatePhotoSplatStatus_known env pid status u s l p Hf Hp).
    assert (l < length (heap s))%nat by (by eapply lookup_lt_Some).
    assert (forall l', id <$> <[l:=updated status u p]> (heap s) !! l' = id <$> heap s !! l')
      as Hids.
    { intros l'. destruct (decide (l' = l)) as [->|Hne].
      - rewrite list_lookup_insert_eq by done. rewrite Hp. cbn.
        unfold updated. by destruct (truthy u).
      - by rewrite list_lookup_insert_ne. }
    destruct (dbFault _); eexists _, _; (split; [done|]);
      cbn [heap photos statusWrites]; (split; [by split|]);
      exists p; rewrite list_lookup_insert_eq by done; done.
  - rewrite updatePhotoSplatStatus_unknown by done. exists (Return tt), s. by repeat split.
Qed.

(** The [catch] clause of [generateOne] on a photo that the store finds and
    whose status is [st]. *)
Lemma handler_settles env (p : Photo) l st w q :
  findPhoto (id p) (store w) = Some l ->
  heap (store w) !! l = Some q ->
  splatStatus q = Some st ->
  st = processing \/ st = ready ->
  exists o w',
    liftStore (updatePhotoSplatStatus env (id p) (Some failed) None) w = (o, w')
    /\ same_ids (store w) (store w')
    /\ settled (store w) (store w').
Proof.
  intros Hf Hq Hst Hcase. unfold liftStore.
  destruct (updatePhotoSplatStatus_any env (id p) (Some failed) None (store w))
    as (o & s' & E & Hids & H).
  rewrite E. eexists _, _. split; [done|]. cbn [store]. split; [done|].
  rewrite Hf in H. destruct H as (q' & Hq' & _ & Hw).
  assert (q' = q) as -> by congruence.
  eexists [_]. split; [exact Hw|]. apply Forall_cons. split; [|constructor].
  cbn. rewrite Hst. destruct Hcase as [-> | ->]; [left; right; eauto | right; eauto].
Qed.

Lemma forward_settles b a : forward b a -> settles b a.
Proof. by left. Qed.

Lemma generateOne_settles env generation l w :
  ownsId (store w) l ->
  exists o w', generateOne env generation l w = (o, w')
               /\ same_ids (store w) (store w')
               /\ settled (store w) (store w').
Proof.
  intros Hown. unfold generateOne. unfold bind at 1, gets at 1. cbn beta iota.
  destruct (heap (store w) !! l) as [p|] eqn:Hp; [|by exists (Return tt), w].
  case_bool_decide as Hpend; [by exists (Return tt), w|].
  specialize (Hown p Hp).
  destruct (updatePhotoSplatStatus_any env (id p) (Some processing) None (store w))
    as (o1 & s1 & E1 & Hids1 & H1).
  destruct Hown as [Hown|Hown]; rewrite Hown in H1.
  - (* the store finds the photo *)
    destruct H1 as (p1 & Hp1 & Hp1' & Hw1).
    assert (p1 = p) as -> by congruence. rewrite Hpend in Hw1.
    assert (settled (store w) s1) as Hset1.
    { eexists [_]. split; [exact Hw1|]. apply Forall_cons. split; [|constructor].
      left. left. done. }
    assert (findPhoto (id p) s1 = Some l) as Hf1 by (by rewrite (same_ids_find (store w) s1)).
    unfold tryCatch. unfold bind at 1. unfold liftStore at 1. rewrite E1.
    destruct o1 as [[]|e1].
    + unfold bind at 1, show at 1, modify at 1. cbn beta iota.
      unfold bind at 1, generateSplatFromBlob at 1. cbn beta iota.
      destruct (generation _) as [result|e].
      * unfold bind at 1.
        destruct (updatePhotoSplatStatus_any env (id p) (Some ready)
                    (Some (SharpService.plyUrl result)) s1) as (o2 & s2 & E2 & Hids2 & H2).
        rewrite Hf1 in H2. destruct H2 as (p2 & Hp2 & Hp2' & Hw2).
        assert (p2 = updated (Some processing) None p) as -> by congruence.
        rewrite splatStatus_updated in Hw2.
        assert (settled s1 s2) as Hset2.
        { eexists [_]. split; [exact Hw2|]. apply Forall_cons. split; [|constructor].
          left. right. cbn. eauto. }
        unfold liftStore at 1. app_fields. rewrite E2.
        destruct o2 as [[]|e2].
        -- unfold bind, show, countReady, modify, gets, ret. app_fields.
           eexists _, _. split; [done|]. app_fields. split; by etrans.
        -- unfold bind at 1, show at 1, modify at 1. cbn beta iota.
           match goal with |- context [liftStore _ ?w0] =>
             destruct (handler_settles env p l ready w0 _
                         ltac:(app_fields; by rewrite (same_ids_find s1 s2))
                         ltac:(app_fields; exact Hp2')
                         ltac:(apply splatStatus_updated) ltac:(by right))
               as (o3 & w3 & E3 & Hids3 & Hset3) end.
           rewrite E3. app_fields. eexists _, _. split; [done|].
           split; [by do 2 (etrans; [done|]) | by do 2 (etrans; [done|])].
      * unfold bind at 1, show at 1, modify at 1. cbn beta iota.
        match goal with |- context [liftStore _ ?w0] =>
          destruct (handler_settles env p l processing w0 _
                      ltac:(app_fields; exact Hf1) ltac:(app_fields; exact Hp1')
                      ltac:(apply splatStatus_updated) ltac:(by left))
            as (o3 & w3 & E3 & Hids3 & Hset3) end.
        rewrite E3. app_fields. eexists _, _. split; [done|].
        split; by etrans.
    + unfold bind at 1, show at 1, modify at 1. cbn beta iota.
      match goal with |- context [liftStore _ ?w0] =>
        destruct (handler_settles env p l processing w0 _
                    ltac:(app_fields; exact Hf1) ltac:(app_fields; exact Hp1')
                    ltac:(apply splatStatus_updated) ltac:(by left))
          as (o3 & w3 & E3 & Hids3 & Hset3) end.
      rewrite E3. app_fields. eexists _, _. split; [done|].
      split; by etrans.
  - (* the store has no photo of that id: every update is a no-op *)
    subst s1. rewrite (updatePhotoSplatStatus_unknown _ _ _ _ _ Hown) in E1.
    injection E1 as <-.
    unfold tryCatch, bind, liftStore, show, modify, generateSplatFromBlob, countReady, gets, ret.
    rewrite !(updatePhotoSplatStatus_unknown _ _ _ _ _ Hown). app_fields.
    destruct (generation (generations w)) as [result|e]; app_fields;
      rewrite ?(updatePhotoSplatStatus_unknown _ _ _ _ _ Hown); app_fields;
      eexists _, _; (split; [done|]); app_fields; split; reflexivity.
Qed.

Lemma forEach_settles env generation batch : forall w,
  (forall l, l ∈ batch -> ownsId (store w) l) ->
  exists o w', forEach (generateOne env generation) batch w = (o, w')
               /\ same_ids (store w) (store w')
               /\ settled (store w) (store w').
Proof.
  induction batch as [|l batch IH]; intros w Hown; cbn [forEach].
  - exists (Return tt), w. done.
  - destruct (generateOne_settles env generation l w) as (o1 & w1 & E1 & Hids1 & Hset1).
    { apply Hown. by left. }
    unfold bind. rewrite E1. destruct o1 as [[]|e]; [|by eexists _, _].
    destruct (IH w1) as (o2 & w2 & E2 & Hids2 & Hset2).
    { intros l' Hl'. eapply same_ids_owns; [done|]. apply Hown. by right. }
    exists o2, w2. rewrite E2. split; [done|]. split; by etrans.
Qed.

(** C5, amended. [updatePhotoSplatStatus] itself assigns whatever status it
    is given; the order pending, processing, then ready or failed is kept by
    [generateSplatsForPhotos]. When every photo of the batch is the photo the
    store finds under its id (or the store finds none), each assignment to
    [splatStatus] made during the call takes a photo from pending to
    processing, from processing to ready or failed, or from ready to failed,
    never back; and when no IndexedDB request fails the call returns and
    none of its assignments is the step from ready to failed. *)
Theorem generateSplatsForPhotos_forward env generation batch w :
  (forall l p, l ∈ batch -> heap (store w) !! l = Some p ->
     findPhoto (id p) (store w) = Some l \/ findPhoto (id p) (store w) = None) ->
  let r := generateSplatsForPhotos env generation batch w in
  exists ws,
    statusWrites (store r.2) = statusWrites (store w) ++ ws
    /\ Forall (fun wr =>
         (status_before wr = Some pending /\ status_after wr = Some processing)
         \/ (status_before wr = Some processing
             /\ (status_after wr = Some ready \/ status_after wr = Some failed))
         \/ (status_before wr = Some ready /\ status_after wr = Some failed)) ws
    /\ (reliable env ->
        r.1 = Return tt
        /\ Forall (fun wr =>
             (status_before wr = Some pending /\ status_after wr = Some processing)
             \/ (status_before wr = Some processing
                 /\ (status_after wr = Some ready \/ status_after wr = Some failed))) ws).
Proof.
  intros Hown r.
  assert (exists o w', r = (o, w') /\ settled (store w) (store w')
                       /\ (reliable env -> o = Return tt /\ advanced (store w) (store w')))
    as (o & w' & -> & (ws & Hws & Hall) & Hrel).
  { subst r. unfold generateSplatsForPhotos.
    unfold bind at 1, gets at 1. cbn beta iota.
    destruct (isGeneratingSplats w) eqn:Hbusy.
    { exists (Return tt), w. split; [done|]. split; [reflexivity|]. intros _.
      split; [done|reflexivity]. }
    unfold bind at 1, setGenerating at 1, modify at 1. cbn beta iota.
    unfold bind at 1.
    match goal with |- context [forEach _ _ ?w0] =>
      destruct (forEach_settles env generation batch w0) as (o1 & w1 & E1 & _ & Hset);
        [intros l Hl p Hp; by apply Hown|];
      pose proof (fun Hrel => forEach_forward env generation batch w0 Hrel
                    ltac:(intros l Hl p Hp; by apply Hown)) as Hfwd end.
    rewrite E1 in Hfwd |- *. app_fields.
    destruct o1 as [[]|e].
    - unfold bind, setGenerating, show, modify, ret. app_fields.
      eexists _, _. split; [done|]. app_fields. split; [exact Hset|].
      intros Hrel. destruct (Hfwd Hrel) as (w2 & [= <-] & _ & Hadv). done.
    - eexists _, _. split; [done|]. split; [exact Hset|].
      intros Hrel. by destruct (Hfwd Hrel) as (w2 & [=] & _). }
  exists ws. cbn [fst snd]. split; [done|]. split.
  - eapply Forall_impl; [exact Hall|]. cbv beta. unfold settles, forward. tauto.
  - intros Hr. destruct (Hrel Hr) as (-> & ws' & Hws' & Hall'). split; [done|].
    rewrite Hws in Hws'. apply app_inv_head in Hws'. by subst ws'.
Qed.

Lemma generateSplatsForPhotos_forward_witness :
  let r := generateSplatsForPhotos steady firstSucceeds [0; 1]%nat uploaded in
  exists ws,
    statusWrites (store r.2) = statusWrites (store uploaded) ++ ws
    /\ Forall (fun wr =>
         (status_before wr = Some pending /\ status_after wr = Some processing)
         \/ (status_before wr = Some processing
             /\ (status_after wr = Some ready \/ status_after wr = Some failed))
         \/ (status_before wr = Some ready /\ status_after wr = Some failed)) ws
    /\ (reliable steady ->
        r.1 = Return tt
        /\ Forall (fun wr =>
             (status_before wr = Some pending /\ status_after wr = Some processing)
             \/ (status_before wr = Some processing
                 /\ (status_after wr = Some ready \/ status_after wr = Some failed))) ws).
Proof.
  apply (generateSplatsForPhotos_forward steady firstSucceeds [0; 1]%nat uploaded).
  intros l p Hl Hp. left.
  apply elem_of_cons in Hl as [->|Hl]; [|apply elem_of_cons in Hl as [->|Hl]];
    [| |by apply elem_of_nil in Hl];
    vm_compute in Hp; injection Hp as <-; vm_compute; reflexivity.
Defined.

(** The premise on the batch holds when its photos are in memory and no two
    photos in memory share an id. *)
Lemma distinct_ids_own s batch :
  NoDup (id <$> objects s (photos s)) ->
  batch ⊆ photos s ->
  forall l p, l ∈ batch -> heap s !! l = Some p ->
    findPhoto (id p) s = Some l \/ findPhoto (id p) s = None.
Proof.
  intros Hnd Hsub l p Hl Hp. left.
  assert (l ∈ photos s) as Hin by (by apply Hsub).
  clear Hsub Hl. unfold findPhoto, objects in *.
  induction (photos s) as [|a ps IH]; [by apply elem_of_nil in Hin|].
  cbn [list_find].
  destruct (decide (a = l)) as [->|Hne].
  - rewrite decide_True; [done|]. unfold hasId. by rewrite Hp.
  - apply elem_of_cons in Hin as [->|Hin]; [done|].
    cbn [omap list_omap] in Hnd.
    assert (NoDup (id <$> omap (fun l0 => heap s !! l0) ps)) as Hnd'.
    { destruct (heap s !! a); [|done]. cbn in Hnd. by apply NoDup_cons in Hnd as [_ ?]. }
    specialize (IH Hnd' Hin).
    rewrite decide_False.
    + destruct (list_find _ ps) as [[i x]|]; cbn in *; congruence.
    + unfold hasId. intros Ha.
      destruct (heap s !! a) as [q|] eqn:Hq; [|done]. cbn in Ha, Hnd.
      apply NoDup_cons in Hnd as [Hnotin _]. apply Hnotin.
      injection Ha as ->. apply list_elem_of_fmap. exists p. split; [done|].
      apply list_elem_of_omap. eauto.
Qed.

(** Of two uploaded photos the first becomes ready with its splat URL, the
    second, whose generation times out, failed. *)
Example generateSplatsForPhotos_run :
  let r := generateSplatsForPhotos steady firstSucceeds [0; 1]%nat uploaded in
  (fun p => (name p, splatStatus p, splatUrl p)) <$>
    objects (store r.2) (photos (store r.2))
  = [("cat.jpg", Some ready, Some "https://x/y.ply"); ("dog.png", Some failed, None)]
  /\ (fun wr => (status_before wr, status_after wr)) <$> statusWrites (store r.2)
     = [(Some pending, Some processing); (Some processing, Some ready);
        (Some pending, Some processing); (Some processing, Some failed)]
  /\ isGeneratingSplats r.2 = false.
Proof. vm_compute. repeat split. Qed.

(** The same batch when the request that persists the first photo as ready
    fails: the [catch] clause marks the photo, ready in memory, as failed. *)
Example generateSplatsForPhotos_storage_fault :
  let r := generateSplatsForPhotos (failingAt 6) firstSucceeds [0; 1]%nat uploaded in
  r.1 = Return tt
  /\ (fun p => (name p, splatStatus p, splatUrl p)) <$>
       objects (store r.2) (photos (store r.2))
     = [("cat.jpg", Some failed, Some "https://x/y.ply"); ("dog.png", Some failed, None)]
  /\ (fun wr => (status_before wr, status_after wr)) <$> statusWrites (store r.2)
     = [(Some pending, Some processing); (Some processing, Some ready);
        (Some ready, Some failed);
        (Some pending, Some processing); (Some processing, Some failed)].
Proof. vm_compute. repeat split. Qed.

(** ** The rest of main.ts: the busy flag, the counter and the reload *)

Lemma addedSplats_app evs evs' : addedSplats (evs ++ evs') = addedSplats evs ++ addedSplats evs'.
Proof. apply omap_app. Qed.

Global Instance bookkeeping_po : PreOrder bookkeeping.
Proof.
  split.
  - intros w. split; [done|]. exists []. rewrite app_nil_r. cbn. split; [done|]. lia.
  - intros w1 w2 w3 (Hf & evs & Hu & Hc & Hg) (Hf' & evs' & Hu' & Hc' & Hg').
    split; [congruence|]. exists (evs ++ evs').
    rewrite addedSplats_app, length_app. split; [by rewrite Hu', Hu, app_assoc|]. lia.
Qed.

(** The events [evs] account for a step. *)
Ltac bookkeep evs :=
  split; [reflexivity|]; exists evs; app_fields;
  split; [rewrite <- ?app_assoc; reflexivity|];
  unfold addedSplats; cbn [omap list_omap length]; lia.

Lemma generateOne_bookkeeping env generation l w :
  bookkeeping w (generateOne env generation l w).2.
Proof.
  unfold generateOne. unfold bind at 1, gets at 1. cbn beta iota.
  destruct (heap (store w) !! l) as [p|]; [|reflexivity].
  case_bool_decide; [reflexivity|].
  unfold tryCatch, bind, liftStore, show, countReady, modify, generateSplatFromBlob, gets, ret.
  destruct w as [s busy n u g]. app_fields.
  destruct (updatePhotoSplatStatus env (id p) (Some processing) None s) as [[[]|e1] s1];
    app_fields.
  - destruct (generation g) as [result|e]; app_fields.
    + destruct (updatePhotoSplatStatus env (id p) (Some ready) _ s1) as [[[]|e2] s2];
        app_fields.
      * bookkeep [ShowStatus ("Converting " +:+ dquote +:+ name p +:+ dquote +:+ " to 3D...") true;
                  ConsoleLog ("[App] Splat ready: " +:+ SharpService.plyUrl result);
                  AddSplat (id p) (SharpService.plyUrl result);
                  ConsoleLog ("[App] " +:+ pretty (S n) +:+ " splats ready")].
      * destruct (updatePhotoSplatStatus env (id p) (Some failed) None s2) as [o3 s3];
          app_fields.
        bookkeep [ShowStatus ("Converting " +:+ dquote +:+ name p +:+ dquote +:+ " to 3D...") true;
                  ConsoleError ("[App] Splat generation failed for " +:+ name p +:+ ":")].
    + destruct (updatePhotoSplatStatus env (id p) (Some failed) None s1) as [o3 s3];
        app_fields.
      bookkeep [ShowStatus ("Converting " +:+ dquote +:+ name p +:+ dquote +:+ " to 3D...") true;
                ConsoleError ("[App] Splat generation failed for " +:+ name p +:+ ":")].
  - destruct (updatePhotoSplatStatus env (id p) (Some failed) None s1) as [o3 s3];
      app_fields.
    bookkeep [ConsoleError ("[App] Splat generation failed for " +:+ name p +:+ ":")].
Qed.

Lemma forEach_bookkeeping env generation batch : forall w,
  bookkeeping w (forEach (generateOne env generation) batch w).2.
Proof.
  induction batch as [|l batch IH]; intros w; cbn [forEach]; [reflexivity|].
  unfold bind. pose proof (generateOne_bookkeeping env generation l w) as H1.
  destruct (generateOne _ _ _ _) as [[[]|e] w1]; cbn [snd] in *; [|done].
  etrans; [exact H1|apply IH].
Qed.

Lemma generateOne_generations env generation l w :
  (generations (generateOne env generation l w).2 <= S (generations w))%nat.
Proof.
  unfold generateOne. unfold bind at 1, gets at 1. cbn beta iota.
  destruct (heap (store w) !! l) as [p|]; [|cbn; lia].
  case_bool_decide; [cbn; lia|].
  unfold tryCatch, bind, liftStore, show, countReady, modify, generateSplatFromBlob, gets, ret.
  destruct w as [s busy n u g]. app_fields.
  destruct (updatePhotoSplatStatus env (id p) (Some processing) None s) as [[[]|e1] s1];
    app_fields.
  - destruct (generation g) as [result|e]; app_fields.
    + destruct (updatePhotoSplatStatus env (id p) (Some ready) _ s1) as [[[]|e2] s2];
        app_fields; [lia|].
      destruct (updatePhotoSplatStatus env (id p) (Some failed) None s2) as [o3 s3];
        app_fields; lia.
    + destruct (updatePhotoSplatStatus env (id p) (Some failed) None s1) as [o3 s3];
        app_fields; lia.
  - destruct (updatePhotoSplatStatus env (id p) (Some failed) None s1) as [o3 s3];
      app_fields; lia.
Qed.

Lemma forEach_generations env generation batch : forall w,
  (generations (forEach (generateOne env generation) batch w).2
   <= generations w + length batch)%nat.
Proof.
  induction batch as [|l batch IH]; intros w; cbn [forEach length]; [cbn; lia|].
  unfold bind. pose proof (generateOne_generations env generation l w) as H1.
  destruct (generateOne _ _ _ _) as [[[]|e] w1]; cbn [snd] in *; [|lia].
  specialize (IH w1). lia.
Qed.

(** What [generateSplatsForPhotos] does around the loop. *)
Lemma generateSplatsForPhotos_spec env generation batch w :
  isGeneratingSplats w = false ->
  generateSplatsForPhotos env generation batch w =
    match forEach (generateOne env generation) batch
            (mkWorld (store w) true (readySplatsCount w) (ui w) (generations w)) with
    | (Return _, w1) =>
        (Return tt,
         mkWorld (store w1) false (readySplatsCount w1)
           (ui w1 ++ [ShowStatus "All memories converted to 3D!" false; HideStatusAfter 3000])
           (generations w1))
    | (Throw e, w1) => (Throw e, w1)
    end.
Proof.
  intros Hidle. unfold generateSplatsForPhotos. unfold bind at 1, gets at 1. rewrite Hidle.
  unfold bind at 1, setGenerating at 1, modify at 1. unfold bind at 1.
  destruct (forEach _ _ _) as [[[]|e] w1]; [|done].
  unfold bind, setGenerating, show, modify. app_fields. by rewrite <- app_assoc.
Qed.

(** X21. The busy flag of [generateSplatsForPhotos], called while the app
    is not busy. If the call returns, the flag is down again and the last
    two things the page saw are the status line
    [All memories converted to 3D!] and the timer that hides it. If the
    call throws, which it does when the [catch] clause of a photo throws in
    its turn, the flag stays up, there being no [finally]: every later call
    returns at once and does nothing, whatever its batch. *)
Theorem generateSplatsForPhotos_flag env generation batch w :
  isGeneratingSplats w = false ->
  let r := generateSplatsForPhotos env generation batch w in
  match r.1 with
  | Return _ =>
      isGeneratingSplats r.2 = false
      /\ exists evs, ui r.2 = ui w ++ evs ++ [ShowStatus "All memories converted to 3D!" false;
                                              HideStatusAfter 3000]
  | Throw _ =>
      isGeneratingSplats r.2 = true
      /\ forall batch', generateSplatsForPhotos env generation batch' r.2 = (Return tt, r.2)
  end.
Proof.
  intros Hidle r. subst r. rewrite generateSplatsForPhotos_spec by done.
  match goal with |- context [forEach _ _ ?w0] =>
    pose proof (forEach_bookkeeping env generation batch w0) as (Hf & evs & Hu & _) end.
  destruct (forEach _ _ _) as [[[]|e] w1]; app_fields.
  - split; [done|]. exists evs. by rewrite Hu, <- app_assoc.
  - split; [done|]. intros batch'. unfold generateSplatsForPhotos, bind, gets. by rewrite Hf.
Qed.

Lemma generateSplatsForPhotos_flag_witness :
  let r := generateSplatsForPhotos (failingAt 8) firstSucceeds [0; 1]%nat uploaded in
  match r.1 with
  | Return _ =>
      isGeneratingSplats r.2 = false
      /\ exists evs, ui r.2 = ui uploaded ++ evs
                       ++ [ShowStatus "All memories converted to 3D!" false;
                           HideStatusAfter 3000]
  | Throw _ =>
      isGeneratingSplats r.2 = true
      /\ forall batch',
           generateSplatsForPhotos (failingAt 8) firstSucceeds batch' r.2 = (Return tt, r.2)
  end.
Proof.
  apply (generateSplatsForPhotos_flag (failingAt 8) firstSucceeds [0; 1]%nat uploaded).
  reflexivity.
Defined.

(** X22. The counter of ready splats. Whatever the environment does and
    however the call ends, [generateSplatsForPhotos] raises
    [readySplatsCount] by exactly the number of splats it hands to the
    canvas, each of them after a generation of its own, and it starts at
    most one generation for each photo of the batch. *)
Theorem ready_count_matches_splats env generation batch w :
  let r := generateSplatsForPhotos env generation batch w in
  exists evs,
    ui r.2 = ui w ++ evs
    /\ readySplatsCount r.2 = (readySplatsCount w + length (addedSplats evs))%nat
    /\ (generations w + length (addedSplats evs) <= generations r.2)%nat
    /\ (generations r.2 <= generations w + length batch)%nat.
Proof.
  intros r. subst r. destruct (isGeneratingSplats w) eqn:Hbusy.
  - unfold generateSplatsForPhotos, bind, gets, ret. rewrite Hbusy. cbn [fst snd].
    exists []. rewrite app_nil_r. cbn. repeat split; lia.
  - rewrite generateSplatsForPhotos_spec by done.
    match goal with |- context [forEach _ _ ?w0] =>
      pose proof (forEach_bookkeeping env generation batch w0) as (_ & evs & Hu & Hc & Hg);
      pose proof (forEach_generations env generation batch w0) as Hb end.
    destruct (forEach _ _ _) as [[[]|e] w1]; app_fields.
    + exists (evs ++ [ShowStatus "All memories converted to 3D!" false; HideStatusAfter 3000]).
      rewrite addedSplats_app, length_app.
      change (addedSplats [ShowStatus "All memories converted to 3D!" false;
                           HideStatusAfter 3000]) with (@nil (string * string)).
      cbn [length]. split; [by rewrite Hu, <- app_assoc|]. lia.
    + exists evs. split; [done|]. lia.
Qed.

Lemma forEach_skips env generation batch w :
  (forall l p, l ∈ batch -> heap (store w) !! l = Some p -> splatStatus p <> Some pending) ->
  forEach (generateOne env generation) batch w = (Return tt, w).
Proof.
  induction batch as [|l batch IH]; intros Hskip; cbn [forEach]; [done|].
  unfold bind. assert (generateOne env generation l w = (Return tt, w)) as ->.
  { unfold generateOne. unfold bind, gets. cbn beta iota.
    destruct (heap (store w) !! l) as [p|] eqn:Hp; [|done].
    rewrite bool_decide_true; [done|]. eapply Hskip; [by left|done]. }
  apply IH. intros l' p Hl'. apply Hskip. by right.
Qed.

(** X23. A batch without a pending photo (the empty batch included),
    given to an app that is not busy: no photo is touched, no generation is
    started, no database request is made, and the page is told all the same
    that all memories are converted. *)
Theorem generateSplatsForPhotos_skips env generation batch w :
  isGeneratingSplats w = false ->
  (forall l p, l ∈ batch -> heap (store w) !! l = Some p -> splatStatus p <> Some pending) ->
  generateSplatsForPhotos env generation batch w =
    (Return tt,
     mkWorld (store w) false (readySplatsCount w)
       (ui w ++ [ShowStatus "All memories converted to 3D!" false; HideStatusAfter 3000])
       (generations w)).
Proof.
  intros Hidle Hskip. rewrite generateSplatsForPhotos_spec by done.
  by rewrite forEach_skips.
Qed.

Lemma generateSplatsForPhotos_skips_witness :
  generateSplatsForPhotos steady firstSucceeds [0%nat] converting =
    (Return tt,
     mkWorld (store converting) false (readySplatsCount converting)
       (ui converting ++ [ShowStatus "All memories converted to 3D!" false;
                          HideStatusAfter 3000])
       (generations converting)).
Proof.
  apply (generateSplatsForPhotos_skips steady firstSucceeds [0%nat] converting).
  - reflexivity.
  - intros l p Hl Hp. apply list_elem_of_singleton in Hl as ->.
    vm_compute in Hp. injection Hp as <-. discriminate.
Defined.

Global Instance converted_po batch : PreOrder (converted batch).
Proof.
  split.
  - intros s. split; [reflexivity|]. intros l p Hp. exists p. auto.
  - intros s1 s2 s3 [Hi H] [Hi' H']. split; [by etrans|].
    intros l p Hp. destruct (H l p Hp) as (p' & Hp' & Hs).
    destruct (H' l p' Hp') as (p'' & Hp'' & Hs'). exists p''. split; [done|].
    destruct Hs as [Hs|(Hb & Hpend & Hs)].
    + rewrite Hs in Hs'. destruct Hs' as [Hs'|(? & ? & ?)]; [left; congruence|right; done].
    + destruct Hs' as [Hs'|(_ & Hpend' & _)].
      * right. rewrite Hs'. done.
      * destruct Hs as [Hs|Hs]; congruence.
Qed.

Lemma same_ids_findsItself s s' l : same_ids s s' -> findsItself s l -> findsItself s' l.
Proof.
  intros Hs Ho p' Hp'. pose proof Hs as [_ Hid].
  pose proof (Hid l) as Hl. rewrite Hp' in Hl. simpl in Hl.
  destruct (heap s !! l) as [p|] eqn:E; simplify_eq/=.
  rewrite (same_ids_find s s') by done. rewrite Hl. by apply Ho.
Qed.

(** A reliable update of a photo the store finds writes that object and no
    other. *)
Lemma updatePhotoSplatStatus_writes env pid status u s l p :
  reliable env ->
  findPhoto pid s = Some l ->
  heap s !! l = Some p ->
  exists s',
    updatePhotoSplatStatus env pid status u s = (Return tt, s')
    /\ same_ids s s'
    /\ heap s' = <[l := updated status u p]> (heap s).
Proof.
  intros Hrel Hf Hp.
  destruct (updatePhotoSplatStatus_reliable env pid status u s Hrel) as (s' & E & Hids & _).
  exists s'. split; [done|]. split; [done|].
  rewrite (updatePhotoSplatStatus_known env pid status u s l p Hf Hp), Hrel in E.
  by injection E as <-.
Qed.

Lemma generateOne_converts env generation batch l w :
  reliable env ->
  l ∈ batch ->
  findsItself (store w) l ->
  exists w',
    generateOne env generation l w = (Return tt, w')
    /\ converted batch (store w) (store w')
    /\ forall p', heap (store w') !! l = Some p' -> splatStatus p' <> Some pending.
Proof.
  intros Hrel Hin Hown. unfold generateOne. unfold bind at 1, gets at 1. cbn beta iota.
  destruct (heap (store w) !! l) as [p|] eqn:Hp.
  2:{ exists w. split; [done|]. split; [reflexivity|]. intros p'. by rewrite Hp. }
  case_bool_decide as Hpend.
  { exists w. split; [done|]. split; [reflexivity|]. intros p'. rewrite Hp. by intros [= <-]. }
  assert (l < length (heap (store w)))%nat as Hlen by (by eapply lookup_lt_Some).
  destruct (updatePhotoSplatStatus_writes env (id p) (Some processing) None (store w) l p)
    as (s1 & E1 & Hids1 & Hh1); [done|by apply Hown|done|].
  assert (findPhoto (id p) s1 = Some l) as Hf1.
  { rewrite (same_ids_find (store w) s1) by done. by apply Hown. }
  assert (heap s1 !! l = Some (updated (Some processing) None p)) as Hp1.
  { rewrite Hh1. by apply list_lookup_insert_eq. }
  assert (forall st u s2,
    heap s2 = <[l := updated st u (updated (Some processing) None p)]> (heap s1) ->
    same_ids s1 s2 ->
    st = Some ready \/ st = Some failed ->
    converted batch (store w) s2
    /\ forall p', heap s2 !! l = Some p' -> splatStatus p' <> Some pending) as Hfinal.
  { intros st u s2 Hh2 Hids2 Hst. rewrite Hh1, list_insert_insert_eq in Hh2. split.
    - split; [by etrans|]. intros l' q Hq. rewrite Hh2.
      destruct (decide (l' = l)) as [->|Hne].
      + rewrite list_lookup_insert_eq by done. eexists. split; [done|].
        rewrite splatStatus_updated. right. assert (q = p) as -> by congruence.
        destruct Hst as [-> | ->]; auto.
      + rewrite list_lookup_insert_ne by done. eauto.
    - intros p'. rewrite Hh2, list_lookup_insert_eq by done. intros [= <-].
      rewrite splatStatus_updated. destruct Hst as [-> | ->]; discriminate. }
  unfold tryCatch, bind, liftStore, show, countReady, modify, generateSplatFromBlob, gets, ret.
  rewrite E1. app_fields.
  destruct (generation (generations w)) as [result|e]; app_fields.
  - destruct (updatePhotoSplatStatus_writes env (id p) (Some ready)
                (Some (SharpService.plyUrl result)) s1 l _ Hrel Hf1 Hp1)
      as (s2 & E2 & Hids2 & Hh2).
    rewrite E2. eexists. split; [done|]. app_fields. eapply Hfinal; eauto.
  - destruct (updatePhotoSplatStatus_writes env (id p) (Some failed) None s1 l _ Hrel Hf1 Hp1)
      as (s2 & E2 & Hids2 & Hh2).
    rewrite E2. eexists. split; [done|]. app_fields. eapply Hfinal; eauto.
Qed.

Lemma forEach_converts env generation batch todo : forall w,
  reliable env ->
  todo ⊆ batch ->
  (forall l, l ∈ todo -> findsItself (store w) l) ->
  exists w',
    forEach (generateOne env generation) todo w = (Return tt, w')
    /\ converted batch (store w) (store w')
    /\ forall l p', l ∈ todo -> heap (store w') !! l = Some p' ->
         splatStatus p' <> Some pending.
Proof.
  induction todo as [|l todo IH]; intros w Hrel Hsub Hown; cbn [forEach].
  - exists w. split; [done|]. split; [reflexivity|]. intros l p' Hl. by apply elem_of_nil in Hl.
  - destruct (generateOne_converts env generation batch l w Hrel) as (w1 & E1 & Hc1 & Hd1).
    { apply Hsub. by left. }
    { apply Hown. by left. }
    unfold bind. rewrite E1.
    destruct (IH w1 Hrel) as (w2 & E2 & Hc2 & Hd2).
    { intros l' Hl'. apply Hsub. by right. }
    { intros l' Hl'. eapply same_ids_findsItself; [apply Hc1|]. apply Hown. by right. }
    exists w2. split; [done|]. split; [by etrans|].
    intros l' p' Hl' Hp'. apply elem_of_cons in Hl' as [->|Hl']; [|by eapply Hd2].
    destruct Hc2 as [[_ Hids2] Hc2].
    destruct (heap (store w1) !! l) as [p1|] eqn:Hp1.
    + destruct (Hc2 l p1 Hp1) as (p'' & Hp'' & Hs). assert (p'' = p') as -> by congruence.
      specialize (Hd1 p1 eq_refl). destruct Hs as [Hs|(_ & Hs & _)]; congruence.
    + pose proof (Hids2 l) as Hl. rewrite Hp', Hp1 in Hl. discriminate Hl.
Qed.

(** X24. With a database that does not fail, an app that is not busy and a
    batch whose photos the store finds under their own ids,
    [generateSplatsForPhotos] returns, every photo of the batch that was
    pending is ready or failed afterwards, whatever the generations do, and
    every other photo, and every photo of the batch that was not pending,
    has the status it had; all photos keep their ids. *)
Theorem generateSplatsForPhotos_completes env generation batch w :
  reliable env ->
  isGeneratingSplats w = false ->
  (forall l p, l ∈ batch -> heap (store w) !! l = Some p ->
     findPhoto (id p) (store w) = Some l) ->
  let r := generateSplatsForPhotos env generation batch w in
  r.1 = Return tt
  /\ (forall l p, l ∈ batch -> heap (store w) !! l = Some p -> splatStatus p = Some pending ->
        exists p', heap (store r.2) !! l = Some p' /\ id p' = id p
                   /\ (splatStatus p' = Some ready \/ splatStatus p' = Some failed))
  /\ (forall l p, heap (store w) !! l = Some p ->
        l ∉ batch \/ splatStatus p <> Some pending ->
        exists p', heap (store r.2) !! l = Some p' /\ id p' = id p
                   /\ splatStatus p' = splatStatus p).
Proof.
  intros Hrel Hidle Hown r. subst r. rewrite generateSplatsForPhotos_spec by done.
  match goal with |- context [forEach _ _ ?w0] =>
    destruct (forEach_converts env generation batch batch w0 Hrel) as (w1 & -> & Hc & Hd) end.
  { done. }
  { intros l Hl p Hp. by eapply Hown. }
  app_fields. destruct Hc as [[_ Hids] Hc].
  assert (forall l p p', heap (store w) !! l = Some p -> heap (store w1) !! l = Some p' ->
                         id p' = id p) as Hid.
  { intros l p p' Hp Hp'. specialize (Hids l). rewrite Hp, Hp' in Hids. by injection Hids. }
  split; [done|]. split.
  - intros l p Hl Hp Hpend. destruct (Hc l p Hp) as (p' & Hp' & Hs). exists p'.
    split; [done|]. split; [by eapply Hid|].
    destruct Hs as [Hs|(_ & _ & Hs)]; [|done].
    specialize (Hd l p' Hl Hp'). congruence.
  - intros l p Hp Hcase. destruct (Hc l p Hp) as (p' & Hp' & Hs). exists p'.
    split; [done|]. split; [by eapply Hid|].
    destruct Hs as [Hs|(Hl & Hpend & _)]; [done|]. destruct Hcase; done.
Qed.

Lemma generateSplatsForPhotos_completes_witness :
  let r := generateSplatsForPhotos steady firstSucceeds [0; 1]%nat uploaded in
  r.1 = Return tt
  /\ (forall l p, l ∈ [0; 1]%nat -> heap (store uploaded) !! l = Some p ->
        splatStatus p = Some pending ->
        exists p', heap (store r.2) !! l = Some p' /\ id p' = id p
                   /\ (splatStatus p' = Some ready \/ splatStatus p' = Some failed))
  /\ (forall l p, heap (store uploaded) !! l = Some p ->
        l ∉ [0; 1]%nat \/ splatStatus p <> Some pending ->
        exists p', heap (store r.2) !! l = Some p' /\ id p' = id p
                   /\ splatStatus p' = splatStatus p).
Proof.
  apply (generateSplatsForPhotos_completes steady firstSucceeds [0; 1]%nat uploaded).
  - intros n. reflexivity.
  - reflexivity.
  - intros l p Hl Hp.
    apply elem_of_cons in Hl as [->|Hl]; [|apply elem_of_cons in Hl as [->|Hl]];
      [| |by apply elem_of_nil in Hl];
      vm_compute in Hp; injection Hp as <-; vm_compute; reflexivity.
Defined.

(** The failure of the last update leaves the app busy for good. *)
Example generateSplatsForPhotos_stuck :
  let r := generateSplatsForPhotos (failingAt 8) firstSucceeds [0; 1]%nat uploaded in
  r.1 = Throw {| exnName := "DOMException"; message := "request failed" |}
  /\ isGeneratingSplats r.2 = true
  /\ splatStatus <$> objects (store r.2) (photos (store r.2)) = [Some ready; Some failed]
  /\ data_splatStatus <$> dbPhotos (store r.2) = [Some ready; Some processing].
Proof. vm_compute. repeat split. Qed.

(** *** loadExistingSplats *)

Lemma loadOne_spec l w :
  loadOne l w =
    (Return tt,
     match heap (store w) !! l ≫= splatOf with
     | Some found =>
         mkWorld (store w) (isGeneratingSplats w) (S (readySplatsCount w))
           (ui w ++ [AddSplat found.1 found.2]) (generations w)
     | None => w
     end).
Proof.
  unfold loadOne, bind, gets. cbn beta iota.
  destruct (heap (store w) !! l) as [p|]; cbn [mbind option_bind]; [|done].
  unfold splatOf. destruct (splatUrl p) as [url|]; [|done].
  destruct (truthy (Some url) && _); [|done].
  unfold show, countReady, modify. reflexivity.
Qed.

Lemma forEach_loadOne refs : forall w,
  let found := omap splatOf (objects (store w) refs) in
  forEach loadOne refs w =
    (Return tt,
     mkWorld (store w) (isGeneratingSplats w) (readySplatsCount w + length found)
       (ui w ++ ((fun s => AddSplat s.1 s.2) <$> found)) (generations w)).
Proof.
  induction refs as [|l refs IH]; intros w found; subst found; cbn [forEach].
  - destruct w. unfold ret, objects. cbn. by rewrite Nat.add_0_r, app_nil_r.
  - unfold bind. rewrite loadOne_spec.
    unfold objects. cbn [omap list_omap]. fold (objects (store w) refs).
    destruct w as [s busy n u g]. app_fields.
    destruct (heap s !! l) as [p|]; cbn [mbind option_bind omap list_omap];
      [|rewrite IH; reflexivity].
    destruct (splatOf p) as [found|]; rewrite IH; app_fields; [|reflexivity].
    cbn [length fmap list_fmap]. f_equal. f_equal; [lia|]. by rewrite <- app_assoc.
Qed.

(** X25. [loadExistingSplats] never throws and changes neither the store
    nor the busy flag. It hands to the canvas, in the order of the photos in
    memory, the splat of every photo that is ready and has a url that is
    not empty, and no other, and it raises [readySplatsCount] by their
    number (it does not reset the counter first). *)
Theorem loadExistingSplats_counts w :
  let r := loadExistingSplats w in
  let found := omap splatOf (objects (store w) (photos (store w))) in
  r.1 = Return tt
  /\ store r.2 = store w
  /\ isGeneratingSplats r.2 = isGeneratingSplats w
  /\ readySplatsCount r.2 = (readySplatsCount w + length found)%nat
  /\ addedSplats (ui r.2) = addedSplats (ui w) ++ found
  /\ Forall (fun s => s.2 <> EmptyString) found.
Proof.
  intros r found.
  assert (exists evs, r = (Return tt,
            mkWorld (store w) (isGeneratingSplats w) (readySplatsCount w + length found)
              (ui w ++ ((fun s => AddSplat s.1 s.2) <$> found) ++ evs) (generations w))
          /\ addedSplats evs = []) as (evs & -> & Hevs).
  { subst r. unfold loadExistingSplats. unfold bind at 1, liftStore at 1, getPhotos, gets at 1.
    cbn beta iota. destruct w as [s busy n u g]. app_fields. unfold bind at 1.
    rewrite forEach_loadOne. app_fields. fold found.
    unfold bind, gets. app_fields. case_bool_decide.
    - eexists [_]. unfold show, modify. app_fields. by rewrite <- app_assoc.
    - exists []. unfold ret. by rewrite app_nil_r. }
  app_fields. repeat split.
  - rewrite !addedSplats_app, Hevs, app_nil_r. f_equal.
    unfold addedSplats. clear. induction found as [|[a b] found IH]; [done|].
    cbn. by rewrite IH.
  - subst found. clear. induction (objects _ _) as [|p ps IH]; [constructor|].
    cbn [omap list_omap]. unfold splatOf at 1.
    destruct (splatUrl p) as [[|c u]|]; cbn [truthy andb]; try done.
    destruct (bool_decide _); [|done]. constructor; [done|exact IH].
Qed.

(** A reload after the run of [generateSplatsForPhotos_run]: the splat of the
    photo that became ready is handed to the canvas again. *)
Example loadExistingSplats_run :
  let r := generateSplatsForPhotos steady firstSucceeds [0; 1]%nat uploaded in
  let reloaded := mkWorld (switchAlbum steady "default" (store r.2)).2 false 0 [] 0 in
  ui (loadExistingSplats reloaded).2
  = [AddSplat "photo-1000-k3f9x2a" "https://x/y.ply"; ConsoleLog "[App] 1 splats ready"].
Proof. vm_compute. reflexivity. Qed.

End AppProofs.

(** ** The viewer *)
Module SplatViewerProofs.
Import SplatViewer SplatViewerSpec.

(** Field accesses on viewers that are written out. *)
Ltac viewer_fields :=
  cbn [splats currentIndex viewer isOpen onClose loads events fst snd] in *.

Global Instance same_fields_po : PreOrder same_fields.
Proof.
  split.
  - intros w. by repeat split.
  - intros w1 w2 w3 (? & ? & ? & ?) (? & ? & ? & ?). repeat split; congruence.
Qed.

Lemma disposeViewer_fields : preserves same_fields disposeViewer.
Proof.
  unfold disposeViewer, emit, setViewer.
  repeat first [ preserve_step | case_match ]; by repeat split.
Qed.

Lemma loadCurrentSplat_fields env : preserves same_fields (loadCurrentSplat env).
Proof.
  unfold loadCurrentSplat, emit, setViewer.
  repeat first [ apply disposeViewer_fields | preserve_step | case_match ]; by repeat split.
Qed.

Lemma updateCounter_fields : preserves same_fields updateCounter.
Proof. unfold updateCounter, emit. repeat preserve_step. by repeat split. Qed.

(** The part of [open], [prev] and [next] after the index is set. *)
Lemma show_fields env :
  preserves same_fields (loadCurrentSplat env ;;; updateCounter)%js.
Proof.
  preserve_step; [apply loadCurrentSplat_fields|apply updateCounter_fields].
Qed.

Lemma rem_in_range i n : (0 <= i)%Z -> (0 < n)%Z -> (0 <= Z.rem i n < n)%Z.
Proof. intros Hi Hn. rewrite Z.rem_mod_nonneg by lia. apply Z.mod_pos_bound. lia. Qed.

(** A fraction in lowest terms is written as it is. *)
Lemma dyadic_odd m k : Z.odd m = true -> (0 < k)%nat -> dyadic m k = Frac m k.
Proof.
  intros Hm Hk. destruct k as [|k]; [lia|]. cbn [dyadic].
  by rewrite <- Z.negb_odd, Hm.
Qed.

(** [open], [prev] and [next] set the index and show the splat. *)
Lemma open_nonempty env arg w :
  splats w <> [] ->
  open env arg w =
    (loadCurrentSplat env ;;; updateCounter)%js
      (mkWorld (splats w) (opened arg w) (viewer w) true (onClose w) (loads w)
         (events w ++ [Display true])).
Proof.
  intros Hne. unfold open. unfold bind at 1, gets at 1. cbn beta iota.
  rewrite bool_decide_false by (by intros ?%length_zero_iff_nil).
  destruct arg; reflexivity.
Qed.

Lemma open_empty env arg w :
  splats w = [] ->
  open env arg w =
    (Return tt,
     mkWorld (splats w) (currentIndex w) (viewer w) (isOpen w) (onClose w) (loads w)
       (events w ++ [Warn "[SplatViewer] No splats to show"])).
Proof.
  intros He. unfold open, bind, gets. cbn beta iota.
  rewrite bool_decide_true by (by rewrite He). reflexivity.
Qed.

Lemma next_spec env w :
  next env w =
    if bool_decide (length (splats w) <= 1)%nat then (Return tt, w)
    else (loadCurrentSplat env ;;; updateCounter)%js
           (mkWorld (splats w)
              (remainder (plus (currentIndex w) 1) (Z.of_nat (length (splats w))))
              (viewer w) (isOpen w) (onClose w) (loads w) (events w)).
Proof. unfold next. unfold bind at 1, gets at 1. cbn beta iota. by case_bool_decide. Qed.

Lemma prev_spec env w :
  prev env w =
    if bool_decide (length (splats w) <= 1)%nat then (Return tt, w)
    else (loadCurrentSplat env ;;; updateCounter)%js
           (mkWorld (splats w)
              (remainder (plus (plus (currentIndex w) (-1)) (Z.of_nat (length (splats w))))
                         (Z.of_nat (length (splats w))))
              (viewer w) (isOpen w) (onClose w) (loads w) (events w)).
Proof. unfold prev. unfold bind at 1, gets at 1. cbn beta iota. by case_bool_decide. Qed.

Lemma findIndex_range pid w : (-1 <= findIndex pid w < Z.of_nat (length (splats w)))%Z.
Proof.
  unfold findIndex. destruct (list_find _ _) as [[i s]|] eqn:E; [|lia].
  apply list_find_Some in E as (Hi & _). apply lookup_lt_Some in Hi. lia.
Qed.

(** Given an integer or a photo id, [open] sets the index to that of a
    splat. *)
Lemma opened_range arg w :
  splats w <> [] ->
  integral (CallOpen arg) ->
  exists i, opened arg w = Int i /\ (0 <= i < Z.of_nat (length (splats w)))%Z.
Proof.
  intros Hne Hint. assert (0 < length (splats w))%nat.
  { destruct (splats w); [done|cbn; lia]. }
  destruct arg as [[index| | |]|pid]; cbn [integral] in Hint; try done; cbn [opened].
  - eexists. split; [reflexivity|]. lia.
  - eexists. split; [reflexivity|].
    pose proof (findIndex_range pid w). destruct (Z.leb_spec 0 (findIndex pid w)); lia.
Qed.

Lemma close_fields w :
  splats (close w).2 = splats w /\ currentIndex (close w).2 = currentIndex w
  /\ isOpen (close w).2 = false.
Proof.
  assert (close w = (cb <- gets onClose ;;
                     match cb with
                     | None => ret tt
                     | Some outcome =>
                         emit Closed ;;;
                         match outcome with Some e => throw e | None => ret tt end
                     end)%js
                    (disposeViewer
                       (mkWorld (splats w) (currentIndex w) (viewer w) false (onClose w)
                          (loads w) (events w ++ [Display false]))).2) as ->.
  { unfold close. unfold bind at 1, setIsOpen at 1, modify at 1. cbn beta iota.
    unfold bind at 1, emit at 1, modify at 1. cbn beta iota. unfold bind at 1.
    viewer_fields. unfold disposeViewer, bind, gets, emit, setViewer, modify, ret.
    viewer_fields. by destruct (viewer w). }
  match goal with |- context [disposeViewer ?w0] =>
    destruct (disposeViewer_fields w0) as (Hs & Hi & Ho & Hc);
    destruct (disposeViewer w0) as [o w1] end.
  viewer_fields. unfold bind, gets, emit, modify, ret, throw.
  rewrite <- Hs, <- Hi, <- Ho.
  destruct (onClose w1) as [[e|]|]; done.
Qed.

(** Only [addSplat] touches the splats, and it appends one. *)
Lemma call_splats env c w :
  splats (call env c w).2 =
    splats w ++ match c with
                | CallAddSplat pid url =>
                    [{| id := "splat-" +:+ pretty (length (splats w));
                        photoId := pid; plyUrl := url |}]
                | _ => []
                end.
Proof.
  destruct c as [pid url|arg| | |]; cbn [call]; rewrite ?app_nil_r.
  - unfold addSplat, bind, gets, emit, modify. by viewer_fields.
  - destruct (decide (splats w = [])) as [He|Hne].
    + by rewrite open_empty.
    + rewrite open_nonempty by done.
      match goal with |- context [bind _ _ ?w0] =>
        destruct (show_fields env w0) as (-> & _) end. done.
  - destruct (close_fields w) as (-> & _). done.
  - rewrite prev_spec. case_bool_decide; [done|].
    match goal with |- context [bind _ _ ?w0] =>
      destruct (show_fields env w0) as (-> & _) end. done.
  - rewrite next_spec. case_bool_decide; [done|].
    match goal with |- context [bind _ _ ?w0] =>
      destruct (show_fields env w0) as (-> & _) end. done.
Qed.

Lemma call_numbered env c w : numbered w -> numbered (call env c w).2.
Proof.
  intros Hids i s. rewrite call_splats. intros Hi.
  apply lookup_app_Some in Hi as [Hi|[Hlen Hi]]; [by apply Hids|].
  destruct c; try done.
  destruct (i - length (splats w))%nat as [|k] eqn:Hk; [|done].
  injection Hi as <-. cbn [id]. do 2 f_equal. lia.
Qed.

Lemma after_numbered env cs : forall w, numbered w -> numbered (after env cs w).
Proof.
  induction cs as [|c cs IH]; intros w Hw; [done|].
  cbn [after foldl]. apply IH. by apply call_numbered.
Qed.

Lemma call_wellFormed env c w :
  integral c -> wellFormed w -> wellFormed (call env c w).2.
Proof.
  intros Hint ((i & Hi & Hidx) & Hopen). destruct c as [pid url|arg| | |]; cbn [call].
  - unfold wellFormed, addSplat, bind, gets, emit, modify. viewer_fields.
    rewrite length_app. cbn [length]. split; [exists i; split; [done|lia]|].
    intros _. by destruct (splats w).
  - destruct (decide (splats w = [])) as [He|Hne].
    + rewrite open_empty by done. split; [by exists i|done].
    + rewrite open_nonempty by done.
      match goal with |- context [bind _ _ ?w0] =>
        destruct (show_fields env w0) as (Hs & Hc & Ho & _) end.
      unfold wellFormed. rewrite Hs, Hc, Ho. viewer_fields.
      destruct (opened_range arg w Hne Hint) as (j & -> & Hj).
      split; [exists j; split; [done|lia]|done].
  - destruct (close_fields w) as (Hs & Hc & Ho). unfold wellFormed. rewrite Hs, Hc, Ho.
    split; [by exists i|done].
  - rewrite prev_spec. case_bool_decide as Hn; [split; [by exists i|done]|].
    match goal with |- context [bind _ _ ?w0] =>
      destruct (show_fields env w0) as (Hs & Hc & Ho & _) end.
    unfold wellFormed. rewrite Hs, Hc, Ho. viewer_fields. split; [|done].
    rewrite Hi. cbn [plus remainder]. eexists. split; [reflexivity|].
    pose proof (rem_in_range (i + -1 + Z.of_nat (length (splats w)))
                  (Z.of_nat (length (splats w)))). lia.
  - rewrite next_spec. case_bool_decide as Hn; [split; [by exists i|done]|].
    match goal with |- context [bind _ _ ?w0] =>
      destruct (show_fields env w0) as (Hs & Hc & Ho & _) end.
    unfold wellFormed. rewrite Hs, Hc, Ho. viewer_fields. split; [|done].
    rewrite Hi. cbn [plus remainder]. eexists. split; [reflexivity|].
    pose proof (rem_in_range (i + 1) (Z.of_nat (length (splats w)))). lia.
Qed.

Lemma after_wellFormed env cs : forall w,
  Forall integral cs -> wellFormed w -> wellFormed (after env cs w).
Proof.
  induction cs as [|c cs IH]; intros w Hint Hw; [done|].
  apply Forall_cons in Hint as [Hc Hint].
  cbn [after foldl]. apply IH; [done|]. by apply call_wellFormed.
Qed.

Lemma fresh_wellFormed cb : wellFormed (fresh cb).
Proof. split; [exists 0%Z; split; [done|cbn; lia]|discriminate]. Qed.

Lemma numbered_NoDup (l : list SplatInfo) :
  (forall i s, l !! i = Some s -> id s = "splat-" +:+ pretty i) -> NoDup (id <$> l).
Proof.
  intros Hids. apply NoDup_alt. intros i j x Hi Hj.
  apply list_lookup_fmap_Some in Hi as (s & -> & Hi).
  apply list_lookup_fmap_Some in Hj as (s' & Hx & Hj).
  rewrite (Hids i s Hi), (Hids j s' Hj) in Hx. cbn [String.app] in Hx.
  repeat (injection Hx as Hx). cbn [String.app] in Hx. by apply pretty_nat_inj in Hx.
Qed.

(** An index that is that of a splat finds it. *)
Lemma currentSplat_Int w i :
  currentIndex w = Int i -> (0 <= i < Z.of_nat (length (splats w)))%Z ->
  is_Some (currentSplat w).
Proof.
  intros Hi Hr. unfold currentSplat. rewrite Hi.
  destruct (Z.leb_spec 0 i); [|lia]. apply lookup_lt_is_Some. lia.
Qed.

(** X26. The current index of the viewer, [open] being given integers or
    photo ids. Start from a new viewer and call [addSplat], [open],
    [close], [prev] and [next] in any order, one call after the end of the
    other, whatever the viewer library does and however each call ends.
    Then the current index is an integer that is not negative; whenever
    there are splats it is the index of one of them, so an open viewer
    always has a splat to show; the splat at position [i] has the id
    [splat-<i>], and so no two splats share an id. (For a number that is
    not an integer this fails: see [open_not_an_index].) *)
Theorem viewer_index_in_range env cb cs :
  Forall integral cs ->
  let w := after env cs (fresh cb) in
  (exists i, currentIndex w = Int i /\ (0 <= i)%Z)
  /\ (splats w <> [] -> is_Some (currentSplat w))
  /\ (isOpen w = true -> is_Some (currentSplat w))
  /\ (forall i s, splats w !! i = Some s -> id s = "splat-" +:+ pretty i)
  /\ NoDup (id <$> splats w).
Proof.
  intros Hint w.
  destruct (after_wellFormed env cs (fresh cb) Hint (fresh_wellFormed cb))
    as ((i & Hi & Hidx) & Hopen). fold w in Hi, Hidx, Hopen.
  assert (numbered w) as Hids by (apply after_numbered; intros ? ? ?; done).
  assert (splats w <> [] -> is_Some (currentSplat w)) as Hcur.
  { intros Hne. apply (currentSplat_Int w i Hi).
    destruct (splats w); [done|]. cbn [length] in *. lia. }
  split; [exists i; split; [done|lia]|]. split; [done|]. split; [auto|]. split; [done|].
  by apply numbered_NoDup.
Qed.

Lemma viewer_index_in_range_witness :
  let w := after working [CallAddSplat "photo-a" "https://x/a.ply";
                          CallAddSplat "photo-b" "https://x/b.ply";
                          CallOpen (ByIndex (Int 7)); CallNext;
                          CallOpen (ByPhotoId "photo-z"); CallPrev; CallClose]
             (fresh None) in
  (exists i, currentIndex w = Int i /\ (0 <= i)%Z)
  /\ (splats w <> [] -> is_Some (currentSplat w))
  /\ (isOpen w = true -> is_Some (currentSplat w))
  /\ (forall i s, splats w !! i = Some s -> id s = "splat-" +:+ pretty i)
  /\ NoDup (id <$> splats w).
Proof.
  apply (viewer_index_in_range working None
           [CallAddSplat "photo-a" "https://x/a.ply";
            CallAddSplat "photo-b" "https://x/b.ply";
            CallOpen (ByIndex (Int 7)); CallNext;
            CallOpen (ByPhotoId "photo-z"); CallPrev; CallClose]).
  repeat constructor.
Defined.

(** [open] given a number that is not an integer: [NaN] and 1.5 are stored
    as they are, and the viewer is open on no splat; [next] takes 1.5 to
    2.5 and then to 0.5, [NaN] stays. From 2^-60, [next] comes to the
    integer 1, the sum being rounded. *)
Example open_not_an_index :
  (let w := (open working (ByIndex NaN) gallery).2 in
   (isOpen w, currentIndex w, currentSplat w, currentIndex (next working w).2)
   = (true, NaN, None, NaN))
  /\ (let w := (open working (ByIndex oneAndAHalf) gallery).2 in
      (isOpen w, currentIndex w, currentSplat w,
       currentIndex (next working w).2, currentIndex (next working (next working w).2).2)
      = (true, Frac 3 1, None, Frac 5 1, Frac 1 1))
  /\ (let w := (open working (ByIndex tiny) gallery).2 in
      (currentIndex w, currentSplat w, currentIndex (next working w).2)
      = (Frac 1 60, None, Int 1)).
Proof. vm_compute. done. Qed.

Lemma after_snoc env cs c w : after env (cs ++ [c]) w = (call env c (after env cs w)).2.
Proof. unfold after. by rewrite foldl_app. Qed.

Lemma after_splats env cs : forall w,
  (fun s => (photoId s, plyUrl s)) <$> splats (after env cs w)
  = ((fun s => (photoId s, plyUrl s)) <$> splats w) ++ added cs.
Proof.
  induction cs as [|c cs IH]; intros w; [by rewrite app_nil_r|].
  cbn [after foldl]. fold (after env cs (call env c w).2).
  rewrite IH, call_splats, fmap_app, <- app_assoc. f_equal.
  destruct c; done.
Qed.

(** X27. Splats are only ever added. After any calls on a new viewer the
    splats are those the calls of [addSplat] gave, in the order of the
    calls, a photo given twice being there twice; [getSplatCount] returns
    their number, and [hasSplat(photoId)] tells whether one of them belongs
    to that photo. *)
Theorem viewer_keeps_splats env cb cs :
  let w := after env cs (fresh cb) in
  (fun s => (photoId s, plyUrl s)) <$> splats w = added cs
  /\ (getSplatCount w).1 = Return (length (added cs))
  /\ forall pid, (hasSplat pid w).1 = Return (bool_decide (pid ∈ (added cs).*1)).
Proof.
  intros w. pose proof (after_splats env cs (fresh cb)) as H. fold w in H. cbn in H.
  split; [done|]. split.
  - unfold getSplatCount, gets. cbn [fst]. by rewrite <- H, length_fmap.
  - intros pid. unfold hasSplat, gets. cbn [fst]. f_equal.
    rewrite <- H, <- list_fmap_compose. clear.
    induction (splats w) as [|s l IH]; [done|]. cbn [existsb fmap list_fmap]. rewrite IH.
    apply eq_true_iff_eq. rewrite orb_true_iff, !bool_decide_eq_true, elem_of_cons.
    cbn. intuition congruence.
Qed.

(** X28. [open(indexOrPhotoId)]. Without splats it warns, returns, and
    leaves the viewer closed or open as it was. With splats the viewer is
    open afterwards, however the loading of the splat ends, and the splats
    are untouched. Given a photo id, the current index becomes the position
    of the first splat of that photo, or 0 when the photo has none; given
    an integer, the integer clamped to the positions of the splats (the
    integer itself when it is one of them); given an infinity, the last
    position or 0: in these cases the index is that of a splat. Given
    [NaN], the current index becomes [NaN]; given a fraction, 0 when the
    fraction is negative, the last position when it lies beyond, and
    otherwise the fraction itself: with [NaN] or a fraction as index the
    viewer is open on no splat. *)
Theorem open_selects env arg w :
  let r := open env arg w in
  let n := Z.of_nat (length (splats w)) in
  (splats w = [] ->
     r.1 = Return tt /\ isOpen r.2 = isOpen w /\ currentIndex r.2 = currentIndex w
     /\ events r.2 = events w ++ [Warn "[SplatViewer] No splats to show"])
  /\ (splats w <> [] ->
        isOpen r.2 = true
        /\ splats r.2 = splats w
        /\ match arg with
           | ByPhotoId pid =>
               exists i s,
                 currentIndex r.2 = Int (Z.of_nat i) /\ currentSplat r.2 = Some s
                 /\ ((photoId s = pid
                      /\ forall j s', (j < i)%nat -> splats w !! j = Some s' ->
                           photoId s' <> pid)
                     \/ (i = 0%nat /\ Forall (fun s' => photoId s' <> pid) (splats w)))
           | ByIndex (Int index) =>
               currentIndex r.2 = Int (Z.max 0 (Z.min index (n - 1)))
               /\ ((0 <= index < n)%Z -> currentIndex r.2 = Int index)
               /\ is_Some (currentSplat r.2)
           | ByIndex (Infinity negative) =>
               currentIndex r.2 = Int (if negative then 0 else n - 1)
               /\ is_Some (currentSplat r.2)
           | ByIndex NaN => currentIndex r.2 = NaN /\ currentSplat r.2 = None
           | ByIndex (Frac m k) =>
               Z.odd m = true -> (0 < k)%nat ->
               ((m < 0)%Z -> currentIndex r.2 = Int 0 /\ is_Some (currentSplat r.2))
               /\ (((n - 1) * 2 ^ Z.of_nat k < m)%Z ->
                   currentIndex r.2 = Int (n - 1) /\ is_Some (currentSplat r.2))
               /\ ((0 < m < (n - 1) * 2 ^ Z.of_nat k)%Z ->
                   currentIndex r.2 = Frac m k /\ currentSplat r.2 = None)
           end).
Proof.
  intros r n. subst r. split.
  - intros He. rewrite open_empty by done. done.
  - intros Hne. rewrite open_nonempty by done.
    match goal with |- context [bind _ _ ?w0] =>
      destruct (show_fields env w0) as (Hs & Hi & Ho & _) end.
    viewer_fields. split; [done|]. split; [done|].
    assert (0 < n)%Z as Hn.
    { subst n. destruct (splats w); [done|cbn [length]; lia]. }
    assert (forall i, (0 <= i < n)%Z -> opened arg w = Int i ->
                      is_Some (currentSplat (bind (loadCurrentSplat env) (fun _ => updateCounter)
                        (mkWorld (splats w) (opened arg w) (viewer w) true (onClose w)
                           (loads w) (events w ++ [Display true]))).2)) as Hshown.
    { intros i Hr Hop. apply (currentSplat_Int _ i); [by rewrite Hi|by rewrite Hs]. }
    assert (forall x, (forall i, x <> Int i) -> opened arg w = x ->
                      currentSplat (bind (loadCurrentSplat env) (fun _ => updateCounter)
                        (mkWorld (splats w) (opened arg w) (viewer w) true (onClose w)
                           (loads w) (events w ++ [Display true]))).2 = None) as Hhidden.
    { intros x Hx Hop. unfold currentSplat. rewrite Hi, Hop.
      destruct x; try done. by destruct (Hx z). }
    rewrite Hi. destruct arg as [[index|m k| |negative]|pid]; cbn [opened mathMin mathMax] in *.
    + fold n. split; [done|]. split; [intros Hr; f_equal; lia|].
      apply (Hshown (Z.max 0 (Z.min index (n - 1)))); [lia|done].
    + fold n in Hshown, Hhidden |- *. intros Hm Hk.
      pose proof (Z.pow_pos_nonneg 2 (Z.of_nat k) ltac:(lia) ltac:(lia)) as Hpow.
      rewrite (dyadic_odd m k Hm Hk) in *.
      destruct (Z.ltb_spec m ((n - 1) * 2 ^ Z.of_nat k)) as [Hlt|Hge]; cbn [mathMax] in *.
      * rewrite (dyadic_odd m k Hm Hk) in *.
        destruct (Z.ltb_spec (0 * 2 ^ Z.of_nat k) m) as [Hpos|Hneg].
        -- split; [lia|]. split; [lia|]. intros _. split; [done|].
           by apply (Hhidden (Frac m k)).
        -- assert (m <> 0)%Z by (intros ->; done).
           split; [intros _; split; [done|apply (Hshown 0%Z); [lia|done]]|].
           split; [nia|lia].
      * assert (m <> (n - 1) * 2 ^ Z.of_nat k)%Z as Hne'.
        { intros ->. rewrite Z.odd_mul in Hm. apply andb_true_iff in Hm as [_ Hm].
          rewrite Z.odd_pow in Hm by lia. done. }
        replace (Z.max 0 (n - 1)) with (n - 1)%Z in * by lia.
        split; [nia|]. split; [|lia].
        intros _. split; [done|]. apply (Hshown (n - 1)%Z); [lia|done].
    + split; [done|]. by apply (Hhidden NaN).
    + fold n in Hshown |- *. destruct negative; cbn [mathMax] in *.
      * split; [done|]. apply (Hshown 0%Z); [lia|done].
      * replace (Z.max 0 (n - 1)) with (n - 1)%Z in * by lia.
        split; [done|]. apply (Hshown (n - 1)%Z); [lia|done].
    + unfold currentSplat in *. rewrite Hi, Hs. unfold findIndex in *.
      destruct (list_find _ (splats w)) as [[i s0]|] eqn:E.
      * apply list_find_Some in E as (Hi0 & Hpid & Hfirst).
        destruct (Z.leb_spec 0 (Z.of_nat i)); [|lia].
        assert ((0 <=? Z.of_nat i)%Z = true) as Hle by (apply Z.leb_le; lia).
        exists i, s0. rewrite ?Hle, Nat2Z.id. split; [done|]. split; [done|]. left.
        split; [done|]. intros j s' Hj Hs'. by eapply Hfirst.
      * cbn. destruct (splats w) as [|s0 l] eqn:Hsp; [done|].
        exists 0%nat, s0. split; [done|]. split; [done|]. right. split; [done|].
        apply list_find_None in E. exact E.
Qed.

(** X29. [next] and [prev], the current index being that of a splat:
    [next] moves to the index after it and [prev] to the index before it,
    both modulo the number of splats, and neither moves when there is at
    most one splat. [prev] after [next], and [next] after [prev], come back
    to the index they left, whatever the viewer library does in between.
    The splats are not touched. *)
Theorem next_prev_inverse env env' w i :
  currentIndex w = Int i ->
  (0 <= i < Z.of_nat (length (splats w)))%Z ->
  let n := Z.of_nat (length (splats w)) in
  currentIndex (next env w).2
  = Int (if bool_decide (length (splats w) <= 1)%nat then i else ((i + 1) mod n)%Z)
  /\ currentIndex (prev env w).2
     = Int (if bool_decide (length (splats w) <= 1)%nat then i else ((i - 1) mod n)%Z)
  /\ currentIndex (prev env' (next env w).2).2 = Int i
  /\ currentIndex (next env' (prev env w).2).2 = Int i
  /\ splats (next env w).2 = splats w
  /\ splats (prev env w).2 = splats w.
Proof.
  intros Hi Hr n.
  assert (forall e w0 j, currentIndex w0 = Int j ->
            (0 <= j < Z.of_nat (length (splats w0)))%Z ->
            splats (next e w0).2 = splats w0
            /\ currentIndex (next e w0).2
               = Int (if bool_decide (length (splats w0) <= 1)%nat then j
                      else ((j + 1) mod Z.of_nat (length (splats w0)))%Z)) as Hnext.
  { intros e w0 j Hj Hr0. rewrite next_spec. case_bool_decide; [done|].
    match goal with |- context [bind _ _ ?w1] =>
      destruct (show_fields e w1) as (-> & -> & _) end.
    viewer_fields. split; [done|]. rewrite Hj. cbn [plus remainder]. f_equal.
    apply Z.rem_mod_nonneg; lia. }
  assert (forall e w0 j, currentIndex w0 = Int j ->
            (0 <= j < Z.of_nat (length (splats w0)))%Z ->
            splats (prev e w0).2 = splats w0
            /\ currentIndex (prev e w0).2
               = Int (if bool_decide (length (splats w0) <= 1)%nat then j
                      else ((j - 1) mod Z.of_nat (length (splats w0)))%Z)) as Hprev.
  { intros e w0 j Hj Hr0. rewrite prev_spec. case_bool_decide; [done|].
    match goal with |- context [bind _ _ ?w1] =>
      destruct (show_fields e w1) as (-> & -> & _) end.
    viewer_fields. split; [done|]. rewrite Hj. cbn [plus remainder]. f_equal.
    rewrite Z.rem_mod_nonneg by lia.
    rewrite <- (Z.mod_add (j - 1) 1) by lia. f_equal. lia. }
  destruct (Hnext env w i Hi Hr) as [Hns Hni], (Hprev env w i Hi Hr) as [Hps Hpi].
  split; [done|]. split; [done|].
  assert (0 < n)%Z as Hn by lia.
  destruct (bool_decide (length (splats w) <= 1)%nat) eqn:Hsmall.
  - destruct (Hprev env' (next env w).2 i) as [_ ->]; [done|rewrite Hns; lia|].
    destruct (Hnext env' (prev env w).2 i) as [_ ->]; [done|rewrite Hps; lia|].
    rewrite Hns, Hps, Hsmall. done.
  - pose proof (Z.mod_pos_bound (i + 1) n Hn).
    pose proof (Z.mod_pos_bound (i - 1) n Hn).
    destruct (Hprev env' (next env w).2 ((i + 1) mod n)%Z) as [_ ->];
      [done|rewrite Hns; fold n; lia|].
    destruct (Hnext env' (prev env w).2 ((i - 1) mod n)%Z) as [_ ->];
      [done|rewrite Hps; fold n; lia|].
    rewrite Hns, Hps, Hsmall. fold n.
    rewrite Zminus_mod_idemp_l, Zplus_mod_idemp_l.
    replace (i + 1 - 1)%Z with i by lia.
    replace (i - 1 + 1)%Z with i by lia.
    rewrite Z.mod_small by lia. done.
Qed.

Lemma next_prev_inverse_witness :
  let n := Z.of_nat (length (splats lastShown)) in
  currentIndex (next working lastShown).2
  = Int (if bool_decide (length (splats lastShown) <= 1)%nat then 2 else ((2 + 1) mod n)%Z)
  /\ currentIndex (prev working lastShown).2
     = Int (if bool_decide (length (splats lastShown) <= 1)%nat then 2
            else ((2 - 1) mod n)%Z)
  /\ currentIndex (prev working (next working lastShown).2).2 = Int 2
  /\ currentIndex (next working (prev working lastShown).2).2 = Int 2
  /\ splats (next working lastShown).2 = splats lastShown
  /\ splats (prev working lastShown).2 = splats lastShown.
Proof.
  apply (next_prev_inverse working working lastShown 2).
  - reflexivity.
  - vm_compute. split; [discriminate|reflexivity].
Defined.

(** A session: the numbers the counter shows, and where the viewer
    ends. *)
Example viewer_run :
  let w := after working [CallOpen (ByPhotoId "photo-a"); CallNext; CallNext; CallNext;
                          CallOpen (ByPhotoId "photo-z"); CallPrev; CallClose] gallery in
  (id <$> splats w, currentIndex w, isOpen w, viewer w)
  = (["splat-0"; "splat-1"; "splat-2"], Int 2, false, false)
  /\ omap (fun e => match e with CounterText x n => Some (x, n) | _ => None end) (events w)
     = [(Int 1, 3); (Int 2, 3); (Int 3, 3); (Int 1, 3); (Int 1, 3); (Int 3, 3)]%nat.
Proof. vm_compute. done. Qed.

End SplatViewerProofs.

(** ** The result endpoint *)
Module ResultApiProofs.
Import ResultApi ResultApiSpec.

(** The goal is membership in a list that is written out. *)
Ltac listed := repeat first [apply list_elem_of_here | apply list_elem_of_further].

(** How the handler ends, case by case. *)
Lemma handler_cases database req w :
  handler database req w =
    if bool_decide (method req = "OPTIONS") then
      (Return {| statusCode := 200; body := NoBody |}, w)
    else if bool_decide (method req ≠ "GET") then
      (Return {| statusCode := 405; body := MethodNotAllowed "Method not allowed, use GET" |}, w)
    else
      match request_id req with
      | Some (String c s) =>
          let id := String c s in
          match database id with
          | Return reply =>
              (Return
                 match data reply with
                 | Some job =>
                     if fetchError reply then
                       {| statusCode := 404; body := JobNotFound "Job not found" id |}
                     else if bool_decide (job_status job ≠ "completed") then
                       {| statusCode := 400;
                          body := NotComplete ("Job not complete. Status: " +:+ job_status job)
                                    id (job_status job) |}
                     else
                       {| statusCode := 200;
                          body := Result id (job_ply_url job) (job_filename job)
                                    (job_size_bytes job) |}
                 | None => {| statusCode := 404; body := JobNotFound "Job not found" id |}
                 end,
               {| trace := trace w ++ [Select id] |})
          | Throw e =>
              (Return {| statusCode := 500;
                         body := Failure (js_or (Some (message e)) "Unknown error") |},
               {| trace := trace w ++ [Select id; ConsoleError "[Sharp] Result error:"] |})
          end
      | Some EmptyString | None =>
          (Return {| statusCode := 400; body := Required "request_id is required" |}, w)
      end.
Proof.
  unfold handler. do 2 (case_bool_decide; [reflexivity|]).
  unfold single, emit, tryCatch, bind, modify, ret, throw.
  destruct (request_id req) as [[|c s]|]; try reflexivity. cbv zeta. cbn [trace].
  destruct (database (String c s)) as [[[job|] []]|e]; cbn [data fetchError];
    rewrite <- ?app_assoc; try reflexivity.
  all: try by case_bool_decide.
  cbn [trace]. by rewrite <- app_assoc.
Qed.

(** X30. The handler of [api/sharp/result] always sends a response, with
    status 200, 400, 404, 405 or 500, so [response.ok] holds exactly for
    status 200. A 200 with a body is sent exactly when the method is GET,
    [request_id] is given and not empty, the query resolves to a row
    without error and the status of the row is [completed]; the body then
    carries the request id and the [ply_url], [filename] and [size_bytes] of
    the row. The table is queried only on a GET with a non-empty
    [request_id], once, and for that id. *)
Theorem result_served_when_completed database req w :
  let r := handler database req w in
  exists response,
    r.1 = Return response
    /\ statusCode response ∈ [200; 400; 404; 405; 500]%Z
    /\ (okOf response = true <-> statusCode response = 200%Z)
    /\ (statusCode response = 200%Z /\ body response <> NoBody <->
        exists id job,
          method req = "GET" /\ request_id req = Some id /\ id <> EmptyString
          /\ database id = Return {| data := Some job; fetchError := false |}
          /\ job_status job = "completed"
          /\ body response = Result id (job_ply_url job) (job_filename job)
                               (job_size_bytes job))
    /\ (trace r.2 <> trace w ->
        method req = "GET"
        /\ exists id evs, request_id req = Some id /\ id <> EmptyString
                          /\ trace r.2 = trace w ++ Select id :: evs
                          /\ Forall (fun e => forall id', e <> Select id') evs).
Proof.
  intros r. subst r. rewrite handler_cases.
  case_bool_decide as Hopt.
  { eexists. split; [reflexivity|]. cbn. split; [listed|]. split; [done|].
    split; [|done]. split; [by intros [_ ?]|].
    intros (id & job & Hm & _). congruence. }
  case_bool_decide as Hget.
  { eexists. split; [reflexivity|]. cbn. split; [listed|]. split; [done|].
    split; [|done]. split; [by intros [? _]|].
    intros (id & job & Hm & _). done. }
  destruct (request_id req) as [[|c s]|] eqn:Hid.
  1,3: (eexists; split; [reflexivity|]; cbn; split; [listed|]; split; [done|];
        split; [|done]; split; [by intros [? _]|];
        intros (id & job & _ & [= <-] & ? & _); done).
  cbv zeta. destruct (database (String c s)) as [[[job|] ferr]|e] eqn:Hdb.
  - eexists. split; [reflexivity|]. cbn [fst snd data fetchError trace].
    assert (trace w ++ [Select (String c s)] = trace w ++ Select (String c s) :: []) as Ht
      by reflexivity.
    destruct ferr; [|case_bool_decide as Hst]; cbn.
    + split; [listed|]. split; [done|]. split.
      * split; [by intros [? _]|]. intros (id & job' & _ & [= <-] & _ & E & _). congruence.
      * intros _. split; [done|]. eexists _, []. repeat split; done.
    + split; [listed|]. split; [done|]. split.
      * split; [by intros [? _]|].
        intros (id & job' & _ & [= <-] & _ & E & Hc & _). congruence.
      * intros _. split; [done|]. eexists _, []. repeat split; done.
    + split; [listed|]. split; [done|]. split.
      * split; [|done]. intros _. exists (String c s), job. repeat split; done.
      * intros _. split; [done|]. eexists _, []. repeat split; done.
  - eexists. split; [reflexivity|]. cbn. split; [listed|]. split; [done|]. split.
    + split; [by intros [? _]|]. intros (id & job' & _ & [= <-] & _ & E & _). congruence.
    + intros _. split; [done|]. eexists _, []. repeat split; done.
  - eexists. split; [reflexivity|]. cbn. split; [listed|]. split; [done|]. split.
    + split; [by intros [? _]|]. intros (id & job' & _ & [= <-] & _ & E & _). congruence.
    + intros _. split; [done|]. eexists _, [_]. repeat split; [done|].
      repeat constructor. done.
Qed.

(** A finished job, an unknown job, and a POST. *)
Example handler_run :
  (handler finished {| method := "GET"; request_id := Some "job" |} {| trace := [] |}).1
  = Return {| statusCode := 200;
              body := Result "job" (Some "https://x/y.ply") (Some "y.ply") (Some 12345%Z) |}
  /\ (handler finished {| method := "GET"; request_id := Some "other" |} {| trace := [] |}).1
     = Return {| statusCode := 404; body := JobNotFound "Job not found" "other" |}
  /\ (handler finished {| method := "POST"; request_id := Some "job" |} {| trace := [] |})
     = (Return {| statusCode := 405; body := MethodNotAllowed "Method not allowed, use GET" |},
        {| trace := [] |}).
Proof. vm_compute. done. Qed.

End ResultApiProofs.
